(** * Hinhhocdehieu: the interactive geometry canvas

    A shallow embedding of [src/utils/geometryUtils.ts] and of the
    pointer/zoom/rotation logic of [src/components/Canvas.tsx].

    Numbers.  Every JavaScript [number] of the source is idealised as a
    real number of [R]: [+], [-], [*], [/], [Math.sqrt], [Math.cos],
    [Math.sin], [Math.min], [Math.max] are the exact operations.  Rounding,
    overflow, infinities and NaN are therefore outside this development;
    statements "within floating-point tolerance" become exact equalities.
    The one function whose outcome hangs on a rounding error,
    [getSmartLabelDirection] with its test [len === 0], is embedded a second
    time over IEEE 754 binary64 numbers, in the module [Binary64].

    State.  React state cells ([useState]) and mutable refs ([useRef]) are
    the fields of one record [Canvas]; every handler is a function from
    the state before the event to the state after it, each event being
    handled to completion before the next one. *)

From Stdlib Require Import String DecimalString Reals Lra Lia List Bool ZArith.
From Stdlib Require PrimFloat.
Import ListNotations.
Open Scope string_scope.
Open Scope list_scope.
Open Scope R_scope.

(** ** Decidable comparisons on numbers, as booleans *)

Definition Rltb (a b : R) : bool := if Rlt_dec a b then true else false.
Definition Rgtb (a b : R) : bool := Rltb b a.
Definition Reqb (a b : R) : bool := if Req_dec_T a b then true else false.

(** [Math.min], [Math.max], [Math.abs], [Math.hypot] (two arguments). *)
Definition Math_min (a b : R) : R := Rmin a b.
Definition Math_max (a b : R) : R := Rmax a b.
Definition Math_abs (a : R) : R := Rabs a.
Definition Math_hypot (a b : R) : R := sqrt (a * a + b * b).

(** ** JavaScript truthiness of the values the canvas tests *)

(** A string is truthy unless it is empty. *)
Definition truthy_string (s : string) : bool :=
  match s with EmptyString => false | String _ _ => true end.

(** [string | null] and [string | undefined]. *)
Definition truthy (o : option string) : bool :=
  match o with Some s => truthy_string s | None => false end.

(** [s.includes(sub)]. *)
Definition includes (s sub : string) : bool :=
  match index 0 sub s with Some _ => true | None => false end.

(** ** [src/types]: the data model *)

Record Point2D : Type := mkPoint2D { x : R; y : R }.

Record Point3D : Type := mkPoint3D {
  id : string;
  x3 : R;
  y3 : R;
  z3 : R;
  label : option string;
  labelOffset : option Point2D
}.

Record Edge : Type := mkEdge {
  edge_id : string;
  edge_from : string;
  edge_to : string
}.

Record FreehandStroke : Type := mkStroke {
  stroke_id : string;
  stroke_points : list Point2D;
  stroke_color : string;
  stroke_width : R
}.

Inductive DocType : Type := TwoD | ThreeD.

Record GeometryData : Type := mkGeometryData {
  points : list Point3D;
  edges : list Edge;
  drawings : option (list FreehandStroke);
  gtype : DocType
}.

(** ** [Map<K, V>]: insertion-ordered, [set] on a present key keeps its place *)

Section JsMap.
Context {K V : Type} (eqb : K -> K -> bool).

Fixpoint map_get (m : list (K * V)) (k : K) : option V :=
  match m with
  | [] => None
  | (k', v) :: r => if eqb k k' then Some v else map_get r k
  end.

Fixpoint map_set (m : list (K * V)) (k : K) (v : V) : list (K * V) :=
  match m with
  | [] => [(k, v)]
  | (k', v') :: r =>
      if eqb k k' then (k, v) :: r else (k', v') :: map_set r k v
  end.

Fixpoint map_delete (m : list (K * V)) (k : K) : list (K * V) :=
  match m with
  | [] => []
  | (k', v') :: r =>
      if eqb k k' then r else (k', v') :: map_delete r k
  end.

Definition map_has (m : list (K * V)) (k : K) : bool :=
  match map_get m k with Some _ => true | None => false end.

Definition map_values (m : list (K * V)) : list V := map snd m.

Definition map_size (m : list (K * V)) : nat := length m.
End JsMap.

(** ** [src/utils/geometryUtils.ts] *)

Definition projectPoint (point : Point3D)
    (angleX angleY scale canvasWidth canvasHeight : R) : Point2D :=
  let radX := (angleX * PI) / 180 in
  let radY := (angleY * PI) / 180 in
  let x := x3 point * cos radY - z3 point * sin radY in
  let z := x3 point * sin radY + z3 point * cos radY in
  let y := y3 point in
  let y_new := y * cos radX - z * sin radX in
  let z := y * sin radX + z * cos radX in
  let y := y_new in
  let projectedX := x * scale + canvasWidth / 2 in
  let projectedY := - y * scale + canvasHeight / 2 in
  {| x := projectedX; y := projectedY |}.

(** The accumulator of the two 3D [reduce] calls: an object [{x, y, z}]. *)
Record Acc3 : Type := mkAcc3 { ax : R; ay : R; az : R }.

Definition getCenterPoint (points : list Point3D) : Point3D :=
  match points with
  | [] => mkPoint3D "center" 0 0 0 None None
  | _ =>
      let sum :=
        fold_left
          (fun acc p => mkAcc3 (ax acc + x3 p) (ay acc + y3 p) (az acc + z3 p))
          points (mkAcc3 0 0 0) in
      mkPoint3D "center"
        (ax sum / INR (length points))
        (ay sum / INR (length points))
        (az sum / INR (length points))
        None None
  end.

Definition get3DCentroid (points : list Point3D) : Point3D :=
  match points with
  | [] => mkPoint3D "temp_center" 0 0 0 None None
  | _ =>
      let count := INR (length points) in
      let sum :=
        fold_left
          (fun acc p => mkAcc3 (ax acc + x3 p) (ay acc + y3 p) (az acc + z3 p))
          points (mkAcc3 0 0 0) in
      mkPoint3D "temp_center" (ax sum / count) (ay sum / count) (az sum / count)
        None None
  end.

Definition get2DCentroid (points : list Point2D) : Point2D :=
  match points with
  | [] => {| x := 0; y := 0 |}
  | _ =>
      let sum :=
        fold_left (fun acc p => {| x := x acc + x p; y := y acc + y p |})
          points {| x := 0; y := 0 |} in
      {| x := x sum / INR (length points); y := y sum / INR (length points) |}
  end.

(** The body of the [forEach] over the neighbours: it updates the pair
    [(sumX, sumY)]. *)
Definition addNeighbor (currentPoint : Point2D) (sum : R * R) (nb : Point2D)
    : R * R :=
  let dx := x nb - x currentPoint in
  let dy := y nb - y currentPoint in
  let len := sqrt (dx * dx + dy * dy) in
  if Rgtb len 0 then (fst sum + dx / len, snd sum + dy / len) else sum.

Definition getSmartLabelDirection (currentPoint : Point2D)
    (neighborPoints : list Point2D) (geometryCenter : Point2D) : Point2D :=
  let dir :=
    if (0 <? length neighborPoints)%nat then
      let sum := fold_left (addNeighbor currentPoint) neighborPoints (0, 0) in
      (- fst sum, - snd sum)
    else
      (x currentPoint - x geometryCenter, y currentPoint - y geometryCenter) in
  let dirX := fst dir in
  let dirY := snd dir in
  let len := sqrt (dirX * dirX + dirY * dirY) in
  if Reqb len 0 then {| x := 0.707; y := -0.707 |}
  else {| x := dirX / len; y := dirY / len |}.

(** ** [src/components/Canvas.tsx]: the state of the component *)

Inductive ElementKind : Type := KPoint | KEdge | KFace | KLabel.

Record SelectedElement : Type := mkSelected {
  sel_id : string;
  sel_type : ElementKind
}.

Record Dimensions : Type := mkDimensions { width : R; height : R }.

(** The part of [containerRef.current.getBoundingClientRect()] the handlers
    read. *)
Record Rect : Type := mkRect { left : R; top : R }.

(** The [useState] cells and [useRef] cells of [Canvas], the [data] prop
    (the handlers are attached only when it is not [null]) and the
    container's bounding rectangle. *)
Record Canvas : Type := mkCanvas {

  scale : R;
  angleX : R;
  angleY : R;
  panOffset : Point2D;
  isAutoRotating : bool;
  dimensions : Dimensions;
  selectedElements : list SelectedElement;
  isDrawingMode : bool;
  isPanMode : bool;
  isSpacePanning : bool;
  isPanning : bool;
  draggingLabelId : option string;
  lastPointerPos : Point2D;
  pointersRef : list (Z * Point2D);
  prevPinchDistRef : option R;
  currentStroke : list Point2D;
  drawingColor : string;
  data : GeometryData;
  rect : Rect

}.

(** The setters: [setScale] and the like for state cells, assignments to
    [.current] for refs, and the owner's replacement of the document for
    [onDataUpdate]. *)

Definition setScale (v : R) (st : Canvas) : Canvas :=
  mkCanvas v (angleX st) (angleY st) (panOffset st) (isAutoRotating st)
    (dimensions st) (selectedElements st) (isDrawingMode st) (isPanMode st)
    (isSpacePanning st) (isPanning st) (draggingLabelId st)
    (lastPointerPos st) (pointersRef st) (prevPinchDistRef st)
    (currentStroke st) (drawingColor st) (data st) (rect st).

Definition setAngleX (v : R) (st : Canvas) : Canvas :=
  mkCanvas (scale st) v (angleY st) (panOffset st) (isAutoRotating st)
    (dimensions st) (selectedElements st) (isDrawingMode st) (isPanMode st)
    (isSpacePanning st) (isPanning st) (draggingLabelId st)
    (lastPointerPos st) (pointersRef st) (prevPinchDistRef st)
    (currentStroke st) (drawingColor st) (data st) (rect st).

Definition setAngleY (v : R) (st : Canvas) : Canvas :=
  mkCanvas (scale st) (angleX st) v (panOffset st) (isAutoRotating st)
    (dimensions st) (selectedElements st) (isDrawingMode st) (isPanMode st)
    (isSpacePanning st) (isPanning st) (draggingLabelId st)
    (lastPointerPos st) (pointersRef st) (prevPinchDistRef st)
    (currentStroke st) (drawingColor st) (data st) (rect st).

Definition setPanOffset (v : Point2D) (st : Canvas) : Canvas :=
  mkCanvas (scale st) (angleX st) (angleY st) v (isAutoRotating st)
    (dimensions st) (selectedElements st) (isDrawingMode st) (isPanMode st)
    (isSpacePanning st) (isPanning st) (draggingLabelId st)
    (lastPointerPos st) (pointersRef st) (prevPinchDistRef st)
    (currentStroke st) (drawingColor st) (data st) (rect st).

Definition setIsAutoRotating (v : bool) (st : Canvas) : Canvas :=
  mkCanvas (scale st) (angleX st) (angleY st) (panOffset st) v (dimensions st)
    (selectedElements st) (isDrawingMode st) (isPanMode st)
    (isSpacePanning st) (isPanning st) (draggingLabelId st)
    (lastPointerPos st) (pointersRef st) (prevPinchDistRef st)
    (currentStroke st) (drawingColor st) (data st) (rect st).

Definition setDimensions (v : Dimensions) (st : Canvas) : Canvas :=
  mkCanvas (scale st) (angleX st) (angleY st) (panOffset st)
    (isAutoRotating st) v (selectedElements st) (isDrawingMode st)
    (isPanMode st) (isSpacePanning st) (isPanning st) (draggingLabelId st)
    (lastPointerPos st) (pointersRef st) (prevPinchDistRef st)
    (currentStroke st) (drawingColor st) (data st) (rect st).

Definition setSelectedElements (v : list SelectedElement) (st : Canvas) : Canvas :=
  mkCanvas (scale st) (angleX st) (angleY st) (panOffset st)
    (isAutoRotating st) (dimensions st) v (isDrawingMode st) (isPanMode st)
    (isSpacePanning st) (isPanning st) (draggingLabelId st)
    (lastPointerPos st) (pointersRef st) (prevPinchDistRef st)
    (currentStroke st) (drawingColor st) (data st) (rect st).

Definition setIsDrawingMode (v : bool) (st : Canvas) : Canvas :=
  mkCanvas (scale st) (angleX st) (angleY st) (panOffset st)
    (isAutoRotating st) (dimensions st) (selectedElements st) v (isPanMode st)
    (isSpacePanning st) (isPanning st) (draggingLabelId st)
    (lastPointerPos st) (pointersRef st) (prevPinchDistRef st)
    (currentStroke st) (drawingColor st) (data st) (rect st).

Definition setIsPanMode (v : bool) (st : Canvas) : Canvas :=
  mkCanvas (scale st) (angleX st) (angleY st) (panOffset st)
    (isAutoRotating st) (dimensions st) (selectedElements st)
    (isDrawingMode st) v (isSpacePanning st) (isPanning st)
    (draggingLabelId st) (lastPointerPos st) (pointersRef st)
    (prevPinchDistRef st) (currentStroke st) (drawingColor st) (data st)
    (rect st).

Definition setIsSpacePanning (v : bool) (st : Canvas) : Canvas :=
  mkCanvas (scale st) (angleX st) (angleY st) (panOffset st)
    (isAutoRotating st) (dimensions st) (selectedElements st)
    (isDrawingMode st) (isPanMode st) v (isPanning st) (draggingLabelId st)
    (lastPointerPos st) (pointersRef st) (prevPinchDistRef st)
    (currentStroke st) (drawingColor st) (data st) (rect st).

Definition setIsPanning (v : bool) (st : Canvas) : Canvas :=
  mkCanvas (scale st) (angleX st) (angleY st) (panOffset st)
    (isAutoRotating st) (dimensions st) (selectedElements st)
    (isDrawingMode st) (isPanMode st) (isSpacePanning st) v
    (draggingLabelId st) (lastPointerPos st) (pointersRef st)
    (prevPinchDistRef st) (currentStroke st) (drawingColor st) (data st)
    (rect st).

Definition setDraggingLabelId (v : option string) (st : Canvas) : Canvas :=
  mkCanvas (scale st) (angleX st) (angleY st) (panOffset st)
    (isAutoRotating st) (dimensions st) (selectedElements st)
    (isDrawingMode st) (isPanMode st) (isSpacePanning st) (isPanning st) v
    (lastPointerPos st) (pointersRef st) (prevPinchDistRef st)
    (currentStroke st) (drawingColor st) (data st) (rect st).

Definition assign_lastPointerPos (v : Point2D) (st : Canvas) : Canvas :=
  mkCanvas (scale st) (angleX st) (angleY st) (panOffset st)
    (isAutoRotating st) (dimensions st) (selectedElements st)
    (isDrawingMode st) (isPanMode st) (isSpacePanning st) (isPanning st)
    (draggingLabelId st) v (pointersRef st) (prevPinchDistRef st)
    (currentStroke st) (drawingColor st) (data st) (rect st).

Definition assign_pointersRef (v : list (Z * Point2D)) (st : Canvas) : Canvas :=
  mkCanvas (scale st) (angleX st) (angleY st) (panOffset st)
    (isAutoRotating st) (dimensions st) (selectedElements st)
    (isDrawingMode st) (isPanMode st) (isSpacePanning st) (isPanning st)
    (draggingLabelId st) (lastPointerPos st) v (prevPinchDistRef st)
    (currentStroke st) (drawingColor st) (data st) (rect st).

Definition assign_prevPinchDistRef (v : option R) (st : Canvas) : Canvas :=
  mkCanvas (scale st) (angleX st) (angleY st) (panOffset st)
    (isAutoRotating st) (dimensions st) (selectedElements st)
    (isDrawingMode st) (isPanMode st) (isSpacePanning st) (isPanning st)
    (draggingLabelId st) (lastPointerPos st) (pointersRef st) v
    (currentStroke st) (drawingColor st) (data st) (rect st).

Definition setCurrentStroke (v : list Point2D) (st : Canvas) : Canvas :=
  mkCanvas (scale st) (angleX st) (angleY st) (panOffset st)
    (isAutoRotating st) (dimensions st) (selectedElements st)
    (isDrawingMode st) (isPanMode st) (isSpacePanning st) (isPanning st)
    (draggingLabelId st) (lastPointerPos st) (pointersRef st)
    (prevPinchDistRef st) v (drawingColor st) (data st) (rect st).

Definition setDrawingColor (v : string) (st : Canvas) : Canvas :=
  mkCanvas (scale st) (angleX st) (angleY st) (panOffset st)
    (isAutoRotating st) (dimensions st) (selectedElements st)
    (isDrawingMode st) (isPanMode st) (isSpacePanning st) (isPanning st)
    (draggingLabelId st) (lastPointerPos st) (pointersRef st)
    (prevPinchDistRef st) (currentStroke st) v (data st) (rect st).

Definition onDataUpdate (v : GeometryData) (st : Canvas) : Canvas :=
  mkCanvas (scale st) (angleX st) (angleY st) (panOffset st)
    (isAutoRotating st) (dimensions st) (selectedElements st)
    (isDrawingMode st) (isPanMode st) (isSpacePanning st) (isPanning st)
    (draggingLabelId st) (lastPointerPos st) (pointersRef st)
    (prevPinchDistRef st) (currentStroke st) (drawingColor st) v (rect st).

Definition assign_rect (v : Rect) (st : Canvas) : Canvas :=
  mkCanvas (scale st) (angleX st) (angleY st) (panOffset st)
    (isAutoRotating st) (dimensions st) (selectedElements st)
    (isDrawingMode st) (isPanMode st) (isSpacePanning st) (isPanning st)
    (draggingLabelId st) (lastPointerPos st) (pointersRef st)
    (prevPinchDistRef st) (currentStroke st) (drawingColor st) (data st) v.

(** The fields of a [React.PointerEvent] the handlers read. *)
Record PointerEvent : Type := mkPointerEvent {
  pointerId : Z;
  clientX : R;
  clientY : R;
  button : Z;
  altKey : bool
}.

(** *** The view defaults of [useState] and [resetView] *)

Definition resetView (st : Canvas) : Canvas :=
  let st := setPanOffset {| x := 0; y := 0 |} st in
  let st :=
    match gtype (data st) with
    | TwoD => setScale 25 (setAngleY 0 (setAngleX 0 st))
    | ThreeD => setScale 20 (setAngleY 45 (setAngleX 15 st))
    end in
  setIsPanMode false (setIsDrawingMode false (setSelectedElements [] st)).

Definition centerView (st : Canvas) : Canvas :=
  match points (data st) with
  | [] => st
  | _ =>
      let center3D := get3DCentroid (points (data st)) in
      let proj :=
        projectPoint center3D (angleX st) (angleY st) (scale st)
          (width (dimensions st)) (height (dimensions st)) in
      let targetScreenX := width (dimensions st) * 0.5 in
      let targetScreenY := height (dimensions st) * 0.5 in
      let deltaX := targetScreenX - x proj in
      let deltaY := targetScreenY - y proj in
      let st := setPanOffset {| x := deltaX; y := deltaY |} st in
      setScale (Math_min (scale st * 1.5) 60) st
  end.

(** *** Coordinate transformations (screen <-> world) *)

Definition toWorld (st : Canvas) (screenX screenY : R) : Point2D :=
  {| x := (screenX - width (dimensions st) / 2 - x (panOffset st)) / scale st;
     y := (screenY - height (dimensions st) / 2 - y (panOffset st)) / scale st |}.

Definition toScreen (st : Canvas) (worldX worldY : R) : Point2D :=
  {| x := worldX * scale st + width (dimensions st) / 2 + x (panOffset st);
     y := worldY * scale st + height (dimensions st) / 2 + y (panOffset st) |}.

(** *** The memoised maps [projectedPoints] and [labelPositions] *)

Definition StrMap : Type := list (string * Point2D).

Definition projectedPoints (st : Canvas) : StrMap :=
  fold_left
    (fun map p =>
       let pt :=
         projectPoint p (angleX st) (angleY st) (scale st)
           (width (dimensions st)) (height (dimensions st)) in
       map_set String.eqb map (id p)
         {| x := x pt + x (panOffset st); y := y pt + y (panOffset st) |})
    (points (data st)) [].

(** The inner [forEach] over the edges, collecting the projected
    neighbours of the point [pid]. *)
Definition collectNeighbors (pp : StrMap) (es : list Edge) (pid : string)
    : list Point2D :=
  fold_left
    (fun neighbors edge =>
       if String.eqb (edge_from edge) pid then
         match map_get String.eqb pp (edge_to edge) with
         | Some n => neighbors ++ [n]
         | None => neighbors
         end
       else if String.eqb (edge_to edge) pid then
         match map_get String.eqb pp (edge_from edge) with
         | Some n => neighbors ++ [n]
         | None => neighbors
         end
       else neighbors)
    es [].

(** The body of the outer [forEach] over the points. *)
Definition placeLabel (pp : StrMap) (es : list Edge) (projCenter : Point2D)
    (posMap : StrMap) (point : Point3D) : StrMap :=
  match map_get String.eqb pp (id point) with
  | None => posMap
  | Some pt =>
      match labelOffset point with
      | Some off =>
          map_set String.eqb posMap (id point)
            {| x := x pt + x off; y := y pt + y off |}
      | None =>
          let neighbors := collectNeighbors pp es (id point) in
          let direction := getSmartLabelDirection pt neighbors projCenter in
          let distance := 25 in
          map_set String.eqb posMap (id point)
            {| x := x pt + x direction * distance;
               y := y pt + y direction * distance |}
      end
  end.

Definition labelPositions (st : Canvas) : StrMap :=
  let pp := projectedPoints st in
  let projCenter := get2DCentroid (map_values pp) in
  fold_left (placeLabel pp (edges (data st)) projCenter) (points (data st)) [].

(** Where the renderer draws the label of [point]:
    [labelPositions.get(point.id) || pt], for a point that is projected. *)
Definition renderedLabelPos (st : Canvas) (point : Point3D) : option Point2D :=
  match map_get String.eqb (projectedPoints st) (id point) with
  | None => None
  | Some pt =>
      match map_get String.eqb (labelPositions st) (id point) with
      | Some labelPos => Some labelPos
      | None => Some pt
      end
  end.

(** *** Hit testing, the three loops of [handlePointerDown] *)

(** Loop A, the test of one point's label at the container coordinate
    [(cx, cy)]. *)
Definition labelHit (lp : StrMap) (cx cy : R) (p : Point3D) : bool :=
  match map_get String.eqb lp (id p) with
  | Some lblPos =>
      truthy (label p) &&
      (let w := 30 in
       let h := 20 in
       Rltb (Math_abs (x lblPos - cx)) w && Rltb (Math_abs (y lblPos - cy)) h)
  | None => false
  end.

(** Loop B, the test of one point. *)
Definition pointHit (pp : StrMap) (cx cy : R) (p : Point3D) : bool :=
  match map_get String.eqb pp (id p) with
  | Some pt =>
      let hitRadius := 24 in
      Rltb (Math_abs (x pt - cx)) hitRadius &&
      Rltb (Math_abs (y pt - cy)) hitRadius
  | None => false
  end.

(** The distance from [(cx, cy)] to the segment [p1 p2], with the
    projection parameter clamped to the segment. *)
Definition segmentDistance (p1 p2 : Point2D) (cx cy : R) : R :=
  let A := cx - x p1 in
  let B := cy - y p1 in
  let C := x p2 - x p1 in
  let D := y p2 - y p1 in
  let dot := A * C + B * D in
  let len_sq := C * C + D * D in
  let param := if negb (Reqb len_sq 0) then dot / len_sq else -1 in
  let xxyy :=
    if Rltb param 0 then (x p1, y p1)
    else if Rgtb param 1 then (x p2, y p2)
    else (x p1 + param * C, y p1 + param * D) in
  let dx := cx - fst xxyy in
  let dy := cy - snd xxyy in
  sqrt (dx * dx + dy * dy).

(** Loop C, the test of one edge. *)
Definition edgeHit (pp : StrMap) (cx cy : R) (edge : Edge) : bool :=
  match map_get String.eqb pp (edge_from edge),
        map_get String.eqb pp (edge_to edge) with
  | Some p1, Some p2 => Rltb (segmentDistance p1 p2 cx cy) 15
  | _, _ => false
  end.

(** A [for ... of] loop left at its first match. *)
Definition firstMatch {A : Type} (test : A -> bool) (key : A -> string)
    (l : list A) : option string :=
  option_map key (find test l).

(** The value of [clickedNodeId] after loops B and C: loop C runs when
    [!clickedNodeId], and overwrites it only on a match. *)
Definition clickedNode (pp : StrMap) (d : GeometryData) (cx cy : R)
    : option string :=
  let clickedNodeId := firstMatch (pointHit pp cx cy) id (points d) in
  if negb (truthy clickedNodeId) then
    match firstMatch (edgeHit pp cx cy) edge_id (edges d) with
    | Some eid => Some eid
    | None => clickedNodeId
    end
  else clickedNodeId.

Inductive HitTarget : Type :=
| HitLabel (pid : string)
| HitNode (clickedNodeId : string)
| HitNothing.

(** The resolution of a pointer-down at [(cx, cy)]: a label returns at
    once; otherwise a truthy [clickedNodeId] is the target. *)
Definition hitTest (st : Canvas) (cx cy : R) : HitTarget :=
  match firstMatch (labelHit (labelPositions st) cx cy) id (points (data st)) with
  | Some pid => HitLabel pid
  | None =>
      match clickedNode (projectedPoints st) (data st) cx cy with
      | Some nid => if truthy_string nid then HitNode nid else HitNothing
      | None => HitNothing
      end
  end.

Definition isSelected (st : Canvas) (i : string) : bool :=
  existsb (fun e => String.eqb (sel_id e) i) (selectedElements st).

(** *** The pointer handlers *)

(** The tool-mode dispatch at the end of [handlePointerDown]; [st] already
    holds the new pointer. *)
Definition pointerDownDispatch (st : Canvas) (e : PointerEvent) (cx cy : R)
    : Canvas :=
  let isPanAction :=
    isSpacePanning st || altKey e || (map_size (pointersRef st) =? 2)%nat in
  match map_values (pointersRef st) with
  | [p0; p1] =>
      assign_prevPinchDistRef
        (Some (Math_hypot (x p0 - x p1) (y p0 - y p1)))
        (setIsPanning true st)
  | _ =>
      if isDrawingMode st && negb isPanAction then
        let worldPos := toWorld st cx cy in
        setCurrentStroke [worldPos] st
      else if isPanAction then setIsPanning true st
      else st
  end.

Definition handlePointerDown (st : Canvas) (e : PointerEvent) : Canvas :=
  let st :=
    assign_pointersRef
      (map_set Z.eqb (pointersRef st) (pointerId e)
         {| x := clientX e; y := clientY e |}) st in
  if (button e =? 1)%Z || ((button e =? 0)%Z && isPanMode st) then
    assign_lastPointerPos {| x := clientX e; y := clientY e |}
      (setIsPanning true st)
  else
    let cx := clientX e - left (rect st) in
    let cy := clientY e - top (rect st) in
    let st := assign_lastPointerPos {| x := clientX e; y := clientY e |} st in
    if negb (isDrawingMode st) && negb (isPanMode st) &&
       negb (isSpacePanning st) && (map_size (pointersRef st) =? 1)%nat
    then
      match hitTest st cx cy with
      | HitLabel pid => setDraggingLabelId (Some pid) st
      | HitNode clickedNodeId =>
          if isSelected st clickedNodeId then setSelectedElements [] st
          else
            setSelectedElements
              [mkSelected clickedNodeId
                 (if includes clickedNodeId "edge" then KEdge else KPoint)] st
      | HitNothing => pointerDownDispatch (setSelectedElements [] st) e cx cy
      end
    else pointerDownDispatch st e cx cy.

(** The label-drag branch of [handlePointerMove]: the new offset of the
    dragged point is written into the document.  [newPoints] is a fresh
    array, so the render that follows finds [data.points] changed and React
    runs the effect [useEffect(() => { resetView(); }, [data?.type,
    data?.points])]: every frame of a label drag also resets the view.
    ([centerView], which [resetView] defers by a timer, is the event
    [CenterView] below.) *)
Definition dragLabel (st : Canvas) (pid : string) (dx dy : R) : Canvas :=
  match find (fun p => String.eqb (id p) pid) (points (data st)),
        map_get String.eqb (projectedPoints st) pid with
  | Some _, Some ptProj =>
      let currentLabelPos :=
        match map_get String.eqb (labelPositions st) pid with
        | Some lp => lp
        | None => ptProj
        end in
      let newX := x currentLabelPos + dx in
      let newY := y currentLabelPos + dy in
      let offsetX := newX - x ptProj in
      let offsetY := newY - y ptProj in
      let newPoints :=
        map (fun p =>
               if String.eqb (id p) pid then
                 mkPoint3D (id p) (x3 p) (y3 p) (z3 p) (label p)
                   (Some {| x := offsetX; y := offsetY |})
               else p)
          (points (data st)) in
      resetView
        (onDataUpdate
           (mkGeometryData newPoints (edges (data st)) (drawings (data st))
              (gtype (data st))) st)
  | _, _ => st
  end.

Definition handlePointerMove (st : Canvas) (e : PointerEvent) : Canvas :=
  let st :=
    if map_has Z.eqb (pointersRef st) (pointerId e) then
      assign_pointersRef
        (map_set Z.eqb (pointersRef st) (pointerId e)
           {| x := clientX e; y := clientY e |}) st
    else st in
  let dx := clientX e - x (lastPointerPos st) in
  let dy := clientY e - y (lastPointerPos st) in
  let st := assign_lastPointerPos {| x := clientX e; y := clientY e |} st in
  match map_values (pointersRef st) with
  | [p0; p1] =>
      let dist := Math_hypot (x p0 - x p1) (y p0 - y p1) in
      let st :=
        match prevPinchDistRef st with
        | Some prev =>
            let delta := dist - prev in
            let newScale :=
              Math_min (Math_max 5 (scale st * (1 + delta * 0.01))) 200 in
            setScale newScale st
        | None => st
        end in
      let st := assign_prevPinchDistRef (Some dist) st in
      setPanOffset
        {| x := x (panOffset st) + dx * 0.5;
           y := y (panOffset st) + dy * 0.5 |} st
  | _ =>
      if truthy (draggingLabelId st) then
        match draggingLabelId st with
        | Some pid => dragLabel st pid dx dy
        | None => st
        end
      else if isDrawingMode st && negb (isPanning st) &&
              (0 <? length (currentStroke st))%nat then
        let mouseX := clientX e - left (rect st) in
        let mouseY := clientY e - top (rect st) in
        let worldPos := toWorld st mouseX mouseY in
        setCurrentStroke (currentStroke st ++ [worldPos]) st
      else if isPanning st then
        setPanOffset
          {| x := x (panOffset st) + dx; y := y (panOffset st) + dy |} st
      else st
  end.

(** [now] is [Date.now().toString()], the id given to a finalised stroke. *)
Definition handlePointerUp (st : Canvas) (e : PointerEvent) (now : string)
    : Canvas :=
  let isDrawing := isDrawingMode st && (0 <? length (currentStroke st))%nat in
  let stroke := currentStroke st in
  let st :=
    assign_pointersRef (map_delete Z.eqb (pointersRef st) (pointerId e)) st in
  let st :=
    if (map_size (pointersRef st) <? 2)%nat
    then assign_prevPinchDistRef None st else st in
  let st :=
    if (map_size (pointersRef st) =? 0)%nat
    then setIsPanning false st else st in
  let st := setDraggingLabelId None st in
  if isDrawing then
    let newStroke := mkStroke now stroke (drawingColor st) 3 in
    let st :=
      onDataUpdate
        (mkGeometryData (points (data st)) (edges (data st))
           (Some (match drawings (data st) with
                  | Some ds => ds
                  | None => []
                  end ++ [newStroke]))
           (gtype (data st))) st in
    setCurrentStroke [] st
  else st.

(** *** Wheel, toolbar buttons, keyboard *)

Definition onWheel (st : Canvas) (deltaY : R) : Canvas :=
  if negb (isDrawingMode st) then
    setScale (Math_min (Math_max 5 (scale st * (1 - deltaY * 0.002))) 200) st
  else st.

Definition zoomInButton (st : Canvas) : Canvas :=
  setScale (scale st * 1.2) st.

Definition zoomOutButton (st : Canvas) : Canvas :=
  setScale (scale st / 1.2) st.

Definition autoRotateButton (st : Canvas) : Canvas :=
  setIsAutoRotating (negb (isAutoRotating st)) st.

Definition panModeButton (st : Canvas) : Canvas :=
  let newState := negb (isPanMode st) in
  let st := setIsPanMode newState st in
  if newState then setIsDrawingMode false st else st.

Definition drawModeButton (st : Canvas) : Canvas :=
  let newState := negb (isDrawingMode st) in
  let st := setIsDrawingMode newState st in
  if newState then setIsPanMode false st else st.

(** [keydown] and [keyup] of the space bar ([repeat] is [e.repeat]). *)
Definition handleKeyDownSpace (st : Canvas) (repeat : bool) : Canvas :=
  if negb repeat && negb (isDrawingMode st)
  then setIsSpacePanning true st else st.

Definition handleKeyUpSpace (st : Canvas) : Canvas :=
  setIsPanning false (setIsSpacePanning false st).

(** *** The auto-rotation loop *)

(** [Math.trunc], and the remainder operator [%] on numbers: the result
    has the sign of the dividend. *)
Definition js_trunc (r : R) : Z :=
  if Rle_dec 0 r then Int_part r else (- Int_part (- r))%Z.

Definition js_rem (a n : R) : R := a - n * IZR (js_trunc (a / n)).

(** The condition under which the effect installs the interval timer. *)
Definition autoRotationActive (st : Canvas) : bool :=
  isAutoRotating st &&
  match gtype (data st) with ThreeD => true | TwoD => false end &&
  negb (isDrawingMode st) && negb (isPanning st) &&
  negb (truthy (draggingLabelId st)).

(** One period (50 ms) of the timer: the callback
    [setAngleY(prev => (prev + 1) % 360)] runs exactly when the timer is
    installed. *)
Definition autoRotateTick (st : Canvas) : Canvas :=
  if autoRotationActive st then setAngleY (js_rem (angleY st + 1) 360) st
  else st.

(** *** The component as a transition system *)

(** The state at mount: the [useState] and [useRef] initial values, for a
    document [d], a container of size [dim] placed at [r]. *)
Definition initialCanvas (d : GeometryData) (dim : Dimensions) (r : Rect)
    : Canvas :=
  {| scale := 25; angleX := 15; angleY := 30;
     panOffset := {| x := 0; y := 0 |};
     isAutoRotating := false;
     dimensions := dim;
     selectedElements := [];
     isDrawingMode := false; isPanMode := false;
     isSpacePanning := false; isPanning := false;
     draggingLabelId := None;
     lastPointerPos := {| x := 0; y := 0 |};
     pointersRef := [];
     prevPinchDistRef := None;
     currentStroke := [];
     drawingColor := "#ef4444";
     data := d;
     rect := r |}.

(** [onPointerLeave] and [onPointerCancel] run [handlePointerUp] too. *)
Inductive Event : Type :=
| PointerDown (e : PointerEvent)
| PointerMove (e : PointerEvent)
| PointerUp (e : PointerEvent) (now : string)
| Wheel (deltaY : R)
| ZoomIn
| ZoomOut
| ToggleAutoRotate
| TogglePanMode
| ToggleDrawMode
| KeyDownSpace (repeat : bool)
| KeyUpSpace
| TimerTick
| ResetView
| CenterView.

Definition step (st : Canvas) (ev : Event) : Canvas :=
  match ev with
  | PointerDown e => handlePointerDown st e
  | PointerMove e => handlePointerMove st e
  | PointerUp e now => handlePointerUp st e now
  | Wheel deltaY => onWheel st deltaY
  | ZoomIn => zoomInButton st
  | ZoomOut => zoomOutButton st
  | ToggleAutoRotate => autoRotateButton st
  | TogglePanMode => panModeButton st
  | ToggleDrawMode => drawModeButton st
  | KeyDownSpace repeat => handleKeyDownSpace st repeat
  | KeyUpSpace => handleKeyUpSpace st
  | TimerTick => autoRotateTick st
  | ResetView => resetView st
  | CenterView => centerView st
  end.

Definition run (st : Canvas) (evs : list Event) : Canvas :=
  fold_left step evs st.

(** ** The specification's own words, for comparison with the code *)

(** *** Projection (section 4.1) *)

Record Vec3 : Type := mkVec3 { vx : R; vy : R; vz : R }.

Definition radians (deg : R) : R := deg * PI / 180.

(** Rotation about the vertical (Y) axis: the height [vy] is kept. *)
Definition rotateAboutVertical (a : R) (v : Vec3) : Vec3 :=
  {| vx := vx v * cos a - vz v * sin a;
     vy := vy v;
     vz := vx v * sin a + vz v * cos a |}.

(** Rotation about the horizontal (X) axis: the abscissa [vx] is kept. *)
Definition rotateAboutHorizontal (a : R) (v : Vec3) : Vec3 :=
  {| vx := vx v;
     vy := vy v * cos a - vz v * sin a;
     vz := vy v * sin a + vz v * cos a |}.

(** Orthographic drop, scale, centre, flip. *)
Definition orthographicToScreen (v : Vec3) (s w h : R) : Point2D :=
  {| x := vx v * s + w / 2; y := - (vy v * s) + h / 2 |}.

Definition project_spec (p : Point3D) (angleX angleY s w h : R) : Point2D :=
  orthographicToScreen
    (rotateAboutHorizontal (radians angleX)
       (rotateAboutVertical (radians angleY)
          {| vx := x3 p; vy := y3 p; vz := z3 p |}))
    s w h.

(** *** Label direction (section 4.2) *)

Definition vecLength (v : R * R) : R := sqrt (fst v * fst v + snd v * snd v).

(** The unit vector from [p] to [q]; coincident points contribute
    nothing. *)
Definition unitVectorTo (p q : Point2D) : R * R :=
  let d := (x q - x p, y q - y p) in
  if Rgtb (vecLength d) 0 then (fst d / vecLength d, snd d / vecLength d)
  else (0, 0).

Fixpoint vecSum (l : list (R * R)) : R * R :=
  match l with
  | [] => (0, 0)
  | v :: r => (fst v + fst (vecSum r), snd v + snd (vecSum r))
  end.

Definition fallbackDirection : Point2D := {| x := 0.707; y := -0.707 |}.

Definition normalizeOrFallback (v : R * R) : Point2D :=
  if Reqb (vecLength v) 0 then fallbackDirection
  else {| x := fst v / vecLength v; y := snd v / vecLength v |}.

Definition smartDirection_spec (p : Point2D) (nbs : list Point2D)
    (centroid : Point2D) : Point2D :=
  match nbs with
  | [] => normalizeOrFallback (x p - x centroid, y p - y centroid)
  | _ =>
      let s := vecSum (map (unitVectorTo p) nbs) in
      normalizeOrFallback (- fst s, - snd s)
  end.

(** *** Hit regions (section 4.4) *)

(** The label bounding box: a fixed rectangle of 60 by 40 pixels around
    the label anchor. *)
Definition inLabelBox (anchor : Point2D) (cx cy : R) : Prop :=
  Rabs (x anchor - cx) < 30 /\ Rabs (y anchor - cy) < 20.

(** The disc of radius [r] around a projected point. *)
Definition inDisc (r : R) (centre : Point2D) (cx cy : R) : Prop :=
  sqrt ((x centre - cx) * (x centre - cx) + (y centre - cy) * (y centre - cy))
  < r.

(** The axis-aligned square of side 48 pixels around a projected point. *)
Definition inPointSquare (centre : Point2D) (cx cy : R) : Prop :=
  Rabs (x centre - cx) < 24 /\ Rabs (y centre - cy) < 24.

(** The point of the segment from [p1] to [p2] at parameter [t]. *)
Definition segmentAt (p1 p2 : Point2D) (t : R) : Point2D :=
  {| x := x p1 + t * (x p2 - x p1); y := y p1 + t * (y p2 - y p1) |}.

(** Point-to-segment distance with clamped projection parameter: the
    parameter of the orthogonal projection of [(cx, cy)] on the line
    through [p1] and [p2], clamped to [0, 1] (a segment reduced to one
    point has that point only). *)
Definition clampedParameter (p1 p2 : Point2D) (cx cy : R) : R :=
  let C := x p2 - x p1 in
  let D := y p2 - y p1 in
  if Reqb (C * C + D * D) 0 then 0
  else Rmax 0 (Rmin 1 (((cx - x p1) * C + (cy - y p1) * D) / (C * C + D * D))).

Definition pointToSegmentDistance (p1 p2 : Point2D) (cx cy : R) : R :=
  let q := segmentAt p1 p2 (clampedParameter p1 p2 cx cy) in
  sqrt ((cx - x q) * (cx - x q) + (cy - y q) * (cy - y q)).

(** The three kinds of target under the container coordinate [(cx, cy)],
    over the label anchors and the projected points of the state. *)
Definition labelCovers (st : Canvas) (cx cy : R) (p : Point3D) : Prop :=
  exists anchor,
    map_get String.eqb (labelPositions st) (id p) = Some anchor /\
    truthy (label p) = true /\ inLabelBox anchor cx cy.

Definition pointCovers (st : Canvas) (cx cy : R) (p : Point3D) : Prop :=
  exists pt,
    map_get String.eqb (projectedPoints st) (id p) = Some pt /\
    inPointSquare pt cx cy.

Definition edgeCovers (st : Canvas) (cx cy : R) (e : Edge) : Prop :=
  exists p1 p2,
    map_get String.eqb (projectedPoints st) (edge_from e) = Some p1 /\
    map_get String.eqb (projectedPoints st) (edge_to e) = Some p2 /\
    pointToSegmentDistance p1 p2 cx cy < 15.

(** The first element of [l] that satisfies [covers], with the elements
    declared before it. *)
Definition firstCovered {A : Type} (covers : A -> Prop) (l : list A) (q : A)
    : Prop :=
  exists before after,
    l = before ++ q :: after /\
    (forall b, In b before -> ~ covers b) /\ covers q.

(** *** Arithmetic mean (section 4.2) *)

Fixpoint Rsum (l : list R) : R :=
  match l with
  | [] => 0
  | a :: r => a + Rsum r
  end.

Definition mean (l : list R) : R := Rsum l / INR (length l).

(** *** Derived notions used in the statements *)

(** The projected position of a point on screen: [projectPoint] followed
    by the pan offset, the value [projectedPoints] stores for it. *)
Definition projectedPosition (st : Canvas) (p : Point3D) : Point2D :=
  let pt :=
    projectPoint p (angleX st) (angleY st) (scale st)
      (width (dimensions st)) (height (dimensions st)) in
  {| x := x pt + x (panOffset st); y := y pt + y (panOffset st) |}.


(** The container coordinate of a pointer event, in world space: what
    [handlePointerDown] and [handlePointerMove] record in a stroke. *)
Definition worldOf (st : Canvas) (e : PointerEvent) : Point2D :=
  toWorld st (clientX e - left (rect st)) (clientY e - top (rect st)).

(** A primary-button pointer event of pointer [pid] whose container
    coordinate is the screen image of the world position [w]. *)
Definition pointerAtWorld (st : Canvas) (pid : Z) (w : Point2D)
    : PointerEvent :=
  {| pointerId := pid;
     clientX := x (toScreen st (x w) (y w)) + left (rect st);
     clientY := y (toScreen st (x w) (y w)) + top (rect st);
     button := 0;
     altKey := false |}.

(** The strokes of the document: [data.drawings || []]. *)
Definition finalizedStrokes (st : Canvas) : list FreehandStroke :=
  match drawings (data st) with Some ds => ds | None => [] end.

(** Pointer-down, some pointer-moves, pointer-up. *)
Definition strokeGesture (down : PointerEvent) (moves : list PointerEvent)
    (up : PointerEvent) (now : string) : list Event :=
  PointerDown down :: map PointerMove moves ++ [PointerUp up now].

(** The two active pointers of a pinch and their distance. *)
Definition interPointerDistance (st : Canvas) : option R :=
  match map_values (pointersRef st) with
  | [p0; p1] => Some (Math_hypot (x p0 - x p1) (y p0 - y p1))
  | _ => None
  end.

Definition pointerMidpoint (st : Canvas) : option Point2D :=
  match map_values (pointersRef st) with
  | [p0; p1] => Some {| x := (x p0 + x p1) / 2; y := (y p0 + y p1) / 2 |}
  | _ => None
  end.

Definition clampScale (s : R) : R := Math_min (Math_max 5 s) 200.

(** ** Sample documents and views *)

(** The triangle A(0,0,0), B(3,0,0), C(0,4,0) with the edges A-B and A-C;
    A and B carry a label and a manual label offset. *)
Definition pointA : Point3D :=
  mkPoint3D "A" 0 0 0 (Some "A") (Some {| x := 10; y := -5 |}).
Definition pointB : Point3D :=
  mkPoint3D "B" 3 0 0 (Some "B") (Some {| x := 0; y := -30 |}).
Definition pointC : Point3D := mkPoint3D "C" 0 4 0 None None.

Definition triangleDocument : GeometryData :=
  {| points := [pointA; pointB; pointC];
     edges := [mkEdge "edge_AB" "A" "B"; mkEdge "edge_AC" "A" "C"];
     drawings := None;
     gtype := TwoD |}.

Definition solidDocument : GeometryData :=
  {| points := [pointA; pointB; pointC];
     edges := [mkEdge "edge_AB" "A" "B"; mkEdge "edge_AC" "A" "C"];
     drawings := None;
     gtype := ThreeD |}.

(** An 800 x 600 container at the origin of the page, after the reset
    that follows mounting. *)
Definition flatCanvas : Canvas :=
  resetView (initialCanvas triangleDocument (mkDimensions 800 600) (mkRect 0 0)).


(** The same view with the draw tool switched on. *)
Definition drawCanvas : Canvas := drawModeButton flatCanvas.


Definition primaryAt (pid : Z) (cx cy : R) : PointerEvent :=
  {| pointerId := pid; clientX := cx; clientY := cy; button := 0;
     altKey := false |}.

(** The scenario of the specification: in draw mode, down at the screen
    image (400, 300) of the world origin, moves at the images of (0,0),
    (1,1), (2,0), then up. *)
Definition threeMoveGesture : list Event :=
  strokeGesture (primaryAt 1 400 300)
    [primaryAt 1 400 300; primaryAt 1 425 325; primaryAt 1 450 300]
    (primaryAt 1 450 300) "1700000000000".

(** A tap: down and up at the same place, no move in between. *)
Definition tapGesture : list Event :=
  strokeGesture (primaryAt 1 400 300) [] (primaryAt 1 400 300) "1700000000000".

(** Two fingers put down with the pan tool on, then the second one moved
    away by 100 pixels. *)
Definition panToolTwoFingers : Canvas :=
  run flatCanvas
    [TogglePanMode; PointerDown (primaryAt 1 0 0);
     PointerDown (primaryAt 2 100 0)].

Definition secondFingerMove : PointerEvent := primaryAt 2 200 0.

(** Two fingers put down with no tool on, away from every element. *)
Definition pinchStarted : Canvas :=
  run flatCanvas
    [PointerDown (primaryAt 1 100 500); PointerDown (primaryAt 2 200 500)].

(** ** Invariants of gestures *)

(** A stroke is being drawn with one pointer down: the state [st] differs
    from the state [st0] at pointer-down only in the pointer records and in
    the stroke [pts] gathered so far. *)
Definition drawingInProgress (st0 st : Canvas) (pts : list Point2D) : Prop :=
  isDrawingMode st = true /\ isPanning st = false /\
  draggingLabelId st = None /\
  (exists k v, pointersRef st = [(k, v)]) /\
  currentStroke st = pts /\ pts <> [] /\
  scale st = scale st0 /\ dimensions st = dimensions st0 /\
  panOffset st = panOffset st0 /\ rect st = rect st0 /\
  data st = data st0 /\ drawingColor st = drawingColor st0.

(** The active pointers once [handlePointerMove] has recorded the new
    position of the moving one. *)
Definition pointersAfterMove (st : Canvas) (e : PointerEvent)
    : list (Z * Point2D) :=
  if map_has Z.eqb (pointersRef st) (pointerId e) then
    map_set Z.eqb (pointersRef st) (pointerId e)
      {| x := clientX e; y := clientY e |}
  else pointersRef st.

(** ** The specification's sentence on two-pointer moves, as written *)

(** "The view scale is multiplied by a factor proportional to the change
    in inter-pointer distance (clamped overall to [5, 200])": some fixed
    rate [k] turns the change of distance of every two-pointer move into
    the factor [1 + k * change]. *)
Definition pinchScaleAsWritten : Prop :=
  exists k : R,
    forall (st : Canvas) (e : PointerEvent) (d d' : R),
      interPointerDistance st = Some d ->
      interPointerDistance (handlePointerMove st e) = Some d' ->
      scale (handlePointerMove st e)
      = clampScale (scale st * (1 + k * (d' - d))).

(** "The pan offset is translated by half of the raw pointer-midpoint
    delta for that move": some fixed fraction [c] of the displacement of
    the midpoint of the two pointers is added to the pan offset. *)
Definition pinchPanAsWritten : Prop :=
  exists c : R,
    forall (st : Canvas) (e : PointerEvent) (m m' : Point2D),
      pointerMidpoint st = Some m ->
      pointerMidpoint (handlePointerMove st e) = Some m' ->
      panOffset (handlePointerMove st e)
      = {| x := x (panOffset st) + c * (x m' - x m);
           y := y (panOffset st) + c * (y m' - y m) |}.

(** The state after that first two-finger move, and the next moves: the
    second finger 100 pixels further, or the first finger by one pixel. *)
Definition afterFirstTwoFingerMove : Canvas :=
  handlePointerMove panToolTwoFingers secondFingerMove.

Definition secondFingerMoveAgain : PointerEvent := primaryAt 2 300 0.

Definition firstFingerMove : PointerEvent := primaryAt 1 1 0.

(** ** Further functions of [geometryUtils.ts] and [Canvas.tsx] *)

(** [getLabelPosition], the legacy placement; [offset] defaults to 20. *)
Definition getLabelPosition (point center : Point2D) (offset : R) : Point2D :=
  let dx := x point - x center in
  let dy := y point - y center in
  let length := sqrt (dx * dx + dy * dy) in
  if Reqb length 0 then {| x := x point + offset; y := y point - offset |}
  else
    {| x := x point + (dx / length) * offset;
       y := y point + (dy / length) * offset |}.

Definition getLabelPosition_default (point center : Point2D) : Point2D :=
  getLabelPosition point center 20.

(** [getPointOnVector]; [rnd] is the text of [Math.random()] that ends the
    id of the point it builds. *)
Definition getPointOnVector (start end_ : Point3D) (distance : R)
    (rnd : string) : Point3D :=
  let dx := x3 end_ - x3 start in
  let dy := y3 end_ - y3 start in
  let dz := z3 end_ - z3 start in
  let length := sqrt (dx * dx + dy * dy + dz * dz) in
  if Reqb length 0 then start
  else
    let ratio := distance / length in
    mkPoint3D (String.append "temp_" rnd)
      (x3 start + dx * ratio) (y3 start + dy * ratio) (z3 start + dz * ratio)
      None None.

(** The size of an angle marker and its two arm points, as the renderer
    computes them from the vertex [center] and the arm points [p1], [p2]. *)
Definition armLength (center p : Point3D) : R :=
  sqrt ((x3 p - x3 center) ^ 2 + (y3 p - y3 center) ^ 2
        + (z3 p - z3 center) ^ 2).

Definition markerSize (center p1 p2 : Point3D) : R :=
  let dist1 := armLength center p1 in
  let dist2 := armLength center p2 in
  Math_min (Math_min 0.4 (dist1 * 0.25)) (dist2 * 0.25).

Definition markerArmPoint (center p1 p2 arm : Point3D) (rnd : string)
    : Point3D :=
  getPointOnVector center arm (markerSize center p1 p2) rnd.

(** The eraser button: [onDataUpdate({...data, drawings: []})]. *)
Definition eraserButton (st : Canvas) : Canvas :=
  onDataUpdate
    (mkGeometryData (points (data st)) (edges (data st)) (Some [])
       (gtype (data st))) st.

(** ** Notions used in the further properties *)

Definition distance2D (a b : Point2D) : R :=
  Math_hypot (x a - x b) (y a - y b).

Definition distance3D (a b : Point3D) : R :=
  sqrt ((x3 a - x3 b) * (x3 a - x3 b) + (y3 a - y3 b) * (y3 a - y3 b)
        + (z3 a - z3 b) * (z3 a - z3 b)).

(** The point of the segment [p1 p2] at parameter [t]. *)
Definition segmentPoint (p1 p2 : Point2D) (t : R) : Point2D :=
  {| x := x p1 + t * (x p2 - x p1); y := y p1 + t * (y p2 - y p1) |}.

Definition isZoomButton (ev : Event) : bool :=
  match ev with ZoomIn | ZoomOut => true | _ => false end.

(** The position of a pointer event on the page. *)
Definition clientPos (e : PointerEvent) : Point2D :=
  {| x := clientX e; y := clientY e |}.

(** ** Invariants of the component *)

(** The draw tool and the pan tool are never on together. *)
Definition toolsExclusive (st : Canvas) : Prop :=
  isDrawingMode st && isPanMode st = false.

(** At most one element is selected. *)
Definition singleSelection (st : Canvas) : Prop :=
  (length (selectedElements st) <= 1)%nat.

(** A pinch distance is recorded only while at least two pointers are
    down. *)
Definition pinchSeeded (st : Canvas) : Prop :=
  prevPinchDistRef st <> None -> (2 <= map_size (pointersRef st))%nat.

(** No pointer id is recorded twice. *)
Definition pointerIdsUnique (st : Canvas) : Prop :=
  NoDup (map fst (pointersRef st)).

(** What the canvas never edits in a document: the ids, coordinates and
    labels of the points, the edges and the 2D/3D flag. *)
Definition figureOf (d : GeometryData)
    : list (string * R * R * R * option string) * list Edge * DocType :=
  (map (fun p => (id p, x3 p, y3 p, z3 p, label p)) (points d),
   edges d, gtype d).

(** ** Further sample states *)

(** The flat view while the label of A is being dragged by pointer 1. *)
Definition labelDragCanvas : Canvas :=
  setDraggingLabelId (Some "A")
    (assign_lastPointerPos {| x := 400; y := 300 |}
       (assign_pointersRef [(1%Z, {| x := 400; y := 300 |})] flatCanvas)).

(** A pan with one pointer is in progress: since the pointer went down at
    [start], the pan offset has moved from that of [st0] by the
    displacement of the pointer, now at [lastPointerPos]. *)
Definition panInProgress (st0 : Canvas) (start : Point2D) (st : Canvas)
    : Prop :=
  isPanning st = true /\ draggingLabelId st = None /\
  (exists k v, pointersRef st = [(k, v)]) /\
  x (panOffset st) = x (panOffset st0) + (x (lastPointerPos st) - x start) /\
  y (panOffset st) = y (panOffset st0) + (y (lastPointerPos st) - y start).

(** The flat view with the pan tool on. *)
Definition panToolCanvas : Canvas := panModeButton flatCanvas.

(** A 2D document made of one unlabelled point at the origin, in the
    800 x 600 container after the reset that follows mounting. *)
Definition dotDocument : GeometryData :=
  {| points := [mkPoint3D "P" 0 0 0 None None];
     edges := [];
     drawings := None;
     gtype := TwoD |}.

Definition dotCanvas : Canvas :=
  resetView (initialCanvas dotDocument (mkDimensions 800 600) (mkRect 0 0)).

(** A click: pointer-down and pointer-up of one pointer at one place. *)
Definition click (e : PointerEvent) (now : string) : list Event :=
  [PointerDown e; PointerUp e now].

(** [centerView] as the timer of [resetView] runs it: the document, the
    angles, the scale and the dimensions it reads are those of the render
    [seen] in which it was created, while [setScale(s => ...)] acts on the
    current state [st].  Run on the current render it is [centerView]. *)
Definition centerViewFrom (seen st : Canvas) : Canvas :=
  match points (data seen) with
  | [] => st
  | _ =>
      let center3D := get3DCentroid (points (data seen)) in
      let proj :=
        projectPoint center3D (angleX seen) (angleY seen) (scale seen)
          (width (dimensions seen)) (height (dimensions seen)) in
      let targetScreenX := width (dimensions seen) * 0.5 in
      let targetScreenY := height (dimensions seen) * 0.5 in
      let deltaX := targetScreenX - x proj in
      let deltaY := targetScreenY - y proj in
      let st := setPanOffset {| x := deltaX; y := deltaY |} st in
      setScale (Math_min (scale st * 1.5) 60) st
  end.

(** ** The owner of the document: the projects of [App] *)

Inductive Role : Type := RoleUser | RoleModel.

Record ChatMessage : Type := mkChatMessage {
  msg_id : string;
  msg_role : Role;
  msg_text : string;
  msg_timestamp : R;
  msg_image : option string
}.

Record Project : Type := mkProject {
  project_id : string;
  project_name : string;
  project_subjectId : option string;
  project_geometryData : option GeometryData;
  project_currentStepIndex : R;
  project_messages : list ChatMessage;
  project_lastModified : R
}.

(** The state cells of [App] that the project functions read and write. *)
Record App : Type := mkApp {
  projects : list Project;
  currentProjectId : option string;
  isSidebarOpen : bool
}.

(** [p.id === currentProjectId]; no id equals [null]. *)
Definition isCurrent (app : App) (p : Project) : bool :=
  match currentProjectId app with
  | Some c => String.eqb (project_id p) c
  | None => false
  end.

Definition activeProject (app : App) : option Project :=
  find (isCurrent app) (projects app).

(** [activeProject?.geometryData || null], the [data] prop of the canvas. *)
Definition geometryData (app : App) : option GeometryData :=
  match activeProject app with
  | Some p => project_geometryData p
  | None => None
  end.

(** A [Partial<Project>] as [updateActiveProject] receives it: a key that
    is absent is [None]. *)
Record ProjectUpdates : Type := mkUpdates {
  upd_messages : option (list ChatMessage);
  upd_geometryData : option GeometryData;
  upd_currentStepIndex : option R
}.

(** [{ ...p, ...updates, lastModified: Date.now() }]. *)
Definition applyUpdates (p : Project) (updates : ProjectUpdates) (now : R)
    : Project :=
  mkProject (project_id p) (project_name p) (project_subjectId p)
    (match upd_geometryData updates with
     | Some d => Some d
     | None => project_geometryData p
     end)
    (match upd_currentStepIndex updates with
     | Some i => i
     | None => project_currentStepIndex p
     end)
    (match upd_messages updates with
     | Some ms => ms
     | None => project_messages p
     end)
    now.

Definition updateActiveProject (app : App) (updates : ProjectUpdates)
    (now : R) : App :=
  mkApp
    (map (fun p => if isCurrent app p then applyUpdates p updates now else p)
       (projects app))
    (currentProjectId app) (isSidebarOpen app).

(** The [onDataUpdate] prop handed to the canvas. *)
Definition appOnDataUpdate (app : App) (newData : GeometryData) (now : R)
    : App :=
  updateActiveProject app (mkUpdates None (Some newData) None) now.

(** [DEFAULT_WELCOME_MSG] with its timestamp replaced. *)
Definition welcomeMessage (timestamp : R) : ChatMessage :=
  mkChatMessage "welcome" RoleModel
    "Chào em! Thầy là trợ lý Toán học. Gõ yêu cầu vào đây nhé." timestamp None.

(** [createProject]; [nowId] is [Date.now().toString()], [msgTime] and
    [now] the two other readings of the clock, [innerWidth] the width of
    the window. *)
Definition createProject (app : App) (nameInput : option string)
    (nowId : string) (msgTime now innerWidth : R) : App :=
  let name :=
    match nameInput with
    | Some n =>
        if truthy_string n then n
        else String.append "Bài toán "
               (NilEmpty.string_of_uint
                  (Nat.to_uint (length (projects app) + 1)))
    | None =>
        String.append "Bài toán "
          (NilEmpty.string_of_uint (Nat.to_uint (length (projects app) + 1)))
    end in
  let newProj :=
    mkProject nowId name (Some "math") None 0 [welcomeMessage msgTime] now in
  mkApp (newProj :: projects app) (Some nowId)
    (if Rltb innerWidth 768 then false else isSidebarOpen app).

Definition duplicateProject (app : App) (pid nowId : string) (now : R)
    : App :=
  match find (fun p => String.eqb (project_id p) pid) (projects app) with
  | None => app
  | Some projToClone =>
      let newProj :=
        mkProject nowId (String.append (project_name projToClone) " (Copy)")
          (project_subjectId projToClone) (project_geometryData projToClone)
          (project_currentStepIndex projToClone)
          (project_messages projToClone) now in
      mkApp (newProj :: projects app) (currentProjectId app)
        (isSidebarOpen app)
  end.

(** [deleteProject]; [confirmed] is the answer to [window.confirm]. *)
Definition deleteProject (app : App) (pid : string) (confirmed : bool)
    (nowId : string) (msgTime now innerWidth : R) : App :=
  if confirmed then
    let newProjects :=
      filter (fun p => negb (String.eqb (project_id p) pid)) (projects app) in
    let app' := mkApp newProjects (currentProjectId app) (isSidebarOpen app) in
    match currentProjectId app with
    | Some c =>
        if String.eqb c pid then
          match newProjects with
          | first :: _ =>
              mkApp newProjects (Some (project_id first)) (isSidebarOpen app)
          | [] =>
              createProject app' (Some "Bài toán mới") nowId msgTime now
                innerWidth
          end
        else app'
    | None => app'
    end
  else app.

(** A sample list of two projects, the first one active. *)
Definition sampleApp : App :=
  {| projects :=
       [mkProject "p1" "Tam giác" (Some "math") (Some triangleDocument) 0
          [welcomeMessage 0] 1;
        mkProject "p2" "Hình hộp" (Some "math") None 0 [welcomeMessage 0] 2];
     currentProjectId := Some "p1";
     isSidebarOpen := true |}.

(** ** Binary64 arithmetic: the label direction as the engine computes it *)

(** [getSmartLabelDirection] over IEEE 754 binary64 numbers, the numbers of
    JavaScript: [+], [-], [*], [/] and [Math.sqrt] round to nearest, [>] and
    [===] are the comparisons of the standard. *)
Module Binary64.
Import PrimFloat.
#[local] Set Warnings "-inexact-float".
#[local] Open Scope float_scope.

Record Point2D : Type := mkPoint2D { x : float; y : float }.

Definition addNeighbor (currentPoint : Point2D) (sum : float * float)
    (nb : Point2D) : float * float :=
  let dx := x nb - x currentPoint in
  let dy := y nb - y currentPoint in
  let len := sqrt (dx * dx + dy * dy) in
  if 0 <? len then (fst sum + dx / len, snd sum + dy / len) else sum.

Definition getSmartLabelDirection (currentPoint : Point2D)
    (neighborPoints : list Point2D) (geometryCenter : Point2D) : Point2D :=
  let dir :=
    if (0 <? length neighborPoints)%nat then
      let sum := fold_left (addNeighbor currentPoint) neighborPoints (0, 0) in
      (- fst sum, - snd sum)
    else
      (x currentPoint - x geometryCenter, y currentPoint - y geometryCenter) in
  let dirX := fst dir in
  let dirY := snd dir in
  let len := sqrt (dirX * dirX + dirY * dirY) in
  if len =? 0 then {| x := 0.707; y := -0.707 |}
  else {| x := dirX / len; y := dirY / len |}.

(** The label anchor of [labelPositions]: the point moved by 25 pixels
    along the direction. *)
Definition labelAnchor (pt direction : Point2D) : Point2D :=
  let distance := 25 in
  {| x := x pt + x direction * distance;
     y := y pt + y direction * distance |}.

Definition fallbackDirection : Point2D := {| x := 0.707; y := -0.707 |}.

(** The screen positions, in the 2D view after [resetView] (scale 25, an
    800 x 600 container), of M(0, 0) and of its neighbours L(-2, -1) and
    R(14, 7) on one line through it. *)
Definition middlePoint : Point2D := {| x := 400; y := 300 |}.
Definition leftNeighbor : Point2D := {| x := 350; y := 325 |}.
Definition rightNeighbor : Point2D := {| x := 750; y := 125 |}.

(** The unit vector from the middle point to its left neighbour, to the
    last digit. *)
Definition alongLeftEdge : Point2D :=
  {| x := -0.8944271909999159; y := 0.4472135954999579 |}.

(** The origin between (1, 1) and (-3, -3). *)
Definition originPoint : Point2D := {| x := 0; y := 0 |}.
Definition diagonalNeighbors : list Point2D :=
  [{| x := 1; y := 1 |}; {| x := -3; y := -3 |}].
Definition alongDiagonal : Point2D :=
  {| x := 0.7071067811865475; y := 0.7071067811865475 |}.

(** The centroid of the three projected points. *)
Definition centroidOfThree : Point2D := {| x := 500; y := 250 |}.

(** [a === b] on pairs of numbers, component by component. *)
Definition sameDirection (a b : Point2D) : bool :=
  (x a =? x b) && (y a =? y b).

(** The direction [d] is that of the vector from [origin] to [target]:
    their cross product is zero and their dot product positive. *)
Definition pointsAlong (d origin target : Point2D) : bool :=
  let vx := x target - x origin in
  let vy := y target - y origin in
  (x d * vy =? y d * vx) && (0 <? x d * vx + y d * vy).

End Binary64.
(** * Properties *)

(** ** Comparisons *)

Lemma Rltb_true (a b : R) : Rltb a b = true <-> a < b.
Proof. unfold Rltb; destruct (Rlt_dec a b); split; intros; try easy. Qed.

Lemma Rltb_false (a b : R) : Rltb a b = false <-> b <= a.
Proof.
  unfold Rltb; destruct (Rlt_dec a b); split; intros; try easy; lra.
Qed.

Lemma Reqb_true (a b : R) : Reqb a b = true <-> a = b.
Proof. unfold Reqb; destruct (Req_dec_T a b); split; intros; easy. Qed.

Lemma Reqb_false (a b : R) : Reqb a b = false <-> a <> b.
Proof. unfold Reqb; destruct (Req_dec_T a b); split; intros; easy. Qed.

(** ** Centroids *)

Lemma fold_acc3_sum (pts : list Point3D) (a : Acc3) :
  fold_left
    (fun acc p => mkAcc3 (ax acc + x3 p) (ay acc + y3 p) (az acc + z3 p))
    pts a
  = mkAcc3 (ax a + Rsum (map x3 pts)) (ay a + Rsum (map y3 pts))
      (az a + Rsum (map z3 pts)).
Proof.
  revert a; induction pts as [|p pts IH]; intros a; simpl.
  - destruct a; simpl; f_equal; ring.
  - rewrite IH; simpl; f_equal; ring.
Qed.

Lemma getCenterPoint_mean (pts : list Point3D) :
  getCenterPoint pts
  = mkPoint3D "center" (mean (map x3 pts)) (mean (map y3 pts))
      (mean (map z3 pts)) None None.
Proof.
  destruct pts as [|p pts].
  - unfold mean; simpl. f_equal; unfold Rdiv; ring.
  - unfold getCenterPoint, mean. rewrite fold_acc3_sum.
    cbn [ax ay az]. rewrite !length_map, !Rplus_0_l. reflexivity.
Qed.

Lemma get3DCentroid_mean (pts : list Point3D) :
  get3DCentroid pts
  = mkPoint3D "temp_center" (mean (map x3 pts)) (mean (map y3 pts))
      (mean (map z3 pts)) None None.
Proof.
  destruct pts as [|p pts].
  - unfold mean; simpl. f_equal; unfold Rdiv; ring.
  - unfold get3DCentroid, mean. rewrite fold_acc3_sum.
    cbn [ax ay az]. rewrite !length_map, !Rplus_0_l. reflexivity.
Qed.

(** C10. For every list of 3D points, the empty one included,
    [getCenterPoint] and [get3DCentroid] return the same x, y and z: each
    coordinate is the arithmetic mean of that coordinate over the list, and
    the origin for the empty list.  Only the id differs: ["center"] against
    ["temp_center"]. *)
Theorem getCenterPoint_get3DCentroid_agree (pts : list Point3D) :
  (x3 (getCenterPoint pts) = x3 (get3DCentroid pts) /\
   y3 (getCenterPoint pts) = y3 (get3DCentroid pts) /\
   z3 (getCenterPoint pts) = z3 (get3DCentroid pts)) /\
  (x3 (getCenterPoint pts) = mean (map x3 pts) /\
   y3 (getCenterPoint pts) = mean (map y3 pts) /\
   z3 (getCenterPoint pts) = mean (map z3 pts)) /\
  (getCenterPoint [] = mkPoint3D "center" 0 0 0 None None /\
   get3DCentroid [] = mkPoint3D "temp_center" 0 0 0 None None) /\
  (id (getCenterPoint pts) = "center" /\
   id (get3DCentroid pts) = "temp_center" /\
   label (getCenterPoint pts) = label (get3DCentroid pts) /\
   labelOffset (getCenterPoint pts) = labelOffset (get3DCentroid pts)).
Proof.
  rewrite getCenterPoint_mean, get3DCentroid_mean; simpl.
  repeat split; reflexivity.
Qed.

(** ** Projection *)

Lemma rotateAboutVertical_keeps_axis (a : R) (v : Vec3) :
  vy (rotateAboutVertical a v) = vy v /\
  vx (rotateAboutVertical a v) * vx (rotateAboutVertical a v) +
  vz (rotateAboutVertical a v) * vz (rotateAboutVertical a v)
  = vx v * vx v + vz v * vz v.
Proof.
  split; [reflexivity|]. simpl.
  pose proof (sin2_cos2 a) as H; unfold Rsqr in H. nra.
Qed.

Lemma rotateAboutHorizontal_keeps_axis (a : R) (v : Vec3) :
  vx (rotateAboutHorizontal a v) = vx v /\
  vy (rotateAboutHorizontal a v) * vy (rotateAboutHorizontal a v) +
  vz (rotateAboutHorizontal a v) * vz (rotateAboutHorizontal a v)
  = vy v * vy v + vz v * vz v.
Proof.
  split; [reflexivity|]. simpl.
  pose proof (sin2_cos2 a) as H; unfold Rsqr in H. nra.
Qed.

Lemma rotateAboutVertical_add (a b : R) (v : Vec3) :
  rotateAboutVertical a (rotateAboutVertical b v)
  = rotateAboutVertical (a + b) v.
Proof.
  unfold rotateAboutVertical; simpl. rewrite cos_plus, sin_plus.
  f_equal; ring.
Qed.

Lemma rotateAboutHorizontal_add (a b : R) (v : Vec3) :
  rotateAboutHorizontal a (rotateAboutHorizontal b v)
  = rotateAboutHorizontal (a + b) v.
Proof.
  unfold rotateAboutHorizontal; simpl. rewrite cos_plus, sin_plus.
  f_equal; ring.
Qed.

Lemma rotate_zero (v : Vec3) :
  rotateAboutVertical 0 v = v /\ rotateAboutHorizontal 0 v = v.
Proof.
  unfold rotateAboutVertical, rotateAboutHorizontal.
  rewrite cos_0, sin_0. destruct v; simpl. split; f_equal; ring.
Qed.

(** C4. [projectPoint] is a total function that rotates the point about
    the vertical axis by [angleY] first, then about the horizontal axis by
    [angleX], drops the depth without dividing by it, multiplies by
    [scale], adds half the viewport width and height, and negates the
    vertical coordinate. *)
Theorem projectPoint_rotate_drop_scale_center (p : Point3D)
    (angleX angleY scale canvasWidth canvasHeight : R) :
  projectPoint p angleX angleY scale canvasWidth canvasHeight
  = project_spec p angleX angleY scale canvasWidth canvasHeight /\
  (let r :=
     rotateAboutHorizontal (angleX * PI / 180)
       (rotateAboutVertical (angleY * PI / 180)
          {| vx := x3 p; vy := y3 p; vz := z3 p |}) in
   x (projectPoint p angleX angleY scale canvasWidth canvasHeight)
   = vx r * scale + canvasWidth / 2 /\
   y (projectPoint p angleX angleY scale canvasWidth canvasHeight)
   = - (vy r * scale) + canvasHeight / 2).
Proof.
  unfold projectPoint, project_spec, orthographicToScreen, radians; simpl.
  repeat split; try (f_equal; ring); ring.
Qed.

(** The two orders of rotation differ: a quarter turn about each axis,
    applied to the unit vector of the abscissa. *)
Lemma rotation_order_matters :
  let e1 := {| vx := 1; vy := 0; vz := 0 |} in
  vy (rotateAboutHorizontal (radians 90) (rotateAboutVertical (radians 90) e1))
  = -1 /\
  vy (rotateAboutVertical (radians 90) (rotateAboutHorizontal (radians 90) e1))
  = 0.
Proof.
  assert (Hq : radians 90 = PI / 2) by (unfold radians; field).
  simpl. rewrite Hq, cos_PI2, sin_PI2. split; ring.
Qed.

(** ** Label direction *)

Lemma addNeighbor_unit (p : Point2D) (sum : R * R) (nb : Point2D) :
  addNeighbor p sum nb
  = (fst sum + fst (unitVectorTo p nb), snd sum + snd (unitVectorTo p nb)).
Proof.
  unfold addNeighbor, unitVectorTo, vecLength; simpl.
  destruct (Rgtb _ 0); simpl; [reflexivity|].
  destruct sum; simpl; f_equal; ring.
Qed.

Lemma fold_addNeighbor (p : Point2D) (nbs : list Point2D) (acc : R * R) :
  fold_left (addNeighbor p) nbs acc
  = (fst acc + fst (vecSum (map (unitVectorTo p) nbs)),
     snd acc + snd (vecSum (map (unitVectorTo p) nbs))).
Proof.
  revert acc; induction nbs as [|nb nbs IH]; intros acc.
  - destruct acc; simpl; f_equal; ring.
  - cbn [fold_left map vecSum]. rewrite IH, addNeighbor_unit.
    cbn [fst snd]. f_equal; ring.
Qed.

(** In exact arithmetic [getSmartLabelDirection] is the function of the
    specification: with at least one neighbour, the negated sum of the unit
    vectors from the point to its neighbours, normalised; with no
    neighbour, the unit vector from the centroid to the point; and the
    fixed diagonal (0.707, -0.707) whenever the vector to normalise has
    length zero. *)
Lemma getSmartLabelDirection_exact (currentPoint : Point2D)
    (neighborPoints : list Point2D) (geometryCenter : Point2D) :
  getSmartLabelDirection currentPoint neighborPoints geometryCenter
  = smartDirection_spec currentPoint neighborPoints geometryCenter.
Proof.
  unfold getSmartLabelDirection, smartDirection_spec.
  destruct neighborPoints as [|nb nbs].
  - reflexivity.
  - change (0 <? length (nb :: nbs))%nat with true. cbv iota.
    rewrite fold_addNeighbor. cbn [fst snd]. rewrite !Rplus_0_l.
    reflexivity.
Qed.

(** What [normalizeOrFallback] yields: the fixed diagonal on a vector of
    length zero, a vector of length one and the same direction
    otherwise. *)
Lemma normalizeOrFallback_cases (v : R * R) :
  (vecLength v = 0 /\ normalizeOrFallback v = {| x := 0.707; y := -0.707 |}) \/
  (0 < vecLength v /\
   normalizeOrFallback v
   = {| x := fst v / vecLength v; y := snd v / vecLength v |} /\
   x (normalizeOrFallback v) * x (normalizeOrFallback v) +
   y (normalizeOrFallback v) * y (normalizeOrFallback v) = 1).
Proof.
  unfold normalizeOrFallback.
  destruct (Reqb (vecLength v) 0) eqn:E.
  - left. apply Reqb_true in E. split; [exact E | reflexivity].
  - right. apply Reqb_false in E.
    assert (Hpos : 0 < vecLength v).
    { pose proof (sqrt_pos (fst v * fst v + snd v * snd v)) as Hs.
      unfold vecLength in *. lra. }
    split; [exact Hpos|]. split; [reflexivity|]. simpl.
    assert (Hsq : vecLength v * vecLength v = fst v * fst v + snd v * snd v).
    { unfold vecLength. apply sqrt_sqrt. nra. }
    field_simplify_eq; [|lra]. lra.
Qed.

(** Two neighbours on opposite sides of the point, on one line through
    it: their unit vectors cancel, whatever the two distances. *)
Lemma unitVectorTo_along (p u : Point2D) (k : R) :
  0 < k ->
  unitVectorTo p {| x := x p + k * x u; y := y p + k * y u |}
  = unitVectorTo p {| x := x p + x u; y := y p + y u |}.
Proof.
  intros Hk. unfold unitVectorTo, vecLength. cbn [x y fst snd].
  replace (x p + k * x u - x p) with (k * x u) by ring.
  replace (y p + k * y u - y p) with (k * y u) by ring.
  replace (x p + x u - x p) with (x u) by ring.
  replace (y p + y u - y p) with (y u) by ring.
  set (n := sqrt (x u * x u + y u * y u)).
  assert (Hn : 0 <= n) by apply sqrt_pos.
  assert (Hlen : sqrt (k * x u * (k * x u) + k * y u * (k * y u)) = k * n).
  { replace (k * x u * (k * x u) + k * y u * (k * y u))
      with ((k * k) * (x u * x u + y u * y u)) by ring.
    rewrite sqrt_mult; [|nra|nra]. now rewrite sqrt_square by lra. }
  rewrite Hlen. unfold Rgtb.
  destruct (Rltb 0 n) eqn:E.
  - apply Rltb_true in E.
    replace (Rltb 0 (k * n)) with true by (symmetry; apply Rltb_true; nra).
    f_equal; field; lra.
  - apply Rltb_false in E.
    replace (Rltb 0 (k * n)) with false; [reflexivity|].
    symmetry. apply Rltb_false. nra.
Qed.

Lemma unitVectorTo_opposite (p u : Point2D) :
  unitVectorTo p {| x := x p - x u; y := y p - y u |}
  = (- fst (unitVectorTo p {| x := x p + x u; y := y p + y u |}),
     - snd (unitVectorTo p {| x := x p + x u; y := y p + y u |})).
Proof.
  unfold unitVectorTo, vecLength. cbn [x y fst snd].
  replace (x p - x u - x p) with (- x u) by ring.
  replace (y p - y u - y p) with (- y u) by ring.
  replace (x p + x u - x p) with (x u) by ring.
  replace (y p + y u - y p) with (y u) by ring.
  replace (- x u * - x u + - y u * - y u) with (x u * x u + y u * y u) by ring.
  destruct (Rgtb (sqrt (x u * x u + y u * y u)) 0) eqn:E; cbn [fst snd].
  - unfold Rgtb in E. apply Rltb_true in E. f_equal; field; lra.
  - f_equal; ring.
Qed.

Lemma opposite_neighbors_cancel (p u c : Point2D) (a b : R) :
  0 < a -> 0 < b ->
  getSmartLabelDirection p
    [{| x := x p + a * x u; y := y p + a * y u |};
     {| x := x p - b * x u; y := y p - b * y u |}] c
  = {| x := 0.707; y := -0.707 |}.
Proof.
  intros Ha Hb. rewrite getSmartLabelDirection_exact.
  unfold smartDirection_spec. cbn [map vecSum].
  rewrite (unitVectorTo_along p u a Ha).
  replace {| x := x p - b * x u; y := y p - b * y u |}
    with {| x := x p - x {| x := b * x u; y := b * y u |};
            y := y p - y {| x := b * x u; y := b * y u |} |} by reflexivity.
  rewrite unitVectorTo_opposite. cbn [x y].
  rewrite (unitVectorTo_along p u b Hb). cbn [fst snd].
  set (v := unitVectorTo p {| x := x p + x u; y := y p + y u |}).
  unfold normalizeOrFallback, vecLength, fallbackDirection. cbn [fst snd].
  replace (- (fst v + (- fst v + 0)) * - (fst v + (- fst v + 0))
           + - (snd v + (- snd v + 0)) * - (snd v + (- snd v + 0)))
    with 0 by ring.
  rewrite sqrt_0.
  now replace (Reqb 0 0) with true by (symmetry; now apply Reqb_true).
Qed.

(** C6. The fixed diagonal is missed where the claim puts it.  The
    projected point M(400, 300) lies between its neighbours L(350, 325)
    and R(750, 125): the two unit vectors cancel, the vector to normalise
    has length zero, and in exact arithmetic the function returns the
    fixed diagonal (0.707, -0.707).  Over binary64 numbers the two
    quotients round differently, the sum keeps a residue of about 1e-16,
    the test [len === 0] fails, and the normalised residue is returned: the
    unit vector that points from M straight to L, along the edge, so the
    label anchor, 25 pixels along it, is not the anchor of the fixed
    diagonal.  The same happens at the origin between (1, 1) and
    (-3, -3). *)
Theorem getSmartLabelDirection_misses_fallback :
  getSmartLabelDirection {| x := 400; y := 300 |}
    [{| x := 350; y := 325 |}; {| x := 750; y := 125 |}]
    {| x := 500; y := 250 |}
  = {| x := 0.707; y := -0.707 |} /\
  Binary64.getSmartLabelDirection Binary64.middlePoint
    [Binary64.leftNeighbor; Binary64.rightNeighbor] Binary64.centroidOfThree
  = Binary64.alongLeftEdge /\
  Binary64.sameDirection Binary64.alongLeftEdge Binary64.fallbackDirection
  = false /\
  Binary64.pointsAlong Binary64.alongLeftEdge Binary64.middlePoint
    Binary64.leftNeighbor = true /\
  Binary64.sameDirection
    (Binary64.labelAnchor Binary64.middlePoint Binary64.alongLeftEdge)
    (Binary64.labelAnchor Binary64.middlePoint Binary64.fallbackDirection)
  = false /\
  getSmartLabelDirection {| x := 0; y := 0 |}
    [{| x := 1; y := 1 |}; {| x := -3; y := -3 |}] {| x := 0; y := 0 |}
  = {| x := 0.707; y := -0.707 |} /\
  Binary64.getSmartLabelDirection Binary64.originPoint
    Binary64.diagonalNeighbors Binary64.originPoint
  = Binary64.alongDiagonal /\
  Binary64.sameDirection Binary64.alongDiagonal Binary64.fallbackDirection
  = false.
Proof.
  split; [|split; [|split; [|split; [|split; [|split; [|split]]]]]].
  - pose proof (opposite_neighbors_cancel {| x := 400; y := 300 |}
                  {| x := -50; y := 25 |} {| x := 500; y := 250 |} 1 7)
      as H.
    cbn [x y] in H.
    replace (400 + 1 * -50) with 350 in H by lra.
    replace (300 + 1 * 25) with 325 in H by lra.
    replace (400 - 7 * -50) with 750 in H by lra.
    replace (300 - 7 * 25) with 125 in H by lra.
    apply H; lra.
  - vm_compute. reflexivity.
  - vm_compute. reflexivity.
  - vm_compute. reflexivity.
  - vm_compute. reflexivity.
  - pose proof (opposite_neighbors_cancel {| x := 0; y := 0 |}
                  {| x := 1; y := 1 |} {| x := 0; y := 0 |} 1 3) as H.
    cbn [x y] in H.
    replace (0 + 1 * 1) with 1 in H by lra.
    replace (0 - 3 * 1) with (-3) in H by lra.
    apply H; lra.
  - vm_compute. reflexivity.
  - vm_compute. reflexivity.
Qed.

(** ** World and screen coordinates *)

(** C3. For every 2D point and every view whose scale is not zero,
    [toWorld] after [toScreen] and [toScreen] after [toWorld] give the
    point back (exactly so over the real numbers). *)
Theorem toWorld_toScreen_inverse (st : Canvas) (p : Point2D)
    (Hscale : scale st <> 0) :
  toWorld st (x (toScreen st (x p) (y p))) (y (toScreen st (x p) (y p))) = p /\
  toScreen st (x (toWorld st (x p) (y p))) (y (toWorld st (x p) (y p))) = p.
Proof.
  destruct p as [a b]. unfold toWorld, toScreen; simpl.
  split; f_equal; field; exact Hscale.
Qed.

(** ** Maps keyed by strings *)

Lemma map_get_set_same {V : Type} (m : list (string * V)) (k : string) (v : V) :
  map_get String.eqb (map_set String.eqb m k v) k = Some v.
Proof.
  induction m as [|[k' v'] m IH]; simpl.
  - now rewrite String.eqb_refl.
  - destruct (String.eqb k k') eqn:E; simpl.
    + now rewrite String.eqb_refl.
    + now rewrite E.
Qed.

Lemma map_get_set_other {V : Type} (m : list (string * V)) (k k' : string)
    (v : V) :
  k <> k' ->
  map_get String.eqb (map_set String.eqb m k v) k' = map_get String.eqb m k'.
Proof.
  intros Hne. induction m as [|[k0 v0] m IH]; simpl.
  - destruct (String.eqb k' k) eqn:E; [|reflexivity].
    apply String.eqb_eq in E. congruence.
  - destruct (String.eqb k k0) eqn:E; simpl.
    + apply String.eqb_eq in E; subst k0.
      destruct (String.eqb k' k) eqn:E'; [|reflexivity].
      apply String.eqb_eq in E'. congruence.
    + destruct (String.eqb k' k0); [reflexivity | exact IH].
Qed.

(** A [forEach] whose body leaves the map alone or sets the key of the
    element it visits. *)
Section ForEachSet.
Context {A V : Type} (key : A -> string).
Context (body : list (string * V) -> A -> list (string * V)).
Hypothesis body_other :
  forall m a k, k <> key a ->
    map_get String.eqb (body m a) k = map_get String.eqb m k.

Lemma forEach_untouched (l : list A) (m : list (string * V)) (k : string) :
  ~ In k (map key l) ->
  map_get String.eqb (fold_left body l m) k = map_get String.eqb m k.
Proof.
  revert m; induction l as [|a l IH]; intros m Hnot; simpl; [reflexivity|].
  rewrite IH.
  - apply body_other. intros ->. apply Hnot. now left.
  - intros Hin. apply Hnot. now right.
Qed.

Lemma forEach_unique (l : list A) (m : list (string * V)) (a : A) (v : V) :
  NoDup (map key l) -> In a l ->
  (forall m', map_get String.eqb (body m' a) (key a) = Some v) ->
  map_get String.eqb (fold_left body l m) (key a) = Some v.
Proof.
  revert m; induction l as [|b l IH]; intros m Hnd Hin Hset; [easy|].
  simpl in Hnd. inversion Hnd as [|? ? Hnotin Hnd']; subst.
  destruct Hin as [->|Hin]; simpl.
  - rewrite forEach_untouched by exact Hnotin. apply Hset.
  - now apply IH.
Qed.
End ForEachSet.

(** ** Label positions *)

Lemma projectedPoints_get (st : Canvas) (p : Point3D) :
  NoDup (map id (points (data st))) -> In p (points (data st)) ->
  map_get String.eqb (projectedPoints st) (id p)
  = Some (projectedPosition st p).
Proof.
  intros Hnd Hin. unfold projectedPoints.
  apply (forEach_unique id) with (v := projectedPosition st p);
    try assumption.
  - intros m a k Hne. apply map_get_set_other. congruence.
  - intros m'. apply map_get_set_same.
Qed.

Lemma placeLabel_other (pp : StrMap) (es : list Edge) (c : Point2D)
    (m : StrMap) (a : Point3D) (k : string) :
  k <> id a ->
  map_get String.eqb (placeLabel pp es c m a) k = map_get String.eqb m k.
Proof.
  intros Hne. unfold placeLabel.
  destruct (map_get String.eqb pp (id a)); [|reflexivity].
  destruct (labelOffset a); apply map_get_set_other; congruence.
Qed.

Lemma labelPositions_get_manual (st : Canvas) (p : Point3D) (off : Point2D) :
  NoDup (map id (points (data st))) -> In p (points (data st)) ->
  labelOffset p = Some off ->
  map_get String.eqb (labelPositions st) (id p)
  = Some {| x := x (projectedPosition st p) + x off;
            y := y (projectedPosition st p) + y off |}.
Proof.
  intros Hunique Hin Hoff.
  pose proof (projectedPoints_get st p Hunique Hin) as Hpp.
  unfold labelPositions.
  apply (forEach_unique id); try assumption.
  - intros m a k Hne. now apply placeLabel_other.
  - intros m'. unfold placeLabel. rewrite Hpp, Hoff.
    apply map_get_set_same.
Qed.

(** C7. A point that carries a manual [labelOffset] has its label drawn
    exactly at its projected position plus that offset, whatever the
    edges of the document are; point ids are unique, as the data model
    requires. *)
Theorem manual_labelOffset_used_verbatim (st : Canvas) (p : Point3D)
    (off : Point2D)
    (Hunique : NoDup (map id (points (data st))))
    (Hin : In p (points (data st)))
    (Hoff : labelOffset p = Some off) :
  renderedLabelPos st p
  = Some {| x := x (projectedPosition st p) + x off;
            y := y (projectedPosition st p) + y off |} /\
  map_get String.eqb (projectedPoints st) (id p)
  = Some (projectedPosition st p).
Proof.
  pose proof (projectedPoints_get st p Hunique Hin) as Hpp.
  split; [|exact Hpp].
  unfold renderedLabelPos.
  now rewrite Hpp, (labelPositions_get_manual st p off Hunique Hin Hoff).
Qed.

(** ** Hit testing *)

Lemma find_first {A : Type} (f : A -> bool) (l : list A) (a : A) :
  find f l = Some a ->
  exists before after,
    l = before ++ a :: after /\
    (forall b, In b before -> f b = false) /\
    f a = true.
Proof.
  induction l as [|c l IH]; simpl; [discriminate|].
  destruct (f c) eqn:E.
  - intros [= <-]. exists [], l. repeat split; [easy | exact E].
  - intros Hfind. destruct (IH Hfind) as (before & after & -> & Hb & Ha).
    exists (c :: before), after. repeat split; [|exact Ha].
    intros b [<-|Hin]; [exact E | now apply Hb].
Qed.

Lemma find_some_exists {A : Type} (f : A -> bool) (l : list A) (p : A) :
  In p l -> f p = true -> exists a, find f l = Some a.
Proof.
  intros Hin Hp. destruct (find f l) as [a|] eqn:E; [now exists a|].
  pose proof (find_none f l E p Hin). congruence.
Qed.

Lemma find_all_false {A : Type} (f : A -> bool) (l : list A) :
  (forall p, In p l -> f p = false) -> find f l = None.
Proof.
  intros Hall. destruct (find f l) as [a|] eqn:E; [|reflexivity].
  destruct (find_some f l E) as [Hin Ha]. rewrite (Hall a Hin) in Ha.
  discriminate.
Qed.

Lemma truthy_string_nonempty (s : string) :
  s <> "" -> truthy_string s = true.
Proof. destruct s; [congruence | reflexivity]. Qed.

(** The clamped parameter of the projection of [(cx, cy)] on the line
    through [p1] and [p2]. *)
Lemma segmentDistance_clamped (p1 p2 : Point2D) (cx cy : R) :
  let C := x p2 - x p1 in
  let D := y p2 - y p1 in
  let t :=
    if Reqb (C * C + D * D) 0 then 0
    else Rmax 0 (Rmin 1 (((cx - x p1) * C + (cy - y p1) * D) / (C * C + D * D))) in
  0 <= t <= 1 /\
  segmentDistance p1 p2 cx cy
  = Math_hypot (cx - (x p1 + t * C)) (cy - (y p1 + t * D)).
Proof.
  intros C D t. unfold segmentDistance, Math_hypot.
  fold C D. subst t.
  destruct (Reqb (C * C + D * D) 0) eqn:E; cbn [negb].
  - split; [lra|].
    replace (Rltb (-1) 0) with true
      by (symmetry; apply Rltb_true; lra).
    cbn [fst snd]. f_equal. ring.
  - set (q := ((cx - x p1) * C + (cy - y p1) * D) / (C * C + D * D)).
    unfold Rgtb.
    destruct (Rltb q 0) eqn:E0; [|destruct (Rltb 1 q) eqn:E1].
    + apply Rltb_true in E0.
      assert (Ht : Rmax 0 (Rmin 1 q) = 0).
      { rewrite Rmax_left; [reflexivity|]. rewrite Rmin_right; lra. }
      rewrite Ht. split; [lra|]. cbn [fst snd]. f_equal; ring.
    + apply Rltb_false in E0. apply Rltb_true in E1.
      assert (Ht : Rmax 0 (Rmin 1 q) = 1).
      { rewrite Rmin_left by lra. rewrite Rmax_right; lra. }
      rewrite Ht. split; [lra|]. cbn [fst snd]. subst C D. f_equal; ring.
    + apply Rltb_false in E0. apply Rltb_false in E1.
      assert (Ht : Rmax 0 (Rmin 1 q) = q).
      { rewrite Rmin_right by lra. rewrite Rmax_right; lra. }
      rewrite Ht. split; [lra|]. reflexivity.
Qed.

(** The hit regions, as the code tests them: a box of 60 by 40 pixels
    centred on the label position, a square of side 48 centred on the
    projected point, a band of 15 pixels around the segment. *)
Lemma labelHit_region (lp : StrMap) (cx cy : R) (p : Point3D) (pos : Point2D) :
  map_get String.eqb lp (id p) = Some pos ->
  (labelHit lp cx cy p = true <->
   truthy (label p) = true /\
   Rabs (x pos - cx) < 30 /\ Rabs (y pos - cy) < 20).
Proof.
  intros Hget. unfold labelHit, Math_abs. rewrite Hget. cbn zeta.
  rewrite !andb_true_iff, !Rltb_true. tauto.
Qed.

Lemma pointHit_region (pp : StrMap) (cx cy : R) (p : Point3D) (pt : Point2D) :
  map_get String.eqb pp (id p) = Some pt ->
  (pointHit pp cx cy p = true <->
   Rabs (x pt - cx) < 24 /\ Rabs (y pt - cy) < 24).
Proof.
  intros Hget. unfold pointHit, Math_abs. rewrite Hget. cbn zeta.
  rewrite andb_true_iff, !Rltb_true. tauto.
Qed.

Lemma edgeHit_region (pp : StrMap) (cx cy : R) (e : Edge) (p1 p2 : Point2D) :
  map_get String.eqb pp (edge_from e) = Some p1 ->
  map_get String.eqb pp (edge_to e) = Some p2 ->
  (edgeHit pp cx cy e = true <-> segmentDistance p1 p2 cx cy < 15).
Proof.
  intros H1 H2. unfold edgeHit. rewrite H1, H2. apply Rltb_true.
Qed.

(** The code's tests are the regions of the specification: the label box,
    the square around the point, the clamped distance to the segment. *)
Lemma segmentDistance_pointToSegment (p1 p2 : Point2D) (cx cy : R) :
  segmentDistance p1 p2 cx cy = pointToSegmentDistance p1 p2 cx cy.
Proof.
  destruct (segmentDistance_clamped p1 p2 cx cy) as [_ H]. exact H.
Qed.

Lemma labelHit_covers (st : Canvas) (cx cy : R) (p : Point3D) :
  labelHit (labelPositions st) cx cy p = true <-> labelCovers st cx cy p.
Proof.
  unfold labelCovers, inLabelBox. split.
  - intros H.
    destruct (map_get String.eqb (labelPositions st) (id p)) as [pos|] eqn:E.
    + exists pos. split; [reflexivity|].
      now apply (labelHit_region _ _ _ _ _ E).
    + unfold labelHit in H. rewrite E in H. discriminate H.
  - intros (pos & E & H). now apply (labelHit_region _ _ _ _ _ E).
Qed.

Lemma pointHit_covers (st : Canvas) (cx cy : R) (p : Point3D) :
  pointHit (projectedPoints st) cx cy p = true <-> pointCovers st cx cy p.
Proof.
  unfold pointCovers, inPointSquare. split.
  - intros H.
    destruct (map_get String.eqb (projectedPoints st) (id p)) as [pt|] eqn:E.
    + exists pt. split; [reflexivity|].
      now apply (pointHit_region _ _ _ _ _ E).
    + unfold pointHit in H. rewrite E in H. discriminate H.
  - intros (pt & E & H). now apply (pointHit_region _ _ _ _ _ E).
Qed.

Lemma edgeHit_covers (st : Canvas) (cx cy : R) (e : Edge) :
  edgeHit (projectedPoints st) cx cy e = true <-> edgeCovers st cx cy e.
Proof.
  unfold edgeCovers. split.
  - intros H.
    destruct (map_get String.eqb (projectedPoints st) (edge_from e))
      as [p1|] eqn:E1;
      [destruct (map_get String.eqb (projectedPoints st) (edge_to e))
         as [p2|] eqn:E2|].
    + exists p1, p2. split; [reflexivity|]. split; [reflexivity|].
      rewrite <- segmentDistance_pointToSegment.
      now apply (edgeHit_region _ _ _ _ _ _ E1 E2).
    + unfold edgeHit in H. rewrite E1, E2 in H. discriminate H.
    + unfold edgeHit in H. rewrite E1 in H. discriminate H.
  - intros (p1 & p2 & E1 & E2 & H).
    apply (edgeHit_region _ _ _ _ _ _ E1 E2).
    now rewrite segmentDistance_pointToSegment.
Qed.

(** The first match of a loop, for a test that decides [covers]. *)
Lemma find_firstCovered {A : Type} (f : A -> bool) (covers : A -> Prop)
    (l : list A) :
  (forall a, f a = true <-> covers a) ->
  ((forall a, In a l -> ~ covers a) -> find f l = None) /\
  (forall a, In a l -> covers a ->
     exists q, firstCovered covers l q /\ find f l = Some q).
Proof.
  intros Hdec. split.
  - intros Hnone. apply find_all_false. intros a Hin.
    destruct (f a) eqn:E; [|reflexivity].
    now destruct (Hnone a Hin); apply Hdec.
  - intros a Hin Ha.
    destruct (find_some_exists f l a Hin (proj2 (Hdec a) Ha)) as [q Hq].
    destruct (find_first _ _ _ Hq) as (before & after & Hl & Hb & Hq').
    exists q. split; [|exact Hq].
    exists before, after. split; [exact Hl|]. split; [|now apply Hdec].
    intros b Hinb Hc. apply Hdec in Hc. rewrite (Hb b Hinb) in Hc.
    discriminate Hc.
Qed.

(** C5 (amended). A pointer-down hit test resolves its target in a strict
    order.  First the label boxes: a labelled point whose label anchor is
    within 30 pixels horizontally and 20 vertically of the coordinate.
    Then the points: the region of a point is the axis-aligned square of
    side 48 pixels centred on its projection (both coordinates within 24
    pixels), not a disc.  Then the edges: both ends projected and the
    point-to-segment distance, with the projection parameter clamped to
    the segment, under 15 pixels.  Within a category the first-declared
    element that is covered wins; a coordinate covered by some label is
    always resolved to a label, whatever point or edge lies under it; a
    coordinate that nothing covers hits nothing.  (A point or an edge is
    reported under its id, which is a non-empty string.) *)
Theorem hitTest_priority (st : Canvas) (cx cy : R) :
  let d := data st in
  let noLabel := forall p, In p (points d) -> ~ labelCovers st cx cy p in
  let noPoint := forall p, In p (points d) -> ~ pointCovers st cx cy p in
  let noEdge := forall e, In e (edges d) -> ~ edgeCovers st cx cy e in
  (forall p, In p (points d) -> labelCovers st cx cy p ->
     exists q,
       firstCovered (labelCovers st cx cy) (points d) q /\
       hitTest st cx cy = HitLabel (id q)) /\
  (noLabel ->
   forall p, In p (points d) -> pointCovers st cx cy p ->
     exists q,
       firstCovered (pointCovers st cx cy) (points d) q /\
       (id q <> "" -> hitTest st cx cy = HitNode (id q))) /\
  (noLabel -> noPoint ->
   forall e, In e (edges d) -> edgeCovers st cx cy e ->
     exists q,
       firstCovered (edgeCovers st cx cy) (edges d) q /\
       (edge_id q <> "" -> hitTest st cx cy = HitNode (edge_id q))) /\
  (noLabel -> noPoint -> noEdge -> hitTest st cx cy = HitNothing).
Proof.
  intros d noLabel noPoint noEdge.
  pose proof (find_firstCovered _ _ (points d) (labelHit_covers st cx cy))
    as [HnoL HfirstL].
  pose proof (find_firstCovered _ _ (points d) (pointHit_covers st cx cy))
    as [HnoP HfirstP].
  pose proof (find_firstCovered _ _ (edges d) (edgeHit_covers st cx cy))
    as [HnoE HfirstE].
  unfold hitTest, clickedNode, firstMatch. fold d.
  split; [|split; [|split]].
  - intros p Hin Hp. destruct (HfirstL p Hin Hp) as (q & Hq & Hfind).
    exists q. split; [exact Hq|]. now rewrite Hfind.
  - intros HL p Hin Hp. destruct (HfirstP p Hin Hp) as (q & Hq & Hfind).
    exists q. split; [exact Hq|]. intros Hid.
    rewrite (HnoL HL), Hfind. cbn [option_map truthy].
    rewrite (truthy_string_nonempty _ Hid). cbn [negb].
    now rewrite (truthy_string_nonempty _ Hid).
  - intros HL HP e Hin He. destruct (HfirstE e Hin He) as (q & Hq & Hfind).
    exists q. split; [exact Hq|]. intros Hid.
    rewrite (HnoL HL), (HnoP HP), Hfind. cbn [option_map truthy negb].
    now rewrite (truthy_string_nonempty _ Hid).
  - intros HL HP HE. now rewrite (HnoL HL), (HnoP HP), (HnoE HE).
Qed.

(** ** Freehand drawing *)

Lemma toWorld_toScreen (st : Canvas) (p : Point2D) :
  scale st <> 0 ->
  toWorld st (x (toScreen st (x p) (y p))) (y (toScreen st (x p) (y p))) = p.
Proof.
  intros Hs. destruct p as [a b]. unfold toWorld, toScreen; simpl.
  f_equal; field; exact Hs.
Qed.

Lemma toScreen_toWorld (st : Canvas) (p : Point2D) :
  scale st <> 0 ->
  toScreen st (x (toWorld st (x p) (y p))) (y (toWorld st (x p) (y p))) = p.
Proof.
  intros Hs. destruct p as [a b]. unfold toWorld, toScreen; simpl.
  f_equal; field; exact Hs.
Qed.

Lemma worldOf_pointerAtWorld (st : Canvas) (pid : Z) (w : Point2D) :
  scale st <> 0 -> worldOf st (pointerAtWorld st pid w) = w.
Proof.
  intros Hs. destruct w as [a b].
  unfold worldOf, pointerAtWorld, toWorld, toScreen; simpl.
  f_equal; field; exact Hs.
Qed.

Lemma pointerDown_seeds_stroke (st : Canvas) (e : PointerEvent) :
  isDrawingMode st = true -> isPanMode st = false ->
  isSpacePanning st = false -> isPanning st = false ->
  draggingLabelId st = None -> pointersRef st = [] ->
  button e <> 1%Z -> altKey e = false ->
  drawingInProgress st (handlePointerDown st e) [worldOf st e].
Proof.
  intros Hdraw Hpan Hspace Hpanning Hdrag Hptr Hbtn Halt.
  apply Z.eqb_neq in Hbtn.
  unfold handlePointerDown, pointerDownDispatch, drawingInProgress, worldOf.
  destruct st; cbn in *; subst.
  rewrite Hbtn, andb_false_r. cbn. rewrite Halt. cbn.
  repeat split; try reflexivity; try discriminate.
  now eexists _, _.
Qed.

Lemma pointerMove_appends (st0 st : Canvas) (pts : list Point2D)
    (e : PointerEvent) :
  drawingInProgress st0 st pts ->
  drawingInProgress st0 (handlePointerMove st e) (pts ++ [worldOf st0 e]).
Proof.
  intros (Hdraw & Hpanning & Hdrag & (k & v & Hptr) & Hcur & Hne & Hs & Hd &
          Hp & Hr & Hdata & Hcol).
  unfold handlePointerMove, drawingInProgress, worldOf, map_has.
  destruct st; cbn in *; subst.
  destruct pts as [|pt pts]; [congruence|].
  cbn. destruct (Z.eqb (pointerId e) k); cbn;
    (repeat split; try reflexivity; try discriminate;
     now eexists _, _).
Qed.

Lemma pointerMoves_append (st0 : Canvas) (es : list PointerEvent) :
  forall st pts,
    drawingInProgress st0 st pts ->
    drawingInProgress st0 (run st (map PointerMove es))
      (pts ++ map (worldOf st0) es).
Proof.
  induction es as [|e es IH]; intros st pts Hinv; cbn [map run fold_left].
  - now rewrite app_nil_r.
  - change (fold_left step (map PointerMove es) (step st (PointerMove e)))
      with (run (handlePointerMove st e) (map PointerMove es)).
    replace (pts ++ worldOf st0 e :: map (worldOf st0) es)
      with ((pts ++ [worldOf st0 e]) ++ map (worldOf st0) es)
      by now rewrite <- app_assoc.
    apply IH. now apply pointerMove_appends.
Qed.

Lemma pointerUp_finalizes (st0 st : Canvas) (pts : list Point2D)
    (e : PointerEvent) (now : string) :
  drawingInProgress st0 st pts ->
  finalizedStrokes (handlePointerUp st e now)
  = finalizedStrokes st0 ++ [mkStroke now pts (drawingColor st0) 3] /\
  currentStroke (handlePointerUp st e now) = [].
Proof.
  intros (Hdraw & Hpanning & Hdrag & (k & v & Hptr) & Hcur & Hne & Hs & Hd &
          Hp & Hr & Hdata & Hcol).
  unfold handlePointerUp, finalizedStrokes.
  destruct st; cbn in *; subst.
  destruct pts as [|pt pts]; [congruence|].
  cbn. destruct (Z.eqb (pointerId e) k); cbn; split; reflexivity.
Qed.

(** What a whole stroke gesture leaves in the document. *)
Lemma strokeGesture_run (st : Canvas) (down : PointerEvent)
    (moves : list PointerEvent) (up : PointerEvent) (now : string) :
  isDrawingMode st = true -> isPanMode st = false ->
  isSpacePanning st = false -> isPanning st = false ->
  draggingLabelId st = None -> pointersRef st = [] ->
  button down <> 1%Z -> altKey down = false ->
  finalizedStrokes (run st (strokeGesture down moves up now))
  = finalizedStrokes st
    ++ [mkStroke now (map (worldOf st) (down :: moves)) (drawingColor st) 3] /\
  currentStroke (run st (strokeGesture down moves up now)) = [].
Proof.
  intros Hdraw Hpan Hspace Hpanning Hdrag Hptr Hbtn Halt.
  pose proof (pointerDown_seeds_stroke st down Hdraw Hpan Hspace Hpanning
                Hdrag Hptr Hbtn Halt) as Hdown.
  pose proof (pointerMoves_append st moves _ _ Hdown) as Hmoves.
  unfold strokeGesture, run. cbn [fold_left step].
  rewrite fold_left_app. cbn [fold_left step].
  exact (pointerUp_finalizes st _ _ up now Hmoves).
Qed.

(** C2 (amended). In draw mode, with no pointer down yet, a pointer-down
    at the world position [w0] followed by pointer-moves at the world
    positions [ws] and a pointer-up finalises exactly one new stroke, whose
    points are [w0] and then [ws] in that order: the pointer-down position
    is the first point of the stroke.  A down at (0,0) followed by moves at
    (1,1) and (2,0) gives the stroke (0,0), (1,1), (2,0); three moves after
    the down give four points; and a tap with no move finalises a stroke
    of the single point [w0]. *)
Theorem draw_gesture_finalizes_seeded_stroke (st : Canvas) (pid : Z)
    (w0 : Point2D) (ws : list Point2D) (wu : Point2D) (now : string)
    (Hscale : scale st <> 0)
    (Hdraw : isDrawingMode st = true)
    (Hpan : isPanMode st = false)
    (Hspace : isSpacePanning st = false)
    (Hpanning : isPanning st = false)
    (Hdrag : draggingLabelId st = None)
    (Hptr : pointersRef st = []) :
  finalizedStrokes
    (run st
       (strokeGesture (pointerAtWorld st pid w0)
          (map (pointerAtWorld st pid) ws) (pointerAtWorld st pid wu) now))
  = finalizedStrokes st ++ [mkStroke now (w0 :: ws) (drawingColor st) 3] /\
  currentStroke
    (run st
       (strokeGesture (pointerAtWorld st pid w0)
          (map (pointerAtWorld st pid) ws) (pointerAtWorld st pid wu) now))
  = [] /\
  finalizedStrokes
    (run st
       (strokeGesture (pointerAtWorld st pid w0) []
          (pointerAtWorld st pid w0) now))
  = finalizedStrokes st ++ [mkStroke now [w0] (drawingColor st) 3].
Proof.
  assert (Hbtn : button (pointerAtWorld st pid w0) <> 1%Z) by (cbn; lia).
  assert (Halt : altKey (pointerAtWorld st pid w0) = false) by reflexivity.
  pose proof (strokeGesture_run st (pointerAtWorld st pid w0)
                (map (pointerAtWorld st pid) ws) (pointerAtWorld st pid wu)
                now Hdraw Hpan Hspace Hpanning Hdrag Hptr Hbtn Halt)
    as [Hfin Hcur].
  pose proof (strokeGesture_run st (pointerAtWorld st pid w0) []
                (pointerAtWorld st pid w0) now Hdraw Hpan Hspace Hpanning
                Hdrag Hptr Hbtn Halt) as [Htap _].
  assert (Hworld : forall l,
             map (worldOf st) (map (pointerAtWorld st pid) l) = l).
  { induction l as [|w l IH]; [reflexivity|]. cbn [map].
    now rewrite IH, worldOf_pointerAtWorld. }
  cbn [map] in Hfin, Htap.
  rewrite Hworld, worldOf_pointerAtWorld in Hfin by exact Hscale.
  rewrite worldOf_pointerAtWorld in Htap by exact Hscale.
  repeat split; assumption.
Qed.

Lemma draw_gesture_finalizes_seeded_stroke_witness :
  finalizedStrokes
    (run drawCanvas
       (strokeGesture (pointerAtWorld drawCanvas 1 (mkPoint2D 0 0))
          (map (pointerAtWorld drawCanvas 1) [mkPoint2D 1 1; mkPoint2D 2 0])
          (pointerAtWorld drawCanvas 1 (mkPoint2D 2 0)) "1700000000000"))
  = [mkStroke "1700000000000"
       [mkPoint2D 0 0; mkPoint2D 1 1; mkPoint2D 2 0] "#ef4444" 3] /\
  finalizedStrokes
    (run drawCanvas
       (strokeGesture (pointerAtWorld drawCanvas 1 (mkPoint2D 0 0)) []
          (pointerAtWorld drawCanvas 1 (mkPoint2D 0 0)) "1700000000000"))
  = [mkStroke "1700000000000" [mkPoint2D 0 0] "#ef4444" 3].
Proof.
  destruct (draw_gesture_finalizes_seeded_stroke drawCanvas 1 (mkPoint2D 0 0)
              [mkPoint2D 1 1; mkPoint2D 2 0] (mkPoint2D 2 0) "1700000000000")
    as (Hstroke & _ & Htap).
  - cbn. lra.
  - reflexivity.
  - reflexivity.
  - reflexivity.
  - reflexivity.
  - reflexivity.
  - reflexivity.
  - split; [exact Hstroke | exact Htap].
Defined.

(** The scenario of the specification, run on the code: the three moves
    are at the world positions (0,0), (1,1), (2,0), yet the finalised
    stroke is not the three-point stroke, and the tap does leave a
    stroke. *)
Lemma draw_scenario_counterexample :
  map (worldOf drawCanvas)
    [primaryAt 1 400 300; primaryAt 1 425 325; primaryAt 1 450 300]
  = [mkPoint2D 0 0; mkPoint2D 1 1; mkPoint2D 2 0] /\
  map stroke_points (finalizedStrokes (run drawCanvas threeMoveGesture))
  <> [[mkPoint2D 0 0; mkPoint2D 1 1; mkPoint2D 2 0]] /\
  map (fun s => length (stroke_points s))
    (finalizedStrokes (run drawCanvas threeMoveGesture)) = [4%nat] /\
  finalizedStrokes (run drawCanvas tapGesture) <> [] /\
  map (fun s => length (stroke_points s))
    (finalizedStrokes (run drawCanvas tapGesture)) = [1%nat].
Proof.
  assert (Hthree :
    finalizedStrokes (run drawCanvas threeMoveGesture)
    = finalizedStrokes drawCanvas
      ++ [mkStroke "1700000000000"
            (map (worldOf drawCanvas)
               [primaryAt 1 400 300; primaryAt 1 400 300;
                primaryAt 1 425 325; primaryAt 1 450 300])
            (drawingColor drawCanvas) 3]).
  { apply strokeGesture_run; try reflexivity. cbn; lia. }
  assert (Htap :
    finalizedStrokes (run drawCanvas tapGesture)
    = finalizedStrokes drawCanvas
      ++ [mkStroke "1700000000000"
            (map (worldOf drawCanvas) [primaryAt 1 400 300])
            (drawingColor drawCanvas) 3]).
  { apply strokeGesture_run; try reflexivity. cbn; lia. }
  rewrite Hthree, Htap.
  change (finalizedStrokes drawCanvas) with (@nil FreehandStroke).
  cbn [app map stroke_points length].
  repeat split; try discriminate.
  unfold worldOf, toWorld; cbn. repeat f_equal; field.
Qed.

(** ** Instances on the sample views *)

Lemma projectedPosition_flat (st : Canvas) (p : Point3D) :
  angleX st = 0 -> angleY st = 0 ->
  projectedPosition st p
  = {| x := x3 p * scale st + width (dimensions st) / 2 + x (panOffset st);
       y := - y3 p * scale st + height (dimensions st) / 2 + y (panOffset st) |}.
Proof.
  intros HX HY. unfold projectedPosition, projectPoint. rewrite HX, HY.
  replace (0 * PI / 180) with 0 by (unfold Rdiv; ring).
  rewrite cos_0, sin_0. cbn [x y]. f_equal; ring.
Qed.

Lemma triangle_ids_unique : NoDup (map id (points (data flatCanvas))).
Proof.
  cbn. repeat constructor; cbn; intuition discriminate.
Qed.

Lemma toWorld_toScreen_inverse_witness :
  toWorld flatCanvas (x (toScreen flatCanvas 3 4)) (y (toScreen flatCanvas 3 4))
  = mkPoint2D 3 4 /\
  toScreen flatCanvas (x (toWorld flatCanvas 3 4)) (y (toWorld flatCanvas 3 4))
  = mkPoint2D 3 4.
Proof.
  apply (toWorld_toScreen_inverse flatCanvas (mkPoint2D 3 4)).
  cbn. lra.
Defined.

Lemma manual_labelOffset_used_verbatim_witness :
  renderedLabelPos flatCanvas pointA
  = Some {| x := x (projectedPosition flatCanvas pointA) + 10;
            y := y (projectedPosition flatCanvas pointA) + -5 |} /\
  map_get String.eqb (projectedPoints flatCanvas) "A"
  = Some (projectedPosition flatCanvas pointA).
Proof.
  apply (manual_labelOffset_used_verbatim flatCanvas pointA
           {| x := 10; y := -5 |}).
  - exact triangle_ids_unique.
  - cbn. now left.
  - reflexivity.
Defined.

(** The flat view of the triangle: A at (400, 300), B at (475, 300),
    C at (400, 200); the labels of A and B at (410, 295) and (475, 270). *)
Lemma flatCanvas_projection (p : Point3D) :
  In p (points (data flatCanvas)) ->
  map_get String.eqb (projectedPoints flatCanvas) (id p)
  = Some {| x := 400 + 25 * x3 p; y := 300 - 25 * y3 p |}.
Proof.
  intros Hin.
  rewrite (projectedPoints_get flatCanvas p triangle_ids_unique Hin).
  rewrite projectedPosition_flat by reflexivity. cbn.
  f_equal. f_equal; lra.
Qed.

Lemma flatCanvas_label (p : Point3D) (off : Point2D) :
  In p (points (data flatCanvas)) -> labelOffset p = Some off ->
  map_get String.eqb (labelPositions flatCanvas) (id p)
  = Some {| x := 400 + 25 * x3 p + x off; y := 300 - 25 * y3 p + y off |}.
Proof.
  intros Hin Hoff.
  rewrite (labelPositions_get_manual flatCanvas p off triangle_ids_unique
             Hin Hoff).
  rewrite projectedPosition_flat by reflexivity. cbn.
  f_equal. f_equal; lra.
Qed.

Lemma firstCovered_head {A : Type} (covers : A -> Prop) (a q : A)
    (l : list A) :
  covers a -> firstCovered covers (a :: l) q -> q = a.
Proof.
  intros Ha (before & after & Hl & Hb & _).
  destruct before as [|b before].
  - now injection Hl.
  - injection Hl as Hb' _. subst b.
    now destruct (Hb a (or_introl eq_refl)).
Qed.

Lemma firstCovered_in {A : Type} (covers : A -> Prop) (q : A) (l : list A) :
  firstCovered covers l q -> In q l /\ covers q.
Proof.
  intros (before & after & -> & _ & Hq). split; [|exact Hq].
  apply in_or_app. right. now left.
Qed.

(** Which labels and points of the flat view cover a coordinate. *)
Lemma flatCanvas_labelCovers (cx cy : R) (p : Point3D) :
  In p (points (data flatCanvas)) ->
  (labelCovers flatCanvas cx cy p <->
   (p = pointA /\ inLabelBox {| x := 410; y := 295 |} cx cy) \/
   (p = pointB /\ inLabelBox {| x := 475; y := 270 |} cx cy)).
Proof.
  intros Hin. unfold labelCovers. split.
  - intros (anchor & Hget & Htruthy & Hbox).
    destruct Hin as [<-|[<-|[<-|[]]]].
    + left. split; [reflexivity|].
      rewrite (flatCanvas_label pointA {| x := 10; y := -5 |}) in Hget;
        [|cbn; tauto|reflexivity].
      injection Hget as <-. cbn in Hbox.
      replace (400 + 25 * 0 + 10) with 410 in Hbox by lra.
      now replace (300 - 25 * 0 + -5) with 295 in Hbox by lra.
    + right. split; [reflexivity|].
      rewrite (flatCanvas_label pointB {| x := 0; y := -30 |}) in Hget;
        [|cbn; tauto|reflexivity].
      injection Hget as <-. cbn in Hbox.
      replace (400 + 25 * 3 + 0) with 475 in Hbox by lra.
      now replace (300 - 25 * 0 + -30) with 270 in Hbox by lra.
    + discriminate Htruthy.
  - intros [[-> Hbox]|[-> Hbox]].
    + exists {| x := 410; y := 295 |}. split; [|split; [reflexivity|exact Hbox]].
      rewrite (flatCanvas_label pointA {| x := 10; y := -5 |});
        [|cbn; tauto|reflexivity].
      cbn. f_equal. f_equal; lra.
    + exists {| x := 475; y := 270 |}. split; [|split; [reflexivity|exact Hbox]].
      rewrite (flatCanvas_label pointB {| x := 0; y := -30 |});
        [|cbn; tauto|reflexivity].
      cbn. f_equal. f_equal; lra.
Qed.

Lemma flatCanvas_pointCovers (cx cy : R) (p : Point3D) :
  In p (points (data flatCanvas)) ->
  (pointCovers flatCanvas cx cy p <->
   inPointSquare {| x := 400 + 25 * x3 p; y := 300 - 25 * y3 p |} cx cy).
Proof.
  intros Hin. unfold pointCovers. rewrite (flatCanvas_projection p Hin).
  split.
  - now intros (pt & [= <-] & H).
  - intros H. eexists. split; [reflexivity | exact H].
Qed.

(** A coordinate 10 pixels under the edge from A to B, three fifths of the
    way along it. *)
Lemma below_edge_AB :
  pointToSegmentDistance {| x := 400; y := 300 |} {| x := 475; y := 300 |}
    445 310 = 10.
Proof.
  unfold pointToSegmentDistance, clampedParameter, segmentAt. cbn [x y].
  replace (Reqb ((475 - 400) * (475 - 400) + (300 - 300) * (300 - 300)) 0)
    with false by (symmetry; apply Reqb_false; lra).
  replace (((445 - 400) * (475 - 400) + (310 - 300) * (300 - 300))
           / ((475 - 400) * (475 - 400) + (300 - 300) * (300 - 300)))
    with (3 / 5) by (field; lra).
  rewrite (Rmin_right 1 (3 / 5)) by lra.
  rewrite (Rmax_right 0 (3 / 5)) by lra.
  replace ((445 - (400 + 3 / 5 * (475 - 400)))
           * (445 - (400 + 3 / 5 * (475 - 400)))
           + (310 - (300 + 3 / 5 * (300 - 300)))
             * (310 - (300 + 3 / 5 * (300 - 300))))
    with (10 * 10) by field.
  apply sqrt_square. lra.
Qed.

Ltac outside_region :=
  unfold inLabelBox, inPointSquare; cbn [x y x3 y3 pointA pointB pointC];
  let H1 := fresh in
  let H2 := fresh in
  intros [H1 H2]; apply Rabs_def2 in H1; apply Rabs_def2 in H2; lra.

Ltac inside_region :=
  unfold inLabelBox, inPointSquare; cbn [x y x3 y3 pointA pointB pointC];
  split; apply Rabs_def1; lra.

Lemma hitTest_priority_witness :
  hitTest flatCanvas 400 300 = HitLabel "A" /\
  hitTest flatCanvas 400 200 = HitNode "C" /\
  hitTest flatCanvas 445 310 = HitNode "edge_AB".
Proof.
  split; [|split].
  - (* the label of A lies over the point A: the label wins *)
    assert (HA : labelCovers flatCanvas 400 300 pointA).
    { apply flatCanvas_labelCovers; [cbn; tauto|]. left.
      split; [reflexivity | inside_region]. }
    destruct (proj1 (hitTest_priority flatCanvas 400 300) pointA
                (or_introl eq_refl) HA) as (q & Hfirst & Hres).
    rewrite Hres. now rewrite (firstCovered_head _ _ _ _ HA Hfirst).
  - (* the point C, which carries no label *)
    assert (HnoLabel : forall p, In p (points (data flatCanvas)) ->
                         ~ labelCovers flatCanvas 400 200 p).
    { intros p Hin Hp. apply (flatCanvas_labelCovers _ _ _ Hin) in Hp.
      destruct Hp as [[_ Hbox]|[_ Hbox]]; revert Hbox; outside_region. }
    assert (HC : pointCovers flatCanvas 400 200 pointC).
    { apply flatCanvas_pointCovers; [cbn; tauto | inside_region]. }
    destruct (proj1 (proj2 (hitTest_priority flatCanvas 400 200)) HnoLabel
                pointC (or_intror (or_intror (or_introl eq_refl))) HC)
      as (q & Hfirst & Hres).
    destruct (firstCovered_in _ _ _ Hfirst) as [Hin Hq].
    apply (flatCanvas_pointCovers _ _ _ Hin) in Hq.
    destruct Hin as [<-|[<-|[<-|[]]]].
    + revert Hq; outside_region.
    + revert Hq; outside_region.
    + apply Hres. discriminate.
  - (* ten pixels under the edge from A to B, away from points and labels *)
    assert (HnoLabel : forall p, In p (points (data flatCanvas)) ->
                         ~ labelCovers flatCanvas 445 310 p).
    { intros p Hin Hp. apply (flatCanvas_labelCovers _ _ _ Hin) in Hp.
      destruct Hp as [[_ Hbox]|[_ Hbox]]; revert Hbox; outside_region. }
    assert (HnoPoint : forall p, In p (points (data flatCanvas)) ->
                         ~ pointCovers flatCanvas 445 310 p).
    { intros p Hin Hp. apply (flatCanvas_pointCovers _ _ _ Hin) in Hp.
      destruct Hin as [<-|[<-|[<-|[]]]]; revert Hp; outside_region. }
    assert (HAB : edgeCovers flatCanvas 445 310 (mkEdge "edge_AB" "A" "B")).
    { exists {| x := 400; y := 300 |}, {| x := 475; y := 300 |}.
      split; [|split].
      - change (edge_from (mkEdge "edge_AB" "A" "B")) with (id pointA).
        rewrite (flatCanvas_projection pointA) by (cbn; tauto).
        cbn. f_equal. f_equal; lra.
      - change (edge_to (mkEdge "edge_AB" "A" "B")) with (id pointB).
        rewrite (flatCanvas_projection pointB) by (cbn; tauto).
        cbn. f_equal. f_equal; lra.
      - rewrite below_edge_AB. lra. }
    destruct (proj1 (proj2 (proj2 (hitTest_priority flatCanvas 445 310)))
                HnoLabel HnoPoint (mkEdge "edge_AB" "A" "B")
                (or_introl eq_refl) HAB) as (q & Hfirst & Hres).
    rewrite (firstCovered_head _ _ _ _ HAB Hfirst) in Hres.
    apply Hres. discriminate.
Defined.

(** The region of a point is not a disc: in the view of a single
    unlabelled point at (400, 300), the coordinate (423, 323), 32.5 pixels
    away, hits the point, while (425, 300), 25 pixels away, hits nothing. *)
Lemma hitTest_point_disc_counterexample :
  hitTest dotCanvas 423 323 = HitNode "P" /\
  hitTest dotCanvas 425 300 = HitNothing /\
  ~ (exists r, forall cx cy,
       hitTest dotCanvas cx cy = HitNode "P" <->
       inDisc r {| x := 400; y := 300 |} cx cy).
Proof.
  set (P := mkPoint3D "P" 0 0 0 None None).
  assert (Hunique : NoDup (map id (points (data dotCanvas)))).
  { cbn. repeat constructor. easy. }
  assert (Hin : In P (points (data dotCanvas))) by (cbn; now left).
  assert (Hpos : map_get String.eqb (projectedPoints dotCanvas) (id P)
                 = Some {| x := 400; y := 300 |}).
  { rewrite (projectedPoints_get dotCanvas P Hunique Hin).
    rewrite projectedPosition_flat by reflexivity. cbn.
    f_equal. f_equal; lra. }
  assert (Hlabel : forall cx cy,
             labelHit (labelPositions dotCanvas) cx cy P = false).
  { intros cx cy. unfold labelHit. now destruct (map_get _ _ (id P)). }
  assert (Hhit : forall cx cy,
             hitTest dotCanvas cx cy
             = if pointHit (projectedPoints dotCanvas) cx cy P
               then HitNode "P" else HitNothing).
  { intros cx cy. unfold hitTest, clickedNode, firstMatch.
    change (points (data dotCanvas)) with [P].
    change (edges (data dotCanvas)) with (@nil Edge). cbn [find].
    rewrite Hlabel.
    now destruct (pointHit (projectedPoints dotCanvas) cx cy P). }
  assert (Hnear : hitTest dotCanvas 423 323 = HitNode "P").
  { rewrite Hhit.
    replace (pointHit (projectedPoints dotCanvas) 423 323 P) with true;
      [reflexivity|].
    symmetry. apply (pointHit_region _ _ _ _ _ Hpos). cbn.
    split; apply Rabs_def1; lra. }
  assert (Hfar : hitTest dotCanvas 425 300 = HitNothing).
  { rewrite Hhit.
    replace (pointHit (projectedPoints dotCanvas) 425 300 P) with false;
      [reflexivity|].
    symmetry. destruct (pointHit _ 425 300 P) eqn:E; [|reflexivity].
    apply (pointHit_region _ _ _ _ _ Hpos) in E. cbn in E.
    destruct E as [E _]. apply Rabs_def2 in E. lra. }
  split; [exact Hnear|]. split; [exact Hfar|].
  intros [r Hr].
  pose proof (proj1 (Hr 423 323) Hnear) as Hin1.
  assert (Hout : ~ inDisc r {| x := 400; y := 300 |} 425 300).
  { intros H. apply Hr in H. rewrite Hfar in H. discriminate H. }
  apply Hout. unfold inDisc in *. cbn [x y] in *.
  apply Rle_lt_trans with (2 := Hin1).
  apply sqrt_le_1_alt. lra.
Qed.

(** ** Zoom *)

(** Goals about [Math.min(Math.max(5, s), 200)]: split on the two
    comparisons. *)
Ltac clamp_cases :=
  unfold clampScale, Math_min, Math_max, Rmin, Rmax;
  repeat match goal with
         | |- context [Rle_dec 5 ?a] => destruct (Rle_dec 5 a)
         | |- context [Rle_dec ?a 200] => destruct (Rle_dec a 200)
         end;
  lra.

Lemma clampScale_range (s : R) : 5 <= clampScale s <= 200.
Proof. clamp_cases. Qed.

Lemma clampScale_inside (s : R) : 5 <= s <= 200 -> clampScale s = s.
Proof. intros Hs. clamp_cases. Qed.

Lemma onWheel_scale (st : Canvas) (deltaY : R) :
  (isDrawingMode st = false ->
   scale (onWheel st deltaY) = clampScale (scale st * (1 - deltaY * 0.002)) /\
   5 <= scale (onWheel st deltaY) <= 200) /\
  (isDrawingMode st = true -> onWheel st deltaY = st).
Proof.
  unfold onWheel. split; intros ->; cbn; [|reflexivity].
  split; [reflexivity|]. apply clampScale_range.
Qed.

(** C1 (the code at the failing inputs). The zoom buttons multiply and
    divide the scale by 1.2 without clamping it: one press of zoom-in after
    the wheel has brought the scale to 200 gives 240, one press of zoom-out
    after the wheel has brought it to 5 gives 25/6, and twelve presses of
    zoom-in from the initial view pass 200. *)
Theorem zoom_buttons_leave_scale_range :
  (forall st, scale (zoomInButton st) = scale st * 1.2 /\
              scale (zoomOutButton st) = scale st / 1.2) /\
  scale (run flatCanvas [Wheel (-10000)]) = 200 /\
  scale (run flatCanvas [Wheel (-10000); ZoomIn]) = 240 /\
  scale (run flatCanvas [Wheel 10000]) = 5 /\
  scale (run flatCanvas [Wheel 10000; ZoomOut]) = 25 / 6 /\
  200 < scale (run flatCanvas (repeat ZoomIn 12)).
Proof.
  assert (Hup : Math_min (Math_max 5 (25 * (1 - -10000 * 0.002))) 200 = 200)
    by clamp_cases.
  assert (Hdown : Math_min (Math_max 5 (25 * (1 - 10000 * 0.002))) 200 = 5)
    by clamp_cases.
  split; [intros st; split; reflexivity|].
  cbn. rewrite Hup, Hdown. repeat split; lra.
Qed.

(** ** Auto-rotation *)




Lemma tick_keeps_activity (st : Canvas) :
  autoRotationActive (autoRotateTick st) = autoRotationActive st.
Proof.
  unfold autoRotateTick. destruct (autoRotationActive st) eqn:E; [|exact E].
  exact E.
Qed.




Lemma pointerUp_fields (st : Canvas) (e : PointerEvent) (now : string) :
  pointersRef (handlePointerUp st e now)
  = map_delete Z.eqb (pointersRef st) (pointerId e) /\
  draggingLabelId (handlePointerUp st e now) = None /\
  isAutoRotating (handlePointerUp st e now) = isAutoRotating st /\
  gtype (data (handlePointerUp st e now)) = gtype (data st) /\
  isDrawingMode (handlePointerUp st e now) = isDrawingMode st /\
  (map_delete Z.eqb (pointersRef st) (pointerId e) = [] ->
   isPanning (handlePointerUp st e now) = false).
Proof.
  unfold handlePointerUp.
  destruct st as [sc aX aY pan ar dim sel dm pm sp pg dl lpp ptrs ppd cs dc
                  d rc]; cbn.
  destruct (map_delete Z.eqb ptrs (pointerId e)) as [|p1 [|p2 r]];
    destruct dm; destruct cs; cbn;
    repeat split; try reflexivity; discriminate.
Qed.



(** ** Two-pointer moves *)

Lemma hypot_horizontal (a : R) : a <= 0 -> Math_hypot a (0 - 0) = - a.
Proof.
  intros Ha. unfold Math_hypot.
  replace (a * a + (0 - 0) * (0 - 0)) with ((- a) * (- a)) by ring.
  apply sqrt_square. lra.
Qed.

(** C8 (amended). On a pointer-move with exactly two pointers active:
    when an inter-pointer distance was recorded before, the scale becomes
    the old scale times [1 + 0.01 * (new distance - recorded distance)],
    clamped to [5, 200], and otherwise the scale is left unchanged; the
    new distance is recorded; and the pan offset is translated by half of
    the raw delta of the event, which is its client position minus the
    last recorded pointer position. *)
Theorem pinch_move_effect (st : Canvas) (e : PointerEvent) (p0 p1 : Point2D)
    (Htwo : map_values (pointersAfterMove st e) = [p0; p1]) :
  let st' := handlePointerMove st e in
  let dist := Math_hypot (x p0 - x p1) (y p0 - y p1) in
  scale st'
  = match prevPinchDistRef st with
    | Some prev => clampScale (scale st * (1 + (dist - prev) * 0.01))
    | None => scale st
    end /\
  (prevPinchDistRef st <> None -> 5 <= scale st' <= 200) /\
  prevPinchDistRef st' = Some dist /\
  panOffset st'
  = {| x := x (panOffset st) + (clientX e - x (lastPointerPos st)) * 0.5;
       y := y (panOffset st) + (clientY e - y (lastPointerPos st)) * 0.5 |}.
Proof.
  intros st' dist. subst st' dist.
  unfold handlePointerMove, pointersAfterMove in *.
  destruct (map_has Z.eqb (pointersRef st) (pointerId e));
    cbn -[map_values]; rewrite Htwo;
    destruct (prevPinchDistRef st) as [prev|]; cbn;
    (repeat split; try reflexivity; try congruence;
     apply clampScale_range).
Qed.

Lemma pinch_move_effect_witness :
  scale (handlePointerMove afterFirstTwoFingerMove secondFingerMoveAgain)
  = clampScale
      (25 * (1 + (Math_hypot (0 - 300) (0 - 0) - Math_hypot (0 - 200) (0 - 0))
                 * 0.01)) /\
  panOffset (handlePointerMove afterFirstTwoFingerMove secondFingerMoveAgain)
  = {| x := 0 + (200 - 100) * 0.5 + (300 - 200) * 0.5;
       y := 0 + (0 - 0) * 0.5 + (0 - 0) * 0.5 |}.
Proof.
  destruct (pinch_move_effect afterFirstTwoFingerMove secondFingerMoveAgain
              {| x := 0; y := 0 |} {| x := 300; y := 0 |} eq_refl)
    as (Hscale & _ & _ & Hpan).
  split; [exact Hscale | exact Hpan].
Defined.

(** The two halves of the sentence as written fail on the code.  With the
    pan tool on, the first two-finger move changes the distance by 100
    pixels and leaves the scale at 25, while the next one changes it by
    100 pixels again and doubles the scale: no fixed rate fits both.  And
    the pan offset follows the midpoint one to one when the second finger
    moves again, but jumps backwards when the first finger moves by one
    pixel: no fixed fraction of the midpoint displacement fits both. *)
Lemma pinch_as_written_counterexample :
  ~ pinchScaleAsWritten /\ ~ pinchPanAsWritten.
Proof.
  assert (H100 : Math_hypot (0 - 100) (0 - 0) = 100)
    by (rewrite hypot_horizontal; lra).
  assert (H200 : Math_hypot (0 - 200) (0 - 0) = 200)
    by (rewrite hypot_horizontal; lra).
  assert (H300 : Math_hypot (0 - 300) (0 - 0) = 300)
    by (rewrite hypot_horizontal; lra).
  split.
  - intros [k Hk].
    pose proof (Hk panToolTwoFingers secondFingerMove _ _ eq_refl eq_refl)
      as H1.
    pose proof (Hk afterFirstTwoFingerMove secondFingerMoveAgain _ _
                  eq_refl eq_refl) as H2.
    cbn in H1, H2. rewrite H100, H200 in H1. rewrite H200, H300 in H2.
    change (Math_min (Math_max 5 (25 * (1 + (300 - 200) * 0.01))) 200)
      with (clampScale (25 * (1 + (300 - 200) * 0.01))) in H2.
    rewrite (clampScale_inside (25 * (1 + (300 - 200) * 0.01))) in H2 by lra.
    replace (300 - 200) with (200 - 100) in H2 by lra.
    rewrite <- H1 in H2. lra.
  - intros [c Hc].
    pose proof (Hc panToolTwoFingers secondFingerMove _ _ eq_refl eq_refl)
      as H1.
    pose proof (Hc afterFirstTwoFingerMove firstFingerMove _ _
                  eq_refl eq_refl) as H2.
    cbn in H1, H2.
    apply (f_equal x) in H1. apply (f_equal x) in H2. cbn in H1, H2.
    lra.
Qed.

(** * Further properties of the sources *)

(** ** Centroids and label directions *)

Lemma fold_acc2_sum (pts : list Point2D) (a : Point2D) :
  fold_left (fun acc p => {| x := x acc + x p; y := y acc + y p |}) pts a
  = {| x := x a + Rsum (map x pts); y := y a + Rsum (map y pts) |}.
Proof.
  revert a; induction pts as [|p pts IH]; intros a; simpl.
  - destruct a; simpl; f_equal; ring.
  - rewrite IH; simpl; f_equal; ring.
Qed.

Lemma get2DCentroid_mean (pts : list Point2D) :
  get2DCentroid pts = {| x := mean (map x pts); y := mean (map y pts) |}.
Proof.
  destruct pts as [|p pts].
  - unfold mean; simpl. f_equal; unfold Rdiv; ring.
  - unfold get2DCentroid, mean. rewrite fold_acc2_sum.
    cbn [x y]. rewrite !length_map, !Rplus_0_l. reflexivity.
Qed.

Lemma Rsum_shift {A : Type} (f : A -> R) (l : list A) (d : R) :
  Rsum (map (fun a => f a + d) l) = Rsum (map f l) + INR (length l) * d.
Proof.
  induction l as [|a l IH]; [simpl; ring|].
  cbn [map Rsum]. rewrite IH. cbn [length]. rewrite S_INR. ring.
Qed.

Lemma nonempty_length_INR {A : Type} (l : list A) :
  l <> [] -> INR (length l) <> 0.
Proof.
  intros Hne. apply not_0_INR. destruct l; [congruence | discriminate].
Qed.

(** X1. The 2D centroid is the coordinate-wise mean, and it follows a
    translation of its points: moving every point of a non-empty list by
    [d] moves the centroid by [d]. *)
Theorem get2DCentroid_translate (pts : list Point2D) (d : Point2D)
    (Hne : pts <> []) :
  get2DCentroid pts = {| x := mean (map x pts); y := mean (map y pts) |} /\
  get2DCentroid
    (map (fun p => {| x := x p + x d; y := y p + y d |}) pts)
  = {| x := x (get2DCentroid pts) + x d; y := y (get2DCentroid pts) + y d |}.
Proof.
  split; [apply get2DCentroid_mean|].
  pose proof (nonempty_length_INR pts Hne) as Hn.
  rewrite !get2DCentroid_mean. unfold mean. rewrite !map_map. cbn [x y].
  rewrite !length_map, !Rsum_shift. f_equal; field; exact Hn.
Qed.

Lemma get2DCentroid_translate_witness :
  get2DCentroid
    (map (fun p => {| x := x p + 10; y := y p + -5 |})
       [mkPoint2D 0 0; mkPoint2D 4 2])
  = {| x := x (get2DCentroid [mkPoint2D 0 0; mkPoint2D 4 2]) + 10;
       y := y (get2DCentroid [mkPoint2D 0 0; mkPoint2D 4 2]) + -5 |}.
Proof.
  apply (proj2 (get2DCentroid_translate [mkPoint2D 0 0; mkPoint2D 4 2]
                  (mkPoint2D 10 (-5)) ltac:(discriminate))).
Defined.

Lemma sum_sq_nonneg (a b : R) : 0 <= a * a + b * b.
Proof.
  pose proof (Rle_0_sqr a) as Ha. pose proof (Rle_0_sqr b) as Hb.
  unfold Rsqr in *. lra.
Qed.

Lemma getSmartLabelDirection_unfold (p : Point2D) (nbs : list Point2D)
    (c : Point2D) :
  getSmartLabelDirection p nbs c = smartDirection_spec p nbs c.
Proof.
  unfold getSmartLabelDirection, smartDirection_spec.
  destruct nbs as [|nb nbs]; [reflexivity|].
  change (0 <? length (nb :: nbs))%nat with true. cbv iota.
  rewrite fold_addNeighbor. cbn [fst snd]. rewrite !Rplus_0_l.
  reflexivity.
Qed.

Lemma normalizeOrFallback_bound (v : R * R) :
  x (normalizeOrFallback v) * x (normalizeOrFallback v) +
  y (normalizeOrFallback v) * y (normalizeOrFallback v) <= 1.
Proof.
  destruct (normalizeOrFallback_cases v) as [[_ ->]|(_ & _ & ->)];
    [cbn [x y]; lra | lra].
Qed.

Lemma getSmartLabelDirection_norm (p : Point2D) (nbs : list Point2D)
    (c : Point2D) :
  x (getSmartLabelDirection p nbs c) * x (getSmartLabelDirection p nbs c)
  + y (getSmartLabelDirection p nbs c) * y (getSmartLabelDirection p nbs c)
  <= 1.
Proof.
  rewrite getSmartLabelDirection_unfold. unfold smartDirection_spec.
  destruct nbs; apply normalizeOrFallback_bound.
Qed.

(** X2. The direction [getSmartLabelDirection] returns is never longer
    than a unit vector: it has length exactly one, except for the fixed
    fallback (0.707, -0.707), which is a little shorter. *)
Theorem getSmartLabelDirection_unit (p : Point2D) (nbs : list Point2D)
    (c : Point2D) :
  let d := getSmartLabelDirection p nbs c in
  x d * x d + y d * y d <= 1 /\
  (d = {| x := 0.707; y := -0.707 |} \/ x d * x d + y d * y d = 1).
Proof.
  cbv zeta. rewrite getSmartLabelDirection_unfold.
  unfold smartDirection_spec.
  destruct nbs as [|nb nbs]; (split; [apply normalizeOrFallback_bound|]);
    match goal with
    | |- context [normalizeOrFallback ?v] =>
        destruct (normalizeOrFallback_cases v) as [[_ ->]|(_ & _ & ->)]
    end; auto.
Qed.

(** X3. With a single neighbour that does not coincide with the point, the
    label direction is the unit vector pointing from the neighbour to the
    point, whatever the centroid is: the label is pushed straight away
    from the only edge. *)
Theorem getSmartLabelDirection_single_neighbor (p nb c : Point2D)
    (Hdistinct : 0 < distance2D nb p) :
  getSmartLabelDirection p [nb] c
  = {| x := (x p - x nb) / distance2D nb p;
       y := (y p - y nb) / distance2D nb p |}.
Proof.
  unfold distance2D, Math_hypot in *.
  set (L := sqrt ((x nb - x p) * (x nb - x p) + (y nb - y p) * (y nb - y p)))
    in *.
  assert (HL2 : L * L = (x nb - x p) * (x nb - x p) + (y nb - y p) * (y nb - y p)).
  { apply sqrt_sqrt. apply sum_sq_nonneg. }
  rewrite getSmartLabelDirection_unfold.
  unfold smartDirection_spec, unitVectorTo, vecLength. cbn [map vecSum fst snd].
  fold L. unfold Rgtb. rewrite (proj2 (Rltb_true 0 L) Hdistinct).
  cbn [fst snd]. unfold normalizeOrFallback, vecLength. cbn [fst snd].
  assert (Hone : sqrt (- ((x nb - x p) / L + 0) * - ((x nb - x p) / L + 0)
                       + - ((y nb - y p) / L + 0) * - ((y nb - y p) / L + 0)) = 1).
  { replace (- ((x nb - x p) / L + 0) * - ((x nb - x p) / L + 0)
             + - ((y nb - y p) / L + 0) * - ((y nb - y p) / L + 0))
      with ((L * L) / (L * L)).
    - replace (L * L / (L * L)) with 1 by (field; lra). apply sqrt_1.
    - rewrite HL2 at 1. field. lra. }
  rewrite Hone. rewrite (proj2 (Reqb_false 1 0)) by lra.
  f_equal; field; lra.
Qed.

Lemma getSmartLabelDirection_single_neighbor_witness :
  getSmartLabelDirection (mkPoint2D 0 0) [mkPoint2D 3 0] (mkPoint2D 7 7)
  = {| x := (0 - 3) / distance2D (mkPoint2D 3 0) (mkPoint2D 0 0);
       y := (0 - 0) / distance2D (mkPoint2D 3 0) (mkPoint2D 0 0) |}.
Proof.
  apply (getSmartLabelDirection_single_neighbor (mkPoint2D 0 0)
           (mkPoint2D 3 0) (mkPoint2D 7 7)).
  unfold distance2D, Math_hypot. cbn [x y].
  replace ((3 - 0) * (3 - 0) + (0 - 0) * (0 - 0)) with (3 * 3) by ring.
  rewrite sqrt_square; lra.
Defined.

(** ** Label placement *)

Lemma labelPositions_get_smart (st : Canvas) (p : Point3D) :
  NoDup (map id (points (data st))) -> In p (points (data st)) ->
  labelOffset p = None ->
  map_get String.eqb (labelPositions st) (id p)
  = Some
      (let pt := projectedPosition st p in
       let direction :=
         getSmartLabelDirection pt
           (collectNeighbors (projectedPoints st) (edges (data st)) (id p))
           (get2DCentroid (map_values (projectedPoints st))) in
       {| x := x pt + x direction * 25; y := y pt + y direction * 25 |}).
Proof.
  intros Hunique Hin Hoff.
  pose proof (projectedPoints_get st p Hunique Hin) as Hpp.
  unfold labelPositions.
  apply (forEach_unique id); try assumption.
  - intros m a k Hne. now apply placeLabel_other.
  - intros m'. unfold placeLabel. rewrite Hpp, Hoff.
    apply map_get_set_same.
Qed.

(** X4. Every point of a document with unique ids gets a label position,
    and a label placed automatically (no manual offset) lies within 25
    pixels of the projected point. *)
Theorem label_within_standard_distance (st : Canvas) (p : Point3D)
    (Hunique : NoDup (map id (points (data st))))
    (Hin : In p (points (data st)))
    (Hauto : labelOffset p = None) :
  exists pos,
    map_get String.eqb (labelPositions st) (id p) = Some pos /\
    renderedLabelPos st p = Some pos /\
    (x pos - x (projectedPosition st p)) * (x pos - x (projectedPosition st p))
    + (y pos - y (projectedPosition st p)) * (y pos - y (projectedPosition st p))
    <= 25 * 25.
Proof.
  pose proof (labelPositions_get_smart st p Hunique Hin Hauto) as Hget.
  cbv zeta in Hget.
  eexists. split; [exact Hget|]. split.
  - unfold renderedLabelPos.
    now rewrite (projectedPoints_get st p Hunique Hin), Hget.
  - cbn [x y].
    match goal with
    | |- context [getSmartLabelDirection ?a ?b ?c] =>
        pose proof (getSmartLabelDirection_norm a b c) as Hle;
        set (d := getSmartLabelDirection a b c) in *
    end.
    nra.
Qed.

Lemma label_within_standard_distance_witness :
  exists pos,
    map_get String.eqb (labelPositions flatCanvas) "C" = Some pos /\
    renderedLabelPos flatCanvas pointC = Some pos /\
    (x pos - x (projectedPosition flatCanvas pointC))
    * (x pos - x (projectedPosition flatCanvas pointC))
    + (y pos - y (projectedPosition flatCanvas pointC))
      * (y pos - y (projectedPosition flatCanvas pointC))
    <= 25 * 25.
Proof.
  apply (label_within_standard_distance flatCanvas pointC).
  - exact triangle_ids_unique.
  - cbn. right. right. now left.
  - reflexivity.
Defined.

(** X5. The legacy [getLabelPosition] puts the label at distance
    [|offset|] from the point, on the ray from the centre through the
    point; when the point is the centre itself it falls back to the
    diagonal (x + offset, y - offset). *)
Theorem getLabelPosition_distance (point center : Point2D) (offset : R) :
  (distance2D point center = 0 ->
   getLabelPosition point center offset
   = {| x := x point + offset; y := y point - offset |}) /\
  (0 < distance2D point center ->
   getLabelPosition point center offset
   = {| x := x point + (x point - x center) / distance2D point center * offset;
        y := y point + (y point - y center) / distance2D point center * offset |}
   /\ distance2D (getLabelPosition point center offset) point = Rabs offset).
Proof.
  unfold getLabelPosition, distance2D, Math_hypot.
  set (dx := x point - x center). set (dy := y point - y center).
  set (L := sqrt (dx * dx + dy * dy)).
  assert (HL2 : L * L = dx * dx + dy * dy)
    by (apply sqrt_sqrt, sum_sq_nonneg).
  split.
  - intros H0. now rewrite (proj2 (Reqb_true L 0) H0).
  - intros Hpos. rewrite (proj2 (Reqb_false L 0)) by lra.
    split; [reflexivity|]. cbn [x y].
    replace ((x point + dx / L * offset - x point)
             * (x point + dx / L * offset - x point)
             + (y point + dy / L * offset - y point)
               * (y point + dy / L * offset - y point))
      with (offset * offset).
    + rewrite <- (sqrt_Rsqr_abs offset). reflexivity.
    + transitivity ((dx * dx + dy * dy) / (L * L) * (offset * offset)).
      * rewrite <- HL2. field. lra.
      * field. lra.
Qed.

Lemma getLabelPosition_distance_witness :
  getLabelPosition (mkPoint2D 1 1) (mkPoint2D 1 1) 20
  = {| x := 1 + 20; y := 1 - 20 |}.
Proof.
  apply (proj1 (getLabelPosition_distance (mkPoint2D 1 1) (mkPoint2D 1 1) 20)).
  unfold distance2D, Math_hypot. cbn [x y].
  replace ((1 - 1) * (1 - 1) + (1 - 1) * (1 - 1)) with 0 by ring.
  apply sqrt_0.
Defined.

(** ** Points on an arm and angle markers *)

Lemma sum_sq3_nonneg (a b c : R) : 0 <= a * a + b * b + c * c.
Proof.
  pose proof (Rle_0_sqr a) as Ha. pose proof (Rle_0_sqr b) as Hb.
  pose proof (Rle_0_sqr c) as Hc. unfold Rsqr in *. lra.
Qed.

Lemma getPointOnVector_cases (start end_ : Point3D) (distance : R)
    (rnd : string) :
  (distance3D end_ start = 0 ->
   getPointOnVector start end_ distance rnd = start) /\
  (0 < distance3D end_ start ->
   let q := getPointOnVector start end_ distance rnd in
   let t := distance / distance3D end_ start in
   x3 q = x3 start + t * (x3 end_ - x3 start) /\
   y3 q = y3 start + t * (y3 end_ - y3 start) /\
   z3 q = z3 start + t * (z3 end_ - z3 start) /\
   distance3D q start = Rabs distance /\
   id q = String.append "temp_" rnd).
Proof.
  unfold getPointOnVector, distance3D.
  set (dx := x3 end_ - x3 start). set (dy := y3 end_ - y3 start).
  set (dz := z3 end_ - z3 start).
  set (L := sqrt (dx * dx + dy * dy + dz * dz)).
  assert (HL2 : L * L = dx * dx + dy * dy + dz * dz)
    by (apply sqrt_sqrt, sum_sq3_nonneg).
  split.
  - intros H0. now rewrite (proj2 (Reqb_true L 0) H0).
  - intros Hpos. rewrite (proj2 (Reqb_false L 0)) by lra.
    cbv zeta. cbn [x3 y3 z3 id].
    repeat split; try (field; lra).
    replace ((x3 start + dx * (distance / L) - x3 start)
             * (x3 start + dx * (distance / L) - x3 start)
             + (y3 start + dy * (distance / L) - y3 start)
               * (y3 start + dy * (distance / L) - y3 start)
             + (z3 start + dz * (distance / L) - z3 start)
               * (z3 start + dz * (distance / L) - z3 start))
      with (distance * distance).
    + rewrite <- (sqrt_Rsqr_abs distance). reflexivity.
    + transitivity
        ((dx * dx + dy * dy + dz * dz) / (L * L) * (distance * distance)).
      * rewrite <- HL2. field. lra.
      * field. lra.
Qed.

(** X6. [getPointOnVector] returns the start point itself when the two
    points coincide; otherwise it returns the point of the line from
    [start] towards [end_] that lies at distance [|distance|] from
    [start], under a fresh id. *)
Theorem getPointOnVector_on_ray (start end_ : Point3D) (distance : R)
    (rnd : string) :
  (distance3D end_ start = 0 ->
   getPointOnVector start end_ distance rnd = start) /\
  (0 < distance3D end_ start ->
   let q := getPointOnVector start end_ distance rnd in
   let t := distance / distance3D end_ start in
   x3 q = x3 start + t * (x3 end_ - x3 start) /\
   y3 q = y3 start + t * (y3 end_ - y3 start) /\
   z3 q = z3 start + t * (z3 end_ - z3 start) /\
   distance3D q start = Rabs distance /\
   id q = String.append "temp_" rnd).
Proof.
  destruct (getPointOnVector_cases start end_ distance rnd) as [Hsame Hray].
  split.
  - exact Hsame.
  - intros Hpos. exact (Hray Hpos).
Qed.

Lemma getPointOnVector_on_ray_witness :
  getPointOnVector pointA pointA 0.4 "0.5" = pointA.
Proof.
  apply (proj1 (getPointOnVector_on_ray pointA pointA 0.4 "0.5")).
  unfold distance3D. cbn [x3 y3 z3 pointA].
  replace ((0 - 0) * (0 - 0) + (0 - 0) * (0 - 0) + (0 - 0) * (0 - 0))
    with 0 by ring.
  apply sqrt_0.
Defined.

Lemma armLength_distance3D (center p : Point3D) :
  armLength center p = distance3D p center.
Proof. unfold armLength, distance3D. f_equal. ring. Qed.

Lemma armLength_nonneg (center p : Point3D) : 0 <= armLength center p.
Proof. unfold armLength. apply sqrt_pos. Qed.

(** X7. The size of an angle marker is never negative, never more than
    0.4 model units and never more than a quarter of either arm; so each
    of its arm points lies on its arm, at most a quarter of the way from
    the vertex. *)
Theorem markerSize_bounds (center p1 p2 : Point3D) :
  0 <= markerSize center p1 p2 /\
  markerSize center p1 p2 <= 0.4 /\
  markerSize center p1 p2 <= armLength center p1 * 0.25 /\
  markerSize center p1 p2 <= armLength center p2 * 0.25 /\
  (forall rnd, 0 < armLength center p1 ->
     distance3D (markerArmPoint center p1 p2 p1 rnd) center
     = markerSize center p1 p2) /\
  (forall rnd, 0 < armLength center p2 ->
     distance3D (markerArmPoint center p1 p2 p2 rnd) center
     = markerSize center p1 p2).
Proof.
  pose proof (armLength_nonneg center p1) as H1.
  pose proof (armLength_nonneg center p2) as H2.
  assert (Hb : 0 <= markerSize center p1 p2 /\
               markerSize center p1 p2 <= 0.4 /\
               markerSize center p1 p2 <= armLength center p1 * 0.25 /\
               markerSize center p1 p2 <= armLength center p2 * 0.25).
  { unfold markerSize, Math_min, Rmin.
    destruct (Rle_dec 0.4 (armLength center p1 * 0.25));
      match goal with
      | |- context [Rle_dec ?a ?b] => destruct (Rle_dec a b)
      end; lra. }
  destruct Hb as (Hb0 & Hb1 & Hb2 & Hb3).
  repeat split; try assumption; intros rnd Hpos; unfold markerArmPoint;
    rewrite armLength_distance3D in Hpos;
    destruct (proj2 (getPointOnVector_cases center _ (markerSize center p1 p2)
                       rnd) Hpos) as (_ & _ & _ & Hd & _);
    rewrite Hd; now apply Rabs_right, Rle_ge.
Qed.

Lemma markerSize_bounds_witness :
  distance3D (markerArmPoint pointA pointB pointC pointB "0.5") pointA
  = markerSize pointA pointB pointC.
Proof.
  apply (proj1 (proj2 (proj2 (proj2 (proj2
           (markerSize_bounds pointA pointB pointC)))))).
  unfold armLength. cbn [x3 y3 z3 pointA pointB].
  replace ((3 - 0) ^ 2 + (0 - 0) ^ 2 + (0 - 0) ^ 2) with (3 * 3) by ring.
  rewrite sqrt_square; lra.
Defined.

(** ** Projection *)

(** X8. In the flat view of a 2D document (both angles zero) the depth of
    a point plays no role, and its projected position is the screen image,
    by [toScreen], of the world point (x, -y): the figure and the freehand
    strokes share one pan-and-zoom transform. *)
Theorem flat_projection_is_toScreen (st : Canvas) (p : Point3D)
    (HX : angleX st = 0) (HY : angleY st = 0) :
  projectedPosition st p = toScreen st (x3 p) (- y3 p).
Proof.
  rewrite (projectedPosition_flat st p HX HY). unfold toScreen.
  f_equal; ring.
Qed.

Lemma flat_projection_is_toScreen_witness :
  projectedPosition flatCanvas pointB = toScreen flatCanvas 3 (- 0).
Proof.
  apply (flat_projection_is_toScreen flatCanvas pointB); reflexivity.
Defined.

(** X9. The projection never stretches: the screen distance between the
    images of two points is at most [|scale|] times their distance in
    model space. *)
Theorem projectPoint_contracts (p q : Point3D)
    (angleX angleY scale canvasWidth canvasHeight : R) :
  distance2D (projectPoint p angleX angleY scale canvasWidth canvasHeight)
    (projectPoint q angleX angleY scale canvasWidth canvasHeight)
  <= Rabs scale * distance3D p q.
Proof.
  unfold distance2D, Math_hypot, distance3D, projectPoint. cbn [x y].
  set (cY := cos (angleY * PI / 180)). set (sY := sin (angleY * PI / 180)).
  set (cX := cos (angleX * PI / 180)). set (sX := sin (angleX * PI / 180)).
  assert (HY : sY * sY + cY * cY = 1)
    by (pose proof (sin2_cos2 (angleY * PI / 180)) as H; unfold Rsqr in H;
        exact H).
  assert (HX : sX * sX + cX * cX = 1)
    by (pose proof (sin2_cos2 (angleX * PI / 180)) as H; unfold Rsqr in H;
        exact H).
  set (dx := x3 p - x3 q). set (dy := y3 p - y3 q). set (dz := z3 p - z3 q).
  set (rx := dx * cY - dz * sY).
  set (rz := dx * sY + dz * cY).
  set (ry := dy * cX - rz * sX).
  set (rd := dy * sX + rz * cX).
  assert (Hnorm : rx * rx + ry * ry + rd * rd = dx * dx + dy * dy + dz * dz).
  { assert (H1 : rx * rx + rz * rz = dx * dx + dz * dz).
    { unfold rx, rz.
      replace (dx * dx + dz * dz)
        with ((dx * dx + dz * dz) * (sY * sY + cY * cY))
        by (rewrite HY; ring).
      ring. }
    assert (H2 : ry * ry + rd * rd = dy * dy + rz * rz).
    { unfold ry, rd.
      replace (dy * dy + rz * rz)
        with ((dy * dy + rz * rz) * (sX * sX + cX * cX))
        by (rewrite HX; ring).
      ring. }
    lra. }
  rewrite <- (sqrt_Rsqr_abs scale), <- sqrt_mult_alt by apply Rle_0_sqr.
  apply sqrt_le_1_alt. unfold Rsqr. rewrite <- Hnorm.
  match goal with
  | |- ?a + ?b <= _ =>
      replace a with ((scale * rx) * (scale * rx)) by (unfold rx, dx, dz; ring);
      replace b with ((scale * ry) * (scale * ry))
        by (unfold ry, rz, dx, dy, dz; ring)
  end.
  pose proof (Rle_0_sqr (scale * rd)) as Hd. unfold Rsqr in Hd. nra.
Qed.

Lemma radians_turn (a : R) : (a + 360) * PI / 180 = a * PI / 180 + 2 * PI.
Proof. field. Qed.

Lemma cos_turn (a : R) : cos (a + 2 * PI) = cos a.
Proof. rewrite cos_plus, cos_2PI, sin_2PI. ring. Qed.

Lemma sin_turn (a : R) : sin (a + 2 * PI) = sin a.
Proof. rewrite sin_plus, cos_2PI, sin_2PI. ring. Qed.

(** X10. A full turn changes nothing: adding 360 degrees to either angle
    gives the same projection, so the wrap of the auto-rotation from 359
    to 0 continues the motion without a jump. *)
Theorem projectPoint_full_turn (p : Point3D)
    (angleX angleY scale canvasWidth canvasHeight : R) :
  projectPoint p (angleX + 360) angleY scale canvasWidth canvasHeight
  = projectPoint p angleX angleY scale canvasWidth canvasHeight /\
  projectPoint p angleX (angleY + 360) scale canvasWidth canvasHeight
  = projectPoint p angleX angleY scale canvasWidth canvasHeight.
Proof.
  unfold projectPoint.
  rewrite !radians_turn, !cos_turn, !sin_turn.
  split; reflexivity.
Qed.

(** ** Edges under the pointer *)

Lemma squares_zero (a b : R) : a * a + b * b = 0 -> a = 0 /\ b = 0.
Proof. intros H. split; nra. Qed.

Lemma segmentDistance_nearest (p1 p2 : Point2D) (cx cy t : R) :
  0 <= t <= 1 ->
  segmentDistance p1 p2 cx cy
  <= distance2D {| x := cx; y := cy |} (segmentPoint p1 p2 t).
Proof.
  intros Ht.
  destruct (segmentDistance_clamped p1 p2 cx cy) as [Hs Heq].
  cbv zeta in Hs, Heq. rewrite Heq.
  unfold distance2D, Math_hypot, segmentPoint. cbn [x y].
  set (C := x p2 - x p1) in *. set (D := y p2 - y p1) in *.
  set (A := cx - x p1). set (B := cy - y p1).
  apply sqrt_le_1_alt.
  destruct (Reqb (C * C + D * D) 0) eqn:E.
  - apply Reqb_true in E. destruct (squares_zero _ _ E) as [-> ->].
    right. ring.
  - apply Reqb_false in E.
    assert (HL : 0 < C * C + D * D).
    { pose proof (sum_sq_nonneg C D). lra. }
    set (L := C * C + D * D) in *.
    set (q := ((cx - x p1) * C + (cy - y p1) * D) / L) in *.
    assert (Hdot : A * C + B * D = q * L).
    { unfold q, A, B. field. lra. }
    set (s := Rmax 0 (Rmin 1 q)) in *.
    assert (Hgap : (cx - (x p1 + t * C)) * (cx - (x p1 + t * C))
                   + (cy - (y p1 + t * D)) * (cy - (y p1 + t * D))
                   - ((cx - (x p1 + s * C)) * (cx - (x p1 + s * C))
                      + (cy - (y p1 + s * D)) * (cy - (y p1 + s * D)))
                   = L * (t - s) * (t + s - 2 * q)).
    { transitivity ((t * t - s * s) * L - 2 * (t - s) * (A * C + B * D)).
      - unfold L, A, B. ring.
      - rewrite Hdot. ring. }
    assert (Hsign : 0 <= (t - s) * (t + s - 2 * q)).
    { destruct (Rle_dec 1 q) as [H1|H1].
      - assert (Hs1 : s = 1).
        { unfold s. rewrite Rmin_left by lra. apply Rmax_right. lra. }
        rewrite Hs1.
        replace ((t - 1) * (t + 1 - 2 * q))
          with ((1 - t) * (2 * q - 1 - t)) by ring.
        apply Rmult_le_pos; lra.
      - destruct (Rle_dec 0 q) as [H0|H0].
        + assert (Hsq : s = q).
          { unfold s. rewrite Rmin_right by lra. apply Rmax_right. lra. }
          rewrite Hsq.
          replace ((t - q) * (t + q - 2 * q)) with ((t - q) * (t - q))
            by ring.
          apply Rle_0_sqr.
        + assert (Hs0 : s = 0).
          { unfold s. rewrite Rmin_right by lra. apply Rmax_left. lra. }
          rewrite Hs0.
          replace ((t - 0) * (t + 0 - 2 * q)) with (t * (t - 2 * q)) by ring.
          apply Rmult_le_pos; lra. }
    assert (Hprod : 0 <= L * ((t - s) * (t + s - 2 * q)))
      by (apply Rmult_le_pos; lra).
    rewrite Rmult_assoc in Hgap.
    change (Rmax 0 (Rmin 1 ((A * C + B * D) / L))) with s. lra.
Qed.

(** X11. The distance the edge test measures is the distance to the
    nearest point of the segment, so an edge whose endpoints are projected
    is hit exactly when some point of its segment lies less than 15 pixels
    from the pointer. *)
Theorem edgeHit_iff_near_segment (pp : StrMap) (cx cy : R) (e : Edge)
    (p1 p2 : Point2D)
    (Hfrom : map_get String.eqb pp (edge_from e) = Some p1)
    (Hto : map_get String.eqb pp (edge_to e) = Some p2) :
  (forall t, 0 <= t <= 1 ->
     segmentDistance p1 p2 cx cy
     <= distance2D {| x := cx; y := cy |} (segmentPoint p1 p2 t)) /\
  (edgeHit pp cx cy e = true <->
   exists t, 0 <= t <= 1 /\
     distance2D {| x := cx; y := cy |} (segmentPoint p1 p2 t) < 15).
Proof.
  split; [intros t Ht; now apply segmentDistance_nearest|].
  rewrite (edgeHit_region pp cx cy e p1 p2 Hfrom Hto). split.
  - intros Hlt.
    destruct (segmentDistance_clamped p1 p2 cx cy) as [Hs Heq].
    cbv zeta in Hs, Heq. eexists. split; [exact Hs|].
    unfold distance2D, segmentPoint. cbn [x y]. now rewrite <- Heq.
  - intros (t & Ht & Hlt).
    pose proof (segmentDistance_nearest p1 p2 cx cy t Ht). lra.
Qed.

Lemma edgeHit_iff_near_segment_witness :
  edgeHit [("A", mkPoint2D 400 300); ("B", mkPoint2D 475 300)] 430 310
    (mkEdge "edge_AB" "A" "B") = true.
Proof.
  apply (proj2 (edgeHit_iff_near_segment
                  [("A", mkPoint2D 400 300); ("B", mkPoint2D 475 300)]
                  430 310 (mkEdge "edge_AB" "A" "B")
                  (mkPoint2D 400 300) (mkPoint2D 475 300) eq_refl eq_refl)).
  exists (2 / 5). split; [lra|].
  unfold distance2D, Math_hypot, segmentPoint. cbn [x y].
  replace ((430 - (400 + 2 / 5 * (475 - 400)))
           * (430 - (400 + 2 / 5 * (475 - 400)))
           + (310 - (300 + 2 / 5 * (300 - 300)))
             * (310 - (300 + 2 / 5 * (300 - 300))))
    with (10 * 10) by field.
  rewrite sqrt_square; lra.
Defined.

(** ** Invariants of the component *)

(** Splits on every [if] and [match] of a handler's body. *)
Ltac break_match :=
  repeat match goal with
         | |- context [match ?c with _ => _ end] => destruct c eqn:?
         end.

Ltac unfold_handlers :=
  unfold handlePointerDown, pointerDownDispatch, handlePointerMove, dragLabel,
    handlePointerUp, onWheel, zoomInButton, zoomOutButton, autoRotateButton,
    panModeButton, drawModeButton, handleKeyDownSpace, handleKeyUpSpace,
    autoRotateTick, resetView, centerView;
  cbv zeta.

Lemma run_invariant (Inv : Canvas -> Prop) :
  (forall st ev, Inv st -> Inv (step st ev)) ->
  forall evs st, Inv st -> Inv (run st evs).
Proof.
  intros Hstep. induction evs as [|ev evs IH]; intros st Hst; [exact Hst|].
  cbn [run fold_left]. apply (IH (step st ev)). now apply Hstep.
Qed.

Lemma step_toolsExclusive (st : Canvas) (ev : Event) :
  toolsExclusive st -> toolsExclusive (step st ev).
Proof.
  unfold toolsExclusive. intros H.
  destruct ev; cbn [step]; unfold_handlers; break_match; cbn;
    try exact H; try reflexivity;
    try (destruct (isDrawingMode st); reflexivity || discriminate).
Qed.

Lemma step_singleSelection (st : Canvas) (ev : Event) :
  singleSelection st -> singleSelection (step st ev).
Proof.
  unfold singleSelection. intros H.
  destruct ev; cbn [step]; unfold_handlers; break_match; cbn;
    try exact H; auto.
Qed.

(** X12. However the events follow one another, the draw tool and the pan
    tool are never on together, and at most one element is selected. *)
Theorem tools_exclusive_single_selection (st : Canvas) (evs : list Event)
    (Htools : toolsExclusive st) (Hsel : singleSelection st) :
  toolsExclusive (run st evs) /\ singleSelection (run st evs).
Proof.
  split.
  - now apply (run_invariant toolsExclusive step_toolsExclusive).
  - now apply (run_invariant singleSelection step_singleSelection).
Qed.

Lemma tools_exclusive_single_selection_witness :
  toolsExclusive
    (run (initialCanvas triangleDocument (mkDimensions 800 600) (mkRect 0 0))
       [ToggleDrawMode; TogglePanMode; PointerDown (primaryAt 1 400 300)]) /\
  singleSelection
    (run (initialCanvas triangleDocument (mkDimensions 800 600) (mkRect 0 0))
       [ToggleDrawMode; TogglePanMode; PointerDown (primaryAt 1 400 300)]).
Proof.
  apply tools_exclusive_single_selection.
  - reflexivity.
  - unfold singleSelection. cbn. lia.
Defined.

(** ** The scale *)

Lemma Math_min_max_clamp (s : R) :
  Math_min (Math_max 5 s) 200 = clampScale s.
Proof. reflexivity. Qed.

Lemma step_scale_positive (st : Canvas) (ev : Event) :
  0 < scale st -> 0 < scale (step st ev).
Proof.
  intros H.
  destruct ev; cbn [step]; unfold_handlers; break_match; cbn;
    try exact H;
    try (rewrite Math_min_max_clamp;
         match goal with
         | |- 0 < clampScale ?s => pose proof (clampScale_range s); lra
         end);
    try lra.
  unfold Math_min, Rmin. destruct (Rle_dec _ 60); lra.
Qed.

(** X13. The scale stays positive under every sequence of events, zoom
    buttons included; so in every state reached from a view of positive
    scale, [toWorld] and [toScreen] are inverse to each other. *)
Theorem scale_stays_positive (st : Canvas) (evs : list Event)
    (Hpos : 0 < scale st) :
  0 < scale (run st evs) /\
  (forall p,
     toWorld (run st evs) (x (toScreen (run st evs) (x p) (y p)))
       (y (toScreen (run st evs) (x p) (y p))) = p /\
     toScreen (run st evs) (x (toWorld (run st evs) (x p) (y p)))
       (y (toWorld (run st evs) (x p) (y p))) = p).
Proof.
  assert (H : 0 < scale (run st evs))
    by now apply (run_invariant (fun s => 0 < scale s) step_scale_positive).
  split; [exact H|]. intros p.
  split; [apply toWorld_toScreen | apply toScreen_toWorld]; lra.
Qed.

Lemma scale_stays_positive_witness :
  0 < scale (run flatCanvas [ZoomOut; ZoomOut; Wheel 10000; ZoomOut]).
Proof.
  apply (proj1 (scale_stays_positive flatCanvas
                  [ZoomOut; ZoomOut; Wheel 10000; ZoomOut] ltac:(cbn; lra))).
Defined.

Lemma step_scale_in_range (st : Canvas) (ev : Event) :
  isZoomButton ev = false ->
  5 <= scale st <= 200 -> 5 <= scale (step st ev) <= 200.
Proof.
  intros Hev H.
  destruct ev; try discriminate Hev; cbn [step]; unfold_handlers;
    break_match; cbn;
    try exact H;
    try (rewrite Math_min_max_clamp; apply clampScale_range);
    try lra.
  unfold Math_min, Rmin. destruct (Rle_dec _ 60); lra.
Qed.

(** X14. Every event other than a press of a zoom button keeps the scale
    in [5, 200]: wheel, pinch, view reset and centring never leave the
    range. *)
Theorem scale_in_range_without_zoom_buttons (st : Canvas) (evs : list Event)
    (Hrange : 5 <= scale st <= 200)
    (Hnozoom : forallb (fun ev => negb (isZoomButton ev)) evs = true) :
  5 <= scale (run st evs) <= 200.
Proof.
  revert st Hrange; induction evs as [|ev evs IH]; intros st Hrange;
    [exact Hrange|].
  cbn [forallb] in Hnozoom. apply andb_true_iff in Hnozoom.
  destruct Hnozoom as [Hev Hevs]. apply negb_true_iff in Hev.
  cbn [run fold_left]. apply (IH Hevs (step st ev)).
  now apply step_scale_in_range.
Qed.

Lemma scale_in_range_without_zoom_buttons_witness :
  5 <= scale (run flatCanvas [Wheel (-10000); CenterView; Wheel 3]) <= 200.
Proof.
  apply scale_in_range_without_zoom_buttons.
  - cbn. lra.
  - reflexivity.
Defined.

(** X15. Outside draw mode, with the scale in [5, 200], turning the wheel
    up (negative [deltaY]) never zooms out and turning it down never zooms
    in; in draw mode the wheel does nothing. *)
Theorem wheel_direction (st : Canvas) (deltaY : R)
    (Hrange : 5 <= scale st <= 200) :
  (isDrawingMode st = false -> deltaY <= 0 ->
   scale st <= scale (onWheel st deltaY)) /\
  (isDrawingMode st = false -> 0 <= deltaY ->
   scale (onWheel st deltaY) <= scale st) /\
  (isDrawingMode st = true -> onWheel st deltaY = st).
Proof.
  unfold onWheel. repeat split; intros Hmode; rewrite Hmode; cbn;
    try reflexivity; intros Hd;
    unfold Math_min, Math_max, Rmin, Rmax;
    destruct (Rle_dec 5 _); destruct (Rle_dec _ 200); nra.
Qed.

Lemma wheel_direction_witness :
  scale flatCanvas <= scale (onWheel flatCanvas (-100)).
Proof.
  apply (proj1 (wheel_direction flatCanvas (-100) ltac:(cbn; lra)));
    [reflexivity | lra].
Defined.

(** ** The active pointers *)

Section PointerMap.
Context {V : Type}.
Implicit Types (m : list (Z * V)) (k : Z) (v : V).

Lemma pmap_get_set_same m k v :
  map_get Z.eqb (map_set Z.eqb m k v) k = Some v.
Proof.
  induction m as [|[k' v'] m IH]; cbn.
  - now rewrite Z.eqb_refl.
  - destruct (Z.eqb k k') eqn:E; cbn; [now rewrite Z.eqb_refl | now rewrite E].
Qed.

Lemma pmap_set_keys m k v :
  map fst (map_set Z.eqb m k v)
  = if map_has Z.eqb m k then map fst m else map fst m ++ [k].
Proof.
  unfold map_has. induction m as [|[k' v'] m IH]; cbn; [reflexivity|].
  destruct (Z.eqb k k') eqn:E; cbn.
  - apply Z.eqb_eq in E. now subst.
  - rewrite IH. now destruct (map_get Z.eqb m k).
Qed.

Lemma pmap_has_in m k : map_has Z.eqb m k = true <-> In k (map fst m).
Proof.
  unfold map_has. induction m as [|[k' v'] m IH]; cbn; [easy|].
  destruct (Z.eqb k k') eqn:E.
  - apply Z.eqb_eq in E. subst. intuition.
  - apply Z.eqb_neq in E. rewrite IH. intuition congruence.
Qed.

Lemma pmap_set_size m k v :
  (map_size m <= map_size (map_set Z.eqb m k v))%nat /\
  (map_has Z.eqb m k = true -> map_size (map_set Z.eqb m k v) = map_size m).
Proof.
  unfold map_size.
  rewrite <- (length_map fst (map_set Z.eqb m k v)), <- (length_map fst m).
  rewrite pmap_set_keys.
  destruct (map_has Z.eqb m k); [split; [lia | reflexivity]|].
  rewrite length_app. cbn. split; [lia | discriminate].
Qed.

Lemma pmap_set_unique m k v :
  NoDup (map fst m) -> NoDup (map fst (map_set Z.eqb m k v)).
Proof.
  intros Hnd. rewrite pmap_set_keys.
  destruct (map_has Z.eqb m k) eqn:E; [exact Hnd|].
  apply NoDup_app; [exact Hnd | repeat constructor; easy|].
  intros a Ha [<-|[]]. apply pmap_has_in in Ha. congruence.
Qed.

Lemma pmap_delete_keys m k :
  NoDup (map fst m) ->
  NoDup (map fst (map_delete Z.eqb m k)) /\
  ~ In k (map fst (map_delete Z.eqb m k)) /\
  (forall a, In a (map fst (map_delete Z.eqb m k)) -> In a (map fst m)).
Proof.
  induction m as [|[k' v'] m IH]; cbn; intros Hnd.
  - repeat split; [constructor | easy | easy].
  - inversion Hnd as [|? ? Hnotin Hnd']; subst.
    destruct (IH Hnd') as (IH1 & IH2 & IH3).
    destruct (Z.eqb k k') eqn:E.
    + apply Z.eqb_eq in E. subst. repeat split; auto.
    + apply Z.eqb_neq in E. cbn. repeat split.
      * constructor; [|exact IH1]. intros Hin. apply Hnotin. now apply IH3.
      * intros [Heq|Hin]; [congruence | now apply IH2].
      * intros a [Ha|Ha]; [now left | right; now apply IH3].
Qed.
End PointerMap.

Lemma step_pointerIdsUnique (st : Canvas) (ev : Event) :
  pointerIdsUnique st -> pointerIdsUnique (step st ev).
Proof.
  unfold pointerIdsUnique. intros H.
  pose proof (fun k v => pmap_set_unique (pointersRef st) k v H) as Hset.
  pose proof (fun k => proj1 (pmap_delete_keys (pointersRef st) k H)) as Hdel.
  destruct ev; cbn [step]; unfold_handlers; break_match; cbn;
    try exact H; try apply Hset; try apply Hdel.
Qed.

(** X16. The record of active pointers is kept faithfully: no pointer id
    is ever recorded twice; after a pointer-down the pointer is recorded at
    the position of the event; and after a pointer-up, leave or cancel it
    is no longer recorded. *)
Theorem active_pointers_bookkeeping (st : Canvas) (evs : list Event)
    (e : PointerEvent) (now : string)
    (Hunique : pointerIdsUnique st) :
  pointerIdsUnique (run st evs) /\
  map_get Z.eqb (pointersRef (handlePointerDown (run st evs) e)) (pointerId e)
  = Some (clientPos e) /\
  map_has Z.eqb (pointersRef (handlePointerUp (run st evs) e now))
    (pointerId e) = false.
Proof.
  assert (H : pointerIdsUnique (run st evs))
    by now apply (run_invariant pointerIdsUnique step_pointerIdsUnique).
  split; [exact H|]. split.
  - unfold handlePointerDown, pointerDownDispatch; cbv zeta.
    break_match; cbn; apply pmap_get_set_same.
  - destruct (pointerUp_fields (run st evs) e now) as (-> & _).
    destruct (pmap_delete_keys (pointersRef (run st evs)) (pointerId e) H)
      as (_ & Hnot & _).
    destruct (map_has Z.eqb _ (pointerId e)) eqn:E; [|reflexivity].
    apply pmap_has_in in E. contradiction.
Qed.

Lemma active_pointers_bookkeeping_witness :
  map_has Z.eqb
    (pointersRef
       (handlePointerUp
          (run flatCanvas [PointerDown (primaryAt 1 0 0);
                           PointerDown (primaryAt 2 100 0)])
          (primaryAt 1 5 5) "1700000000000")) 1%Z
  = false.
Proof.
  apply (active_pointers_bookkeeping flatCanvas
           [PointerDown (primaryAt 1 0 0); PointerDown (primaryAt 2 100 0)]
           (primaryAt 1 5 5) "1700000000000").
  unfold pointerIdsUnique. cbn. constructor.
Defined.

Lemma values_two_size {V : Type} (m : list (Z * V)) (p0 p1 : V) :
  map_values m = [p0; p1] -> map_size m = 2%nat.
Proof.
  unfold map_values, map_size. intros H.
  rewrite <- (length_map snd m), H. reflexivity.
Qed.

Ltac pointer_count :=
  subst;
  repeat match goal with
         | Hv : map_values _ = _ |- _ => unfold map_values in Hv
         | Hv : map snd _ = _ |- _ =>
             apply (f_equal (@length _)) in Hv; rewrite length_map in Hv
         | Himp : ?P -> _, HP : ?P |- _ => specialize (Himp HP)
         | Hlt : (_ <? 2)%nat = false |- _ => apply Nat.ltb_ge in Hlt
         | Hlt : (_ <=? 1)%nat = false |- _ => apply Nat.leb_gt in Hlt
         end;
  unfold map_size in *; cbn [length] in *; lia.

Lemma step_pinchSeeded (st : Canvas) (ev : Event) :
  pinchSeeded st -> pinchSeeded (step st ev).
Proof.
  unfold pinchSeeded. intros H.
  destruct ev; cbn [step]; try (unfold_handlers; break_match; cbn; exact H).
  - (* pointer down *)
    pose proof (proj1 (pmap_set_size (pointersRef st) (pointerId e)
                         (mkPoint2D (clientX e) (clientY e)))) as Hle.
    unfold handlePointerDown, pointerDownDispatch; cbv zeta.
    break_match; cbn in *; intros Hsome;
      try (specialize (H Hsome)); pointer_count.
  - (* pointer move *)
    unfold handlePointerMove, dragLabel, resetView; cbv zeta.
    break_match; cbn in *;
      pose proof (proj2 (pmap_set_size (pointersRef st) (pointerId e)
                           (mkPoint2D (clientX e) (clientY e)))) as Hsame;
      intros Hsome;
      try (specialize (H Hsome)); pointer_count.
  - (* pointer up *)
    unfold handlePointerUp; cbv zeta.
    break_match; cbn in *; intros Hsome; try congruence; pointer_count.
Qed.

(** X17. A pinch distance is on record only while at least two pointers
    are down: as soon as fewer than two remain it is cleared, so a new
    two-finger gesture never starts from the distance of an old one. *)
Theorem pinch_distance_needs_two_pointers (st : Canvas) (evs : list Event)
    (Hseeded : pinchSeeded st) :
  pinchSeeded (run st evs) /\
  ((map_size (pointersRef (run st evs)) < 2)%nat ->
   prevPinchDistRef (run st evs) = None).
Proof.
  assert (H : pinchSeeded (run st evs))
    by now apply (run_invariant pinchSeeded step_pinchSeeded).
  split; [exact H|]. intros Hlt.
  destruct (prevPinchDistRef (run st evs)) as [d|] eqn:E; [|reflexivity].
  unfold pinchSeeded in H. rewrite E in H.
  assert (2 <= map_size (pointersRef (run st evs)))%nat
    by (apply H; discriminate).
  lia.
Qed.

Lemma pinch_distance_needs_two_pointers_witness :
  prevPinchDistRef
    (run flatCanvas
       [KeyDownSpace false; PointerDown (primaryAt 1 0 0);
        PointerDown (primaryAt 2 100 0);
        PointerUp (primaryAt 2 100 0) "1700000000000"])
  = None.
Proof.
  apply (pinch_distance_needs_two_pointers flatCanvas
           [KeyDownSpace false; PointerDown (primaryAt 1 0 0);
            PointerDown (primaryAt 2 100 0);
            PointerUp (primaryAt 2 100 0) "1700000000000"]).
  - unfold pinchSeeded. cbn. congruence.
  - cbn. lia.
Defined.

(** ** What the canvas does to the document *)

Lemma figure_after_offset (pts : list Point3D) (pid : string) (off : Point2D) :
  map (fun p => (id p, x3 p, y3 p, z3 p, label p))
    (map (fun p =>
            if String.eqb (id p) pid then
              mkPoint3D (id p) (x3 p) (y3 p) (z3 p) (label p) (Some off)
            else p) pts)
  = map (fun p => (id p, x3 p, y3 p, z3 p, label p)) pts.
Proof.
  rewrite map_map. apply map_ext. intros p.
  now destruct (String.eqb (id p) pid).
Qed.

Lemma step_figure (st : Canvas) (ev : Event) :
  figureOf (data (step st ev)) = figureOf (data st).
Proof.
  unfold figureOf.
  destruct ev; cbn [step]; unfold_handlers; break_match; cbn;
    try reflexivity.
  all: try (now rewrite figure_after_offset).
  all: match goal with
       | H : points (data _) = _ |- _ => now rewrite H
       end.
Qed.

Lemma step_drawings (st : Canvas) (ev : Event) :
  drawings (data (step st ev)) = drawings (data st) \/
  exists s,
    drawings (data (step st ev)) = Some (finalizedStrokes st ++ [s]).
Proof.
  destruct ev; cbn [step]; unfold_handlers; break_match; cbn in *;
    try (left; reflexivity);
    right; eexists; unfold finalizedStrokes;
    match goal with
    | H : drawings (data _) = _ |- _ => rewrite H; reflexivity
    end.
Qed.

Lemma step_strokes (st : Canvas) (ev : Event) :
  exists suffix,
    finalizedStrokes (step st ev) = finalizedStrokes st ++ suffix.
Proof.
  destruct (step_drawings st ev) as [H|[s H]].
  - exists []. unfold finalizedStrokes. now rewrite H, app_nil_r.
  - exists [s]. unfold finalizedStrokes at 1. now rewrite H.
Qed.

(** X18. No event of the canvas adds, removes or moves a point, renames
    it or changes its label, touches an edge or the 2D/3D flag, and none
    removes or alters a finalised stroke: strokes are only appended.  Only
    the eraser button empties the list of strokes, and it leaves the
    figure alone. *)
Theorem figure_frozen_strokes_append_only (st : Canvas) (evs : list Event) :
  figureOf (data (run st evs)) = figureOf (data st) /\
  (exists suffix,
     finalizedStrokes (run st evs) = finalizedStrokes st ++ suffix) /\
  finalizedStrokes (eraserButton st) = [] /\
  figureOf (data (eraserButton st)) = figureOf (data st).
Proof.
  split; [|split; [|split; reflexivity]].
  - revert st; induction evs as [|ev evs IH]; intros st; [reflexivity|].
    cbn [run fold_left]. fold (run (step st ev) evs).
    now rewrite IH, step_figure.
  - revert st; induction evs as [|ev evs IH]; intros st.
    + exists []. now rewrite app_nil_r.
    + cbn [run fold_left]. fold (run (step st ev) evs).
      destruct (IH (step st ev)) as [s2 H2].
      destruct (step_strokes st ev) as [s1 H1].
      exists (s1 ++ s2). now rewrite H2, H1, app_assoc.
Qed.

(** ** Dragging a label *)

(** What [resetView] leaves of a state: the document, and of the view
    only the size of the container. *)
Lemma resetView_data (st : Canvas) : data (resetView st) = data st.
Proof. unfold resetView. cbn. now destruct (gtype (data st)). Qed.

Lemma resetView_view (st : Canvas) :
  panOffset (resetView st) = {| x := 0; y := 0 |} /\
  selectedElements (resetView st) = [] /\
  isDrawingMode (resetView st) = false /\
  isPanMode (resetView st) = false /\
  draggingLabelId (resetView st) = draggingLabelId st /\
  dimensions (resetView st) = dimensions st.
Proof.
  unfold resetView. cbn. destruct (gtype (data st)); cbn; repeat split.
Qed.

Lemma dragLabel_moves_label (st : Canvas) (p : Point3D) (L : Point2D)
    (dx dy : R) :
  NoDup (map id (points (data st))) -> In p (points (data st)) ->
  map_get String.eqb (labelPositions st) (id p) = Some L ->
  let st' := dragLabel st (id p) dx dy in
  let P := projectedPosition st p in
  let P' := projectedPosition (resetView st) p in
  map_get String.eqb (labelPositions st') (id p)
  = Some {| x := x P' + (x L - x P + dx); y := y P' + (y L - y P + dy) |} /\
  map_get String.eqb (projectedPoints st') (id p) = Some P' /\
  figureOf (data st') = figureOf (data st) /\
  scale st' = scale (resetView st) /\
  angleX st' = angleX (resetView st) /\
  angleY st' = angleY (resetView st) /\
  panOffset st' = {| x := 0; y := 0 |} /\
  selectedElements st' = [] /\
  isDrawingMode st' = false /\ isPanMode st' = false /\
  draggingLabelId st' = draggingLabelId st.
Proof.
  intros Hunique Hin HL.
  pose proof (projectedPoints_get st p Hunique Hin) as Hpp.
  assert (Hfind : exists p0,
             find (fun q => String.eqb (id q) (id p)) (points (data st))
             = Some p0).
  { apply (find_some_exists _ _ p Hin). apply String.eqb_refl. }
  destruct Hfind as [p0 Hfind].
  unfold dragLabel. rewrite Hfind, Hpp, HL. cbv zeta.
  set (off := {| x := x L + dx - x (projectedPosition st p);
                 y := y L + dy - y (projectedPosition st p) |}).
  set (newPoints := map _ (points (data st))).
  set (st1 := onDataUpdate _ st).
  set (p' := mkPoint3D (id p) (x3 p) (y3 p) (z3 p) (label p) (Some off)).
  assert (Hids : map id newPoints = map id (points (data st))).
  { unfold newPoints. rewrite map_map. apply map_ext. intros q.
    now destruct (String.eqb (id q) (id p)). }
  assert (Hdata : data (resetView st1) = data st1) by apply resetView_data.
  assert (Hunique' : NoDup (map id (points (data (resetView st1))))).
  { rewrite Hdata. cbn. now rewrite Hids. }
  assert (Hin' : In p' (points (data (resetView st1)))).
  { rewrite Hdata. cbn. unfold newPoints. apply in_map_iff. exists p.
    split; [|exact Hin]. now rewrite String.eqb_refl. }
  assert (Hview : projectedPosition (resetView st1) p'
                  = projectedPosition (resetView st) p).
  { unfold projectedPosition, resetView. cbn.
    now destruct (gtype (data st)). }
  split; [|split; [|split]].
  - pose proof (labelPositions_get_manual (resetView st1) p' off Hunique'
                  Hin' eq_refl) as Hlp.
    change (id p') with (id p) in Hlp. rewrite Hlp, Hview.
    unfold off. cbn [x y]. f_equal. f_equal; ring.
  - pose proof (projectedPoints_get (resetView st1) p' Hunique' Hin') as Hpp'.
    change (id p') with (id p) in Hpp'. now rewrite Hpp', Hview.
  - rewrite Hdata. unfold figureOf. cbn. unfold newPoints.
    now rewrite figure_after_offset.
  - unfold resetView. cbn. now destruct (gtype (data st)).
Qed.

(** X19. While a label is dragged with one pointer, a pointer-move
    writes into the document the old offset of the label from its point
    plus the displacement of the pointer since the previous pointer
    event.  The update replaces the array of points, so the view is reset
    on the same frame (pan zero, default angles and scale, nothing
    selected, both tools off) while the drag goes on: the label is then
    drawn at the position of its point in the reset view plus the new
    offset, and nothing else of the figure changes. *)
Theorem dragged_label_follows_pointer (st : Canvas) (e : PointerEvent)
    (p : Point3D) (L : Point2D) (k : Z) (v : Point2D)
    (Hunique : NoDup (map id (points (data st))))
    (Hin : In p (points (data st)))
    (Hone : pointersRef st = [(k, v)])
    (Hdrag : draggingLabelId st = Some (id p))
    (Hid : id p <> "")
    (Hlabel : map_get String.eqb (labelPositions st) (id p) = Some L) :
  let st' := handlePointerMove st e in
  let dx := clientX e - x (lastPointerPos st) in
  let dy := clientY e - y (lastPointerPos st) in
  let P := projectedPosition st p in
  let P' := projectedPosition (resetView st) p in
  map_get String.eqb (labelPositions st') (id p)
  = Some {| x := x P' + (x L - x P + dx); y := y P' + (y L - y P + dy) |} /\
  map_get String.eqb (projectedPoints st') (id p) = Some P' /\
  figureOf (data st') = figureOf (data st) /\
  scale st' = scale (resetView st) /\
  angleX st' = angleX (resetView st) /\
  angleY st' = angleY (resetView st) /\
  panOffset st' = {| x := 0; y := 0 |} /\
  selectedElements st' = [] /\
  isDrawingMode st' = false /\ isPanMode st' = false /\
  draggingLabelId st' = Some (id p).
Proof.
  cbv zeta.
  assert (Hmove : exists st1,
             handlePointerMove st e
             = dragLabel st1 (id p) (clientX e - x (lastPointerPos st))
                 (clientY e - y (lastPointerPos st)) /\
             data st1 = data st /\ labelPositions st1 = labelPositions st /\
             projectedPosition st1 p = projectedPosition st p /\
             projectedPosition (resetView st1) p
             = projectedPosition (resetView st) p /\
             scale (resetView st1) = scale (resetView st) /\
             angleX (resetView st1) = angleX (resetView st) /\
             angleY (resetView st1) = angleY (resetView st) /\
             draggingLabelId st1 = draggingLabelId st).
  { unfold handlePointerMove, map_has. rewrite Hone. cbn [map_get map_set].
    destruct (Z.eqb (pointerId e) k);
      cbn -[dragLabel labelPositions projectedPosition resetView];
      rewrite ?Hone;
      cbn -[dragLabel labelPositions projectedPosition resetView];
      rewrite Hdrag;
      cbn -[dragLabel labelPositions projectedPosition resetView];
      rewrite (truthy_string_nonempty _ Hid);
      eexists; (split; [reflexivity|]); repeat split;
      try exact Hdrag;
      unfold projectedPosition, resetView; cbn;
      now destruct (gtype (data st)). }
  destruct Hmove
    as (st1 & -> & Hdata & Hlp & Hproj & Hproj' & Hs & Hax & Hay & Hd).
  rewrite <- Hdata in Hunique, Hin. rewrite <- Hlp in Hlabel.
  rewrite <- Hdata, <- Hproj, <- Hproj', <- Hs, <- Hax, <- Hay, <- Hdrag, <- Hd.
  exact (dragLabel_moves_label st1 p L _ _ Hunique Hin Hlabel).
Qed.

Lemma dragged_label_follows_pointer_witness :
  map_get String.eqb
    (labelPositions (handlePointerMove labelDragCanvas (primaryAt 1 407 296)))
    "A"
  = Some {| x := x (projectedPosition (resetView labelDragCanvas) pointA)
                 + (x (projectedPosition labelDragCanvas pointA) + 10
                    - x (projectedPosition labelDragCanvas pointA)
                    + (407 - 400));
            y := y (projectedPosition (resetView labelDragCanvas) pointA)
                 + (y (projectedPosition labelDragCanvas pointA) + -5
                    - y (projectedPosition labelDragCanvas pointA)
                    + (296 - 300)) |}.
Proof.
  apply (dragged_label_follows_pointer labelDragCanvas (primaryAt 1 407 296)
           pointA
           {| x := x (projectedPosition labelDragCanvas pointA) + 10;
              y := y (projectedPosition labelDragCanvas pointA) + -5 |}
           1%Z {| x := 400; y := 300 |}).
  - exact triangle_ids_unique.
  - cbn. now left.
  - reflexivity.
  - reflexivity.
  - discriminate.
  - apply (labelPositions_get_manual labelDragCanvas pointA
             {| x := 10; y := -5 |});
      [exact triangle_ids_unique | cbn; now left | reflexivity].
Defined.

(** ** Panning with one pointer *)

Lemma pointerDown_starts_pan (st : Canvas) (e : PointerEvent) :
  pointersRef st = [] -> draggingLabelId st = None ->
  button e = 1%Z \/ (button e = 0%Z /\ isPanMode st = true) \/
  isSpacePanning st = true ->
  panInProgress st (clientPos e) (handlePointerDown st e) /\
  lastPointerPos (handlePointerDown st e) = clientPos e /\
  selectedElements (handlePointerDown st e) = selectedElements st.
Proof.
  intros Hptr Hdrag Hpan.
  unfold panInProgress, handlePointerDown, pointerDownDispatch, clientPos.
  cbv zeta. rewrite Hptr. cbn -[hitTest].
  destruct ((button e =? 1)%Z || (button e =? 0)%Z && isPanMode st) eqn:Eb.
  - cbn. rewrite Hdrag. repeat split; try ring. now eexists _, _.
  - destruct Hpan as [H1|[[H0 Hm]|Hs]].
    + rewrite H1 in Eb. discriminate Eb.
    + rewrite H0, Hm in Eb. discriminate Eb.
    + cbn. rewrite Hs, !andb_false_r. cbn.
      destruct (isDrawingMode st); cbn; rewrite Hdrag;
        (repeat split; try ring; now eexists _, _).
Qed.

Lemma pointerMove_pans (st0 : Canvas) (start : Point2D) (st : Canvas)
    (e : PointerEvent) :
  panInProgress st0 start st ->
  panInProgress st0 start (handlePointerMove st e) /\
  lastPointerPos (handlePointerMove st e) = clientPos e.
Proof.
  intros (Hpan & Hdrag & (k & v & Hptr) & Hx & Hy).
  unfold panInProgress, handlePointerMove, map_has, clientPos. cbv zeta.
  rewrite Hptr. cbn [map_get map_set].
  destruct (Z.eqb (pointerId e) k); cbn; rewrite ?Hptr; cbn;
    rewrite Hdrag, Hpan; cbn; rewrite andb_false_r; cbn;
    rewrite ?Hptr, ?Hdrag;
    (repeat split; try exact Hpan; try (now eexists _, _);
     try (rewrite ?Hx, ?Hy; ring)).
Qed.

Lemma last_nonempty {A : Type} (l : list A) (a d d' : A) :
  last (a :: l) d = last (a :: l) d'.
Proof.
  revert a; induction l as [|b l IH]; intros a; [reflexivity|].
  change (last (b :: l) d = last (b :: l) d'). apply IH.
Qed.

Lemma pointerMoves_pan (st0 : Canvas) (start : Point2D)
    (es : list PointerEvent) :
  forall st cur,
    panInProgress st0 start st -> lastPointerPos st = clientPos cur ->
    panInProgress st0 start (run st (map PointerMove es)) /\
    lastPointerPos (run st (map PointerMove es)) = clientPos (last es cur).
Proof.
  induction es as [|e es IH]; intros st cur Hinv Hlast; [now split|].
  change (run st (map PointerMove (e :: es)))
    with (run (handlePointerMove st e) (map PointerMove es)).
  destruct (pointerMove_pans st0 start st e Hinv) as [Hinv' Hlast'].
  destruct (IH (handlePointerMove st e) e Hinv' Hlast') as [H1 H2].
  split; [exact H1|]. rewrite H2. f_equal.
  destruct es as [|e' es]; [reflexivity|].
  change (last (e :: e' :: es) cur) with (last (e' :: es) cur).
  apply last_nonempty.
Qed.

(** X20. A one-pointer pan (middle button, pan tool, or space bar held)
    moves the view by exactly the displacement of the pointer: after the
    pointer-down and any number of pointer-moves the pan offset is the
    one before the gesture plus the last position minus the position of
    the pointer-down, whatever path the pointer took; the selection is not
    touched by the pointer-down. *)
Theorem pan_gesture_follows_pointer (st : Canvas) (down : PointerEvent)
    (moves : list PointerEvent)
    (Hptr : pointersRef st = [])
    (Hdrag : draggingLabelId st = None)
    (Hpan : button down = 1%Z \/
            (button down = 0%Z /\ isPanMode st = true) \/
            isSpacePanning st = true) :
  let st' := run st (PointerDown down :: map PointerMove moves) in
  x (panOffset st')
  = x (panOffset st) + (clientX (last moves down) - clientX down) /\
  y (panOffset st')
  = y (panOffset st) + (clientY (last moves down) - clientY down) /\
  isPanning st' = true /\
  selectedElements (handlePointerDown st down) = selectedElements st.
Proof.
  cbv zeta.
  change (run st (PointerDown down :: map PointerMove moves))
    with (run (handlePointerDown st down) (map PointerMove moves)).
  destruct (pointerDown_starts_pan st down Hptr Hdrag Hpan)
    as (Hinv & Hlast & Hsel).
  destruct (pointerMoves_pan st (clientPos down) moves _ down Hinv Hlast)
    as [(Hp & _ & _ & Hx & Hy) Hl].
  rewrite Hx, Hy, Hl. cbn [clientPos x y]. now repeat split.
Qed.

Lemma pan_gesture_follows_pointer_witness :
  x (panOffset
       (run panToolCanvas
          [PointerDown (primaryAt 1 100 100); PointerMove (primaryAt 1 130 90);
           PointerMove (primaryAt 1 160 140)]))
  = x (panOffset panToolCanvas) + (160 - 100).
Proof.
  apply (pan_gesture_follows_pointer panToolCanvas (primaryAt 1 100 100)
           [primaryAt 1 130 90; primaryAt 1 160 140]).
  - reflexivity.
  - reflexivity.
  - right. left. split; reflexivity.
Defined.

(** ** Selecting by click *)

Lemma pointerDown_on_node (st : Canvas) (e : PointerEvent) (nid : string) :
  isDrawingMode st = false -> isPanMode st = false ->
  isSpacePanning st = false -> pointersRef st = [] ->
  button e <> 1%Z ->
  hitTest st (clientX e - left (rect st)) (clientY e - top (rect st))
  = HitNode nid ->
  handlePointerDown st e
  = (if isSelected st nid then setSelectedElements []
     else setSelectedElements
            [mkSelected nid (if includes nid "edge" then KEdge else KPoint)])
      (assign_lastPointerPos (clientPos e)
         (assign_pointersRef [(pointerId e, clientPos e)] st)).
Proof.
  intros Hdraw Hpan Hspace Hptr Hbtn Hhit. apply Z.eqb_neq in Hbtn.
  unfold handlePointerDown, clientPos. cbv zeta. rewrite Hptr. cbn [map_set].
  cbn -[hitTest isSelected]. rewrite Hbtn, Hpan, Hdraw, Hspace.
  cbn -[hitTest isSelected].
  change (hitTest
            (assign_lastPointerPos {| x := clientX e; y := clientY e |}
               (assign_pointersRef
                  [(pointerId e, {| x := clientX e; y := clientY e |})] st))
            (clientX e - left (rect st)) (clientY e - top (rect st)))
    with (hitTest st (clientX e - left (rect st)) (clientY e - top (rect st))).
  rewrite Hhit.
  change (isSelected
            (assign_lastPointerPos {| x := clientX e; y := clientY e |}
               (assign_pointersRef
                  [(pointerId e, {| x := clientX e; y := clientY e |})] st))
            nid)
    with (isSelected st nid).
  rewrite andb_false_r. now destruct (isSelected st nid).
Qed.

Lemma hitTest_same_view (st st1 : Canvas) (cx cy : R) :
  data st1 = data st -> angleX st1 = angleX st -> angleY st1 = angleY st ->
  scale st1 = scale st -> dimensions st1 = dimensions st ->
  panOffset st1 = panOffset st ->
  hitTest st1 cx cy = hitTest st cx cy.
Proof.
  intros Hd HX HY Hs Hdim Hp.
  unfold hitTest, labelPositions, projectedPoints.
  now rewrite Hd, HX, HY, Hs, Hdim, Hp.
Qed.

(** A pointer-up outside draw mode touches nothing but the pointer
    records, the panning flag and the dragged label. *)
Lemma pointerUp_frame (st : Canvas) (e : PointerEvent) (now : string) :
  isDrawingMode st = false ->
  let st1 := handlePointerUp st e now in
  selectedElements st1 = selectedElements st /\
  isDrawingMode st1 = false /\ isPanMode st1 = isPanMode st /\
  isSpacePanning st1 = isSpacePanning st /\
  pointersRef st1 = map_delete Z.eqb (pointersRef st) (pointerId e) /\
  rect st1 = rect st /\
  (data st1 = data st /\ angleX st1 = angleX st /\ angleY st1 = angleY st /\
   scale st1 = scale st /\ dimensions st1 = dimensions st /\
   panOffset st1 = panOffset st).
Proof.
  intros Hdraw. cbv zeta. unfold handlePointerUp. rewrite Hdraw. cbv zeta.
  cbn [andb]. break_match; cbn; rewrite ?Hdraw; now repeat split.
Qed.

(** X21. A pointer-down that hits a point or an edge, with no tool on and
    no other pointer down, replaces the selection by that element alone, or
    clears the selection when the element was already selected; it starts
    no pan, no label drag and no stroke.  So clicking twice on an element
    that was not selected leaves nothing selected. *)
Theorem click_selects_then_deselects (st : Canvas) (e : PointerEvent)
    (nid now now' : string)
    (Hdraw : isDrawingMode st = false)
    (Hpan : isPanMode st = false)
    (Hspace : isSpacePanning st = false)
    (Hptr : pointersRef st = [])
    (Hbtn : button e <> 1%Z)
    (Hhit : hitTest st (clientX e - left (rect st)) (clientY e - top (rect st))
            = HitNode nid) :
  let st' := handlePointerDown st e in
  (isSelected st nid = false ->
   selectedElements st'
   = [mkSelected nid (if includes nid "edge" then KEdge else KPoint)]) /\
  (isSelected st nid = true -> selectedElements st' = []) /\
  isPanning st' = isPanning st /\
  draggingLabelId st' = draggingLabelId st /\
  currentStroke st' = currentStroke st /\
  (isSelected st nid = false ->
   selectedElements (run st (click e now ++ click e now')) = []).
Proof.
  cbv zeta.
  pose proof (pointerDown_on_node st e nid Hdraw Hpan Hspace Hptr Hbtn Hhit)
    as Hdown.
  rewrite Hdown.
  split; [intros ->; reflexivity|].
  split; [intros ->; reflexivity|].
  split; [now destruct (isSelected st nid)|].
  split; [now destruct (isSelected st nid)|].
  split; [now destruct (isSelected st nid)|].
  intros Hnot. unfold click. cbn [app run fold_left step].
  rewrite Hdown, Hnot.
  set (k := if includes nid "edge" then KEdge else KPoint).
  set (st0 := setSelectedElements [mkSelected nid k] _).
  assert (Hdraw0 : isDrawingMode st0 = false) by exact Hdraw.
  destruct (pointerUp_frame st0 e now Hdraw0)
    as (Hsel1 & Hdraw1 & Hpan1 & Hspace1 & Hptr1 & Hrect1 &
        Hd1 & HX1 & HY1 & Hs1 & Hdim1 & Hp1).
  set (st1 := handlePointerUp st0 e now) in *.
  assert (Hptr1' : pointersRef st1 = []).
  { rewrite Hptr1. unfold st0. cbn. now rewrite Z.eqb_refl. }
  assert (Hhit1 : hitTest st1 (clientX e - left (rect st1))
                    (clientY e - top (rect st1)) = HitNode nid).
  { rewrite Hrect1.
    rewrite (hitTest_same_view st st1) by
      (rewrite ?Hd1, ?HX1, ?HY1, ?Hs1, ?Hdim1, ?Hp1; reflexivity).
    exact Hhit. }
  rewrite (pointerDown_on_node st1 e nid Hdraw1 (eq_trans Hpan1 Hpan)
             (eq_trans Hspace1 Hspace) Hptr1' Hbtn Hhit1).
  assert (Hsel : isSelected st1 nid = true).
  { unfold isSelected. rewrite Hsel1. unfold st0. cbn.
    now rewrite String.eqb_refl. }
  rewrite Hsel.
  set (st2 := setSelectedElements [] _).
  assert (Hdraw2 : isDrawingMode st2 = false) by exact Hdraw1.
  destruct (pointerUp_frame st2 e now' Hdraw2) as (-> & _).
  reflexivity.
Qed.

Lemma dot_hit :
  hitTest dotCanvas (400 - left (rect dotCanvas)) (300 - top (rect dotCanvas))
  = HitNode "P".
Proof.
  set (P := mkPoint3D "P" 0 0 0 None None).
  assert (Hunique : NoDup (map id (points (data dotCanvas)))).
  { cbn. repeat constructor. easy. }
  assert (Hin : In P (points (data dotCanvas))) by (cbn; now left).
  assert (Hpos : projectedPosition dotCanvas P
                 = {| x := 0 * 25 + 800 / 2 + 0; y := - 0 * 25 + 600 / 2 + 0 |})
    by (now rewrite projectedPosition_flat).
  assert (Hpoint : pointHit (projectedPoints dotCanvas)
                     (400 - left (rect dotCanvas)) (300 - top (rect dotCanvas))
                     P = true).
  { apply (pointHit_region _ _ _ _ (projectedPosition dotCanvas P)).
    - now apply projectedPoints_get.
    - rewrite Hpos. cbn. split; apply Rabs_def1; lra. }
  assert (Hlabel : labelHit (labelPositions dotCanvas)
                     (400 - left (rect dotCanvas)) (300 - top (rect dotCanvas))
                     P = false).
  { unfold labelHit. now destruct (map_get _ _ (id P)). }
  unfold hitTest, clickedNode, firstMatch.
  change (points (data dotCanvas)) with [P]. cbn [find].
  rewrite Hlabel, Hpoint. reflexivity.
Qed.

Lemma click_selects_then_deselects_witness :
  selectedElements (handlePointerDown dotCanvas (primaryAt 1 400 300))
  = [mkSelected "P" KPoint] /\
  selectedElements
    (run dotCanvas
       (click (primaryAt 1 400 300) "1700000000000"
        ++ click (primaryAt 1 400 300) "1700000000500"))
  = [].
Proof.
  destruct (click_selects_then_deselects dotCanvas (primaryAt 1 400 300) "P"
              "1700000000000" "1700000000500")
    as (Hsel & _ & _ & _ & _ & Htwice).
  - reflexivity.
  - reflexivity.
  - reflexivity.
  - reflexivity.
  - cbn. lia.
  - exact dot_hit.
  - split; [apply Hsel | apply Htwice]; reflexivity.
Defined.

(** ** Resetting and centring the view *)

Lemma centerViewFrom_self (st : Canvas) : centerViewFrom st st = centerView st.
Proof. reflexivity. Qed.

(** X22. [centerView] leaves an empty document alone.  Otherwise it sets
    the pan offset so that the centroid of the points, projected with the
    angles, scale and dimensions it reads, lands on the centre of the
    viewport, and then multiplies the current scale by 1.5, up to 60; so
    under the new scale the centroid sits off-centre by the change of scale
    times its rotated coordinates. *)
Theorem centerView_centres_centroid (seen st : Canvas)
    (Hne : points (data seen) <> []) :
  let c := get3DCentroid (points (data seen)) in
  let st' := centerViewFrom seen st in
  let r :=
    rotateAboutHorizontal (radians (angleX seen))
      (rotateAboutVertical (radians (angleY seen))
         {| vx := x3 c; vy := y3 c; vz := z3 c |}) in
  x (projectedPosition (setPanOffset (panOffset st') seen) c)
  = width (dimensions seen) / 2 /\
  y (projectedPosition (setPanOffset (panOffset st') seen) c)
  = height (dimensions seen) / 2 /\
  scale st' = Math_min (scale st * 1.5) 60 /\
  scale st' <= 60 /\
  x (projectedPosition (centerView seen) c)
  = width (dimensions seen) / 2 + (scale (centerView seen) - scale seen) * vx r /\
  y (projectedPosition (centerView seen) c)
  = height (dimensions seen) / 2 - (scale (centerView seen) - scale seen) * vy r.
Proof.
  cbv zeta. unfold centerView, centerViewFrom.
  destruct (points (data seen)) as [|p0 pts] eqn:Epts; [congruence|].
  rewrite <- Epts. unfold projectedPosition, projectPoint, radians.
  cbn. repeat split; try lra; try ring.
  unfold Math_min, Rmin. destruct (Rle_dec _ 60); lra.
Qed.

Lemma centerView_centres_centroid_witness :
  scale (centerViewFrom flatCanvas flatCanvas) = Math_min (25 * 1.5) 60.
Proof.
  apply (centerView_centres_centroid flatCanvas flatCanvas).
  cbn. discriminate.
Defined.

(** X23. [resetView] is idempotent, and the reset followed by the deferred
    centring of a non-empty document always ends at the same zoom: 37.5
    for a 2D document and 30 for a 3D one, whatever the view was before.
    The reset turns both tools off and clears the selection, and leaves
    the auto-rotation flag as it was. *)
Theorem resetView_then_center (seen st : Canvas)
    (Hne : points (data seen) <> []) :
  resetView (resetView st) = resetView st /\
  scale (centerViewFrom seen (resetView st))
  = match gtype (data st) with TwoD => 37.5 | ThreeD => 30 end /\
  isDrawingMode (resetView st) = false /\
  isPanMode (resetView st) = false /\
  selectedElements (resetView st) = [] /\
  panOffset (resetView st) = {| x := 0; y := 0 |} /\
  isAutoRotating (resetView st) = isAutoRotating st.
Proof.
  unfold centerViewFrom.
  destruct (points (data seen)) as [|p0 pts]; [congruence|].
  unfold resetView.
  destruct st as [sc aX aY pan ar dim sel dm pm sp pg dl lpp ptrs ppd cs dc
                  d rc].
  destruct d as [dpts des ddr dty]. destruct dty; cbn;
    repeat split; try reflexivity;
    unfold Math_min, Rmin;
    match goal with
    | |- context [Rle_dec ?a 60] => destruct (Rle_dec a 60); lra
    end.
Qed.

Lemma resetView_then_center_witness :
  scale (centerViewFrom flatCanvas (resetView (zoomInButton flatCanvas)))
  = 37.5.
Proof.
  apply (resetView_then_center flatCanvas (zoomInButton flatCanvas)).
  cbn. discriminate.
Defined.

(** ** The projects of [App] *)

Lemma find_map_update {A : Type} (f : A -> bool) (g : A -> A) (l : list A) :
  (forall a, f (g a) = f a) ->
  find f (map (fun a => if f a then g a else a) l) = option_map g (find f l).
Proof.
  intros Hfg. induction l as [|a l IH]; [reflexivity|]. cbn [map find].
  destruct (f a) eqn:E.
  - now rewrite Hfg, E.
  - now rewrite E.
Qed.

Lemma find_filter {A : Type} (f g : A -> bool) (l : list A) :
  (forall a, f a = true -> g a = true) ->
  find f (filter g l) = find f l.
Proof.
  intros Hfg. induction l as [|a l IH]; [reflexivity|]. cbn [filter find].
  destruct (g a) eqn:Eg; cbn [find].
  - now rewrite IH.
  - destruct (f a) eqn:Ef; [|exact IH].
    rewrite (Hfg a Ef) in Eg. discriminate Eg.
Qed.

Lemma find_same {A : Type} (f g : A -> bool) (l : list A) :
  (forall a, f a = g a) -> find f l = find g l.
Proof.
  intros Hfg. induction l as [|a l IH]; [reflexivity|]. cbn [find].
  now rewrite Hfg, IH.
Qed.

(** X24. What the canvas hands to [onDataUpdate] is what it is given back:
    when a project is active, the update stores the new document in it, so
    the [data] prop of the canvas becomes that document; the ids and the
    order of the projects, the active id and every other project are left
    as they were. *)
Theorem appOnDataUpdate_roundtrip (app : App) (newData : GeometryData)
    (now : R) (p : Project)
    (Hactive : activeProject app = Some p) :
  let app' := appOnDataUpdate app newData now in
  geometryData app' = Some newData /\
  activeProject app'
  = Some (mkProject (project_id p) (project_name p) (project_subjectId p)
            (Some newData) (project_currentStepIndex p) (project_messages p)
            now) /\
  map project_id (projects app') = map project_id (projects app) /\
  currentProjectId app' = currentProjectId app /\
  (forall q, In q (projects app) -> isCurrent app q = false ->
     In q (projects app')).
Proof.
  cbv zeta. unfold appOnDataUpdate, updateActiveProject.
  assert (Hfind : activeProject
                    (mkApp
                       (map (fun q =>
                               if isCurrent app q
                               then applyUpdates q
                                      (mkUpdates None (Some newData) None) now
                               else q) (projects app))
                       (currentProjectId app) (isSidebarOpen app))
                  = Some (applyUpdates p (mkUpdates None (Some newData) None)
                            now)).
  { unfold activeProject in *. cbn [projects].
    change (isCurrent (mkApp _ (currentProjectId app) (isSidebarOpen app)))
      with (isCurrent app).
    rewrite find_map_update by reflexivity. now rewrite Hactive. }
  split; [unfold geometryData; now rewrite Hfind|].
  split; [exact Hfind|]. split; [|split; [reflexivity|]].
  - cbn [projects]. rewrite map_map. apply map_ext. intros q.
    now destruct (isCurrent app q).
  - intros q Hin Hq. cbn [projects]. apply in_map_iff. exists q.
    now rewrite Hq.
Qed.

Lemma appOnDataUpdate_roundtrip_witness :
  geometryData (appOnDataUpdate sampleApp solidDocument 5)
  = Some solidDocument.
Proof.
  apply (appOnDataUpdate_roundtrip sampleApp solidDocument 5
           (mkProject "p1" "Tam giác" (Some "math") (Some triangleDocument) 0
              [welcomeMessage 0] 1)).
  reflexivity.
Defined.

(** X25. Deleting a project never leaves the application without an
    active project: when one was active before, one is active afterwards
    (the first remaining project, or a fresh one when the list became
    empty).  The projects that remain from the old list are exactly those
    with another id, in their old order, and a refused confirmation changes
    nothing. *)
Theorem deleteProject_keeps_active (app : App) (pid : string)
    (confirmed : bool) (nowId : string) (msgTime now innerWidth : R)
    (Hactive : activeProject app <> None) :
  let app' := deleteProject app pid confirmed nowId msgTime now innerWidth in
  activeProject app' <> None /\
  (exists fresh,
     (length fresh <= 1)%nat /\
     projects app'
     = fresh ++
       (if confirmed
        then filter (fun p => negb (String.eqb (project_id p) pid))
               (projects app)
        else projects app)) /\
  (confirmed = false -> app' = app).
Proof.
  cbv zeta. unfold deleteProject.
  destruct confirmed.
  2: { split; [exact Hactive|]. split; [exists []; split; [cbn; lia | reflexivity]|reflexivity]. }
  unfold activeProject in Hactive.
  destruct (currentProjectId app) as [c|] eqn:Ec.
  2: { exfalso. apply Hactive. unfold isCurrent. rewrite Ec.
       now apply find_all_false. }
  destruct (String.eqb c pid) eqn:Ecp.
  - destruct (filter _ (projects app)) as [|first rest] eqn:Ef.
    + split; [|split; [|discriminate]].
      * unfold createProject, activeProject, isCurrent. cbn.
        now rewrite String.eqb_refl.
      * eexists [_]. split; [cbn; lia | reflexivity].
    + split; [|split; [|discriminate]].
      * unfold activeProject, isCurrent. cbn. now rewrite String.eqb_refl.
      * exists []; split; [cbn; lia | reflexivity].
  - split; [|split; [exists []; split; [cbn; lia | reflexivity] | discriminate]].
    unfold activeProject. cbn [projects].
    rewrite find_filter.
    + rewrite (find_same _ (isCurrent app)); [exact Hactive|].
      intros a. unfold isCurrent. cbn. now rewrite Ec.
    + intros a Ha. unfold isCurrent in Ha. cbn in Ha.
      apply String.eqb_eq in Ha. rewrite Ha, Ecp. reflexivity.
Qed.

Lemma deleteProject_keeps_active_witness :
  activeProject (deleteProject sampleApp "p1" true "1700000000000" 3 4 1024)
  <> None.
Proof.
  apply (deleteProject_keeps_active sampleApp "p1" true "1700000000000" 3 4
           1024).
  discriminate.
Defined.

(** X26. Duplicating a project puts the copy first, under the fresh id,
    with the figure, the step and the messages of the original; as long as
    the fresh id is not that of the active project, the active project and
    the document shown by the canvas stay the same.  An unknown id changes
    nothing. *)
Theorem duplicateProject_keeps_active (app : App) (pid nowId : string)
    (now : R)
    (Hfresh : currentProjectId app <> Some nowId) :
  let app' := duplicateProject app pid nowId now in
  activeProject app' = activeProject app /\
  geometryData app' = geometryData app /\
  (forall orig,
     find (fun p => String.eqb (project_id p) pid) (projects app) = Some orig ->
     exists copy,
       projects app' = copy :: projects app /\
       project_id copy = nowId /\
       project_geometryData copy = project_geometryData orig /\
       project_messages copy = project_messages orig) /\
  (find (fun p => String.eqb (project_id p) pid) (projects app) = None ->
   app' = app).
Proof.
  cbv zeta. unfold duplicateProject.
  destruct (find _ (projects app)) as [orig|] eqn:Ef.
  - assert (Hact : activeProject
                     (mkApp
                        (mkProject nowId
                           (String.append (project_name orig) " (Copy)")
                           (project_subjectId orig)
                           (project_geometryData orig)
                           (project_currentStepIndex orig)
                           (project_messages orig) now :: projects app)
                        (currentProjectId app) (isSidebarOpen app))
                   = activeProject app).
    { unfold activeProject. cbn [projects find].
      change (isCurrent (mkApp _ (currentProjectId app) (isSidebarOpen app)))
        with (isCurrent app).
      unfold isCurrent at 1. cbn [project_id].
      destruct (currentProjectId app) as [c|]; [|reflexivity].
      destruct (String.eqb nowId c) eqn:E; [|reflexivity].
      apply String.eqb_eq in E. congruence. }
    split; [exact Hact|]. split; [unfold geometryData; now rewrite Hact|].
    split; [|discriminate].
    intros o [= <-]. eexists. split; [reflexivity|]. now repeat split.
  - split; [reflexivity|]. split; [reflexivity|].
    split; [discriminate | reflexivity].
Qed.

Lemma duplicateProject_keeps_active_witness :
  geometryData (duplicateProject sampleApp "p2" "1700000000000" 9)
  = geometryData sampleApp.
Proof.
  apply (duplicateProject_keeps_active sampleApp "p2" "1700000000000" 9).
  discriminate.
Defined.

(** ** Tools and angles *)

(** X27. With the draw tool or the pan tool on, or with the space bar
    held, a pointer-down runs no hit test: it never changes the selection
    and never starts a label drag. *)
Theorem tools_block_selection (st : Canvas) (e : PointerEvent)
    (Htool : isDrawingMode st = true \/ isPanMode st = true \/
             isSpacePanning st = true) :
  selectedElements (handlePointerDown st e) = selectedElements st /\
  draggingLabelId (handlePointerDown st e) = draggingLabelId st.
Proof.
  unfold handlePointerDown, pointerDownDispatch. cbv zeta.
  cbn -[hitTest].
  destruct ((button e =? 1)%Z || (button e =? 0)%Z && isPanMode st);
    [now split|].
  assert (Hskip : negb (isDrawingMode st) && negb (isPanMode st)
                  && negb (isSpacePanning st) = false).
  { destruct Htool as [H | [H | H]]; rewrite H; cbn;
      rewrite ?andb_false_r; reflexivity. }
  rewrite Hskip. cbn [andb]. break_match; now split.
Qed.

Lemma tools_block_selection_witness :
  selectedElements (handlePointerDown drawCanvas (primaryAt 1 400 300))
  = selectedElements drawCanvas.
Proof.
  apply (tools_block_selection drawCanvas (primaryAt 1 400 300)).
  left. reflexivity.
Defined.




